(** * beets: the MusicBrainz metadata mapper and the cover-art plugin

    A shallow embedding of [beets/autotag/mb.py] and of
    [beetsplug/embedart.py], and the properties of the two that the
    specification of the repository states.

    Conventions of the embedding.
    - A Python [str] is a Rocq [string]; a character is a code point below
      256 (Latin-1), which is the range on which [int], [str.lower] and
      [str.isspace] are written out below.
    - A dictionary of the web service with a fixed schema is a record.  A key
      the source tests ([in], [.get]) is an [option] field; a key the source
      only ever indexes is a plain field; a key that is tested in one place and
      indexed in another is an [option] field whose indexing raises
      [KeyError].
    - Exceptions are the [Raise] results of the [result] monad; a loop is a
      recursive function over the list it iterates, threading the variables
      it assigns.
    - Logging to the debug channel has no effect on any value and is left
      out of the metadata mapper; the art plugin keeps its log, which the
      specification speaks about. *)

From Stdlib Require Import ZArith List String Ascii Bool Lia Sorted Permutation DecimalString.
From stdpp Require Import base option list strings gmap.

Local Open Scope Z_scope.

(** ** Strings *)

Definition str := string.

Definition ord (a : ascii) : nat := nat_of_ascii a.

Definition in_range (lo hi : nat) (a : ascii) : bool :=
  (Nat.leb lo (ord a)) && (Nat.leb (ord a) hi).

(** [str.lower] on Latin-1: A-Z, and the accented capitals U+00C0..U+00DE
    but for the multiplication sign U+00D7. *)
Definition lower_char (a : ascii) : ascii :=
  if in_range 65 90 a then ascii_of_nat (ord a + 32)
  else if in_range 192 222 a && negb (Nat.eqb (ord a) 215)
       then ascii_of_nat (ord a + 32)
       else a.

Fixpoint lower (s : str) : str :=
  match s with
  | EmptyString => EmptyString
  | String a s' => String (lower_char a) (lower s')
  end.

(** [sep.join(parts)] *)
Definition join (sep : str) (parts : list str) : str := String.concat sep parts.

(** [s.split(sep)] for a one-character separator: the pieces between the
    separators, empty pieces included; the empty string gives one empty
    piece. *)
Fixpoint split_aux (sep : ascii) (s : str) (cur : str -> str) : list str :=
  match s with
  | EmptyString => [cur EmptyString]
  | String a s' =>
      if Ascii.eqb a sep then cur EmptyString :: split_aux sep s' (fun x => x)
      else split_aux sep s' (fun x => cur (String a x))
  end.

Definition split (sep : ascii) (s : str) : list str := split_aux sep s (fun x => x).

Definition str_eqb (a b : str) : bool := String.eqb a b.

(** [x in l] for a list of strings *)
Definition str_in (x : str) (l : list str) : bool := existsb (str_eqb x) l.

(** Truth value of a string, and of an optional value holding one. *)
Definition nonempty (s : str) : bool :=
  match s with EmptyString => false | _ => true end.

(** ** Exceptions and results *)

(** The exception classes of the [musicbrainzngs] client library. *)
Inductive MusicBrainzError :=
| MusicBrainzError_base
| UsageError
| InvalidSearchFieldError
| InvalidIncludeError
| InvalidFilterError
| WebServiceError
| NetworkError
| ResponseError
| AuthenticationError.

Definition isinstance_WebServiceError (e : MusicBrainzError) : bool :=
  match e with
  | WebServiceError | NetworkError | ResponseError | AuthenticationError => true
  | _ => false
  end.

Definition isinstance_ResponseError (e : MusicBrainzError) : bool :=
  match e with ResponseError => true | _ => false end.

(** The [reason] a [MusicBrainzAPIError] is built with: the exception it
    wraps, or the text that replaces a [WebServiceError]. *)
Inductive api_reason :=
| ReasonExc (e : MusicBrainzError)
| ReasonStr (s : str).

Inductive exn :=
| KeyError (key : str)
| IndexError
| TypeError
| ValueError (literal : str)
| IOError (path : str)
| MBError (e : MusicBrainzError)
| MusicBrainzAPIError (reason : api_reason) (verb : str) (query : str).

(** [MusicBrainzAPIError.__init__]; the traceback text is not kept. *)
Definition MusicBrainzAPIError_init (reason : MusicBrainzError) (verb query : str) : exn :=
  MusicBrainzAPIError
    (if isinstance_WebServiceError reason
     then ReasonStr "MusicBrainz not reachable"
     else ReasonExc reason)
    verb query.

Inductive result (A : Type) :=
| Ok (a : A)
| Raise (e : exn).
Arguments Ok {A} a.
Arguments Raise {A} e.

Global Instance result_ret : MRet result := fun A a => Ok a.
Global Instance result_bind : MBind result := fun A B f m =>
  match m with
  | Ok a => f a
  | Raise e => Raise e
  end.

(** [d[key]] on an optional key *)
Definition index_key {A} (key : str) (o : option A) : result A :=
  match o with
  | Some a => Ok a
  | None => Raise (KeyError key)
  end.

(** ** [int(s)] on a string *)

Definition is_space (a : ascii) : bool :=
  in_range 9 13 a || in_range 28 32 a || Nat.eqb (ord a) 133 || Nat.eqb (ord a) 160.

Definition is_digit (a : ascii) : bool := in_range 48 57 a.

Definition digit_value (a : ascii) : Z := Z.of_nat (ord a - 48).

Fixpoint lstrip (s : str) : str :=
  match s with
  | String a s' => if is_space a then lstrip s' else s
  | EmptyString => EmptyString
  end.

Fixpoint all_space (s : str) : bool :=
  match s with
  | String a s' => is_space a && all_space s'
  | EmptyString => true
  end.

(** Decimal digits with single underscores between them: [after_digit]
    tells whether the previous character was a digit, [acc] is the value
    read so far.  Returns the value and the unread rest. *)
Fixpoint int_digits (s : str) (after_digit : bool) (acc : Z) : option (Z * str) :=
  match s with
  | String a s' =>
      if is_digit a then int_digits s' true (10 * acc + digit_value a)
      else if Ascii.eqb a "_"%char then
        if after_digit then
          match s' with
          | String b _ => if is_digit b then int_digits s' false acc else None
          | EmptyString => None
          end
        else None
      else if after_digit then Some (acc, s) else None
  | EmptyString => if after_digit then Some (acc, EmptyString) else None
  end.

Definition int_opt (s : str) : option Z :=
  let s1 := lstrip s in
  let '(neg, s2) :=
    match s1 with
    | String a s' =>
        if Ascii.eqb a "-"%char then (true, s')
        else if Ascii.eqb a "+"%char then (false, s')
        else (false, s1)
    | EmptyString => (false, s1)
    end in
  match int_digits s2 false 0 with
  | Some (v, rest) => if all_space rest then Some (if neg then - v else v) else None
  | None => None
  end.

Definition int (s : str) : result Z :=
  match int_opt s with
  | Some v => Ok v
  | None => Raise (ValueError s)
  end.


(** ** The float quotient [int(ms) / 1000.0]

    A duration is an integer number of milliseconds divided by the float
    [1000.0].  No property below looks inside the quotient: it is kept as
    the dividend it was computed from. *)
Inductive pyfloat :=
| div_1000 (ms : Z).

(** * The metadata mapper, [beets/autotag/mb.py] *)

(** ** The response dictionaries of the web service *)

Record Alias := {
  alias_locale : option str;          (* 'locale' *)
  alias_primary : option str;         (* 'primary' *)
  alias_type : option str;            (* 'type' *)
  alias_alias : str;                  (* 'alias' *)
  alias_sort_name : str;              (* 'sort-name' *)
}.

Record Artist := {
  artist_id : str;                            (* 'id' *)
  artist_name : str;                          (* 'name' *)
  artist_sort_name : option str;              (* 'sort-name' *)
  artist_alias_list : option (list Alias);    (* 'alias-list' *)
}.

(** One element of an ['artist-credit'] list: a join phrase, or a dictionary
    with an ['artist'] and, optionally, the ['name'] it is credited as. *)
Inductive CreditEl :=
| JoinPhrase (s : str)
| Credit (artist : Artist) (name : option str).

Record ArtistRelation := {
  ar_type : option str;               (* 'type' *)
  ar_artist : Artist;                 (* 'artist' *)
}.

Record Work := {
  work_title : str;                                        (* 'title' *)
  work_id : str;                                           (* 'id' *)
  work_disambiguation : option str;                        (* 'disambiguation' *)
  work_artist_relation_list : option (list ArtistRelation) (* 'artist-relation-list' *)
}.

Record WorkRelation := {
  wr_type : str;                      (* 'type' *)
  wr_work : Work;                     (* 'work' *)
}.

Record Recording := {
  rec_id : str;                                             (* 'id' *)
  rec_title : option str;                                   (* 'title' *)
  rec_video : option str;                                   (* 'video' *)
  rec_artist_credit : option (list CreditEl);               (* 'artist-credit' *)
  rec_artist_relation_list : option (list ArtistRelation);  (* 'artist-relation-list' *)
  rec_length : option str;                                  (* 'length' *)
  rec_disambiguation : option str;                          (* 'disambiguation' *)
  rec_isrc_list : option (list str);                        (* 'isrc-list' *)
  rec_work_relation_list : option (list WorkRelation);      (* 'work-relation-list' *)
}.

Record Track := {
  trk_id : str;                                 (* 'id' *)
  trk_position : str;                           (* 'position' *)
  trk_number : str;                             (* 'number' *)
  trk_recording : Recording;                    (* 'recording' *)
  trk_title : option str;                       (* 'title' *)
  trk_artist_credit : option (list CreditEl);   (* 'artist-credit' *)
  trk_length : option str;                      (* 'length' *)
}.

Record Medium := {
  med_title : option str;                       (* 'title' *)
  med_format : option str;                      (* 'format' *)
  med_position : str;                           (* 'position' *)
  med_track_list : list Track;                  (* 'track-list' *)
  med_data_track_list : option (list Track);    (* 'data-track-list' *)
  med_pregap : option Track;                    (* 'pregap' *)
}.

Record GenreItem := {
  genre_name : str;                   (* 'name' *)
  genre_count : str;                  (* 'count' *)
}.

Record Area := {
  area_iso_3166_1_code_list : option (list str);  (* 'iso-3166-1-code-list' *)
}.

Record ReleaseEvent := {
  ev_area : option Area;              (* 'area' *)
  ev_date : option str;               (* 'date' *)
}.

Record Label := {
  label_name : str;                   (* 'name' *)
}.

Record LabelInfo := {
  li_label : option Label;            (* 'label' *)
  li_catalog_number : option str;     (* 'catalog-number' *)
}.

Record TextRepresentation := {
  rep_script : option str;            (* 'script' *)
  rep_language : option str;          (* 'language' *)
}.

Record ReleaseGroup := {
  rg_id : str;                                  (* 'id' *)
  rg_disambiguation : option str;               (* 'disambiguation' *)
  rg_type : option str;                         (* 'type' *)
  rg_primary_type : option str;                 (* 'primary-type' *)
  rg_secondary_type_list : option (list str);   (* 'secondary-type-list' *)
  rg_first_release_date : option str;           (* 'first-release-date' *)
  rg_genre_list : option (list GenreItem);      (* 'genre-list' *)
}.

Record Release := {
  rel_id : str;                                           (* 'id' *)
  rel_title : str;                                        (* 'title' *)
  rel_artist_credit : list CreditEl;                      (* 'artist-credit' *)
  rel_medium_list : list Medium;                          (* 'medium-list' *)
  rel_release_group : ReleaseGroup;                       (* 'release-group' *)
  rel_asin : option str;                                  (* 'asin' *)
  rel_status : option str;                                (* 'status' *)
  rel_disambiguation : option str;                        (* 'disambiguation' *)
  rel_country : option str;                               (* 'country' *)
  rel_date : option str;                                  (* 'date' *)
  rel_release_event_list : option (list ReleaseEvent);    (* 'release-event-list' *)
  rel_label_info_list : option (list LabelInfo);          (* 'label-info-list' *)
  rel_text_representation : option TextRepresentation;    (* 'text-representation' *)
  rel_genre_list : option (list GenreItem);               (* 'genre-list' *)
}.

(** ** The canonical records, [beets.autotag.hooks]

    Every attribute starts out as [None] unless the constructor is given a
    value for it. *)

Module TrackInfo.
Record t := {
  title : option str;
  track_id : option str;
  index : option Z;
  medium : option Z;
  medium_index : option Z;
  medium_total : option Z;
  data_source : option str;
  data_url : option str;
  artist : option str;
  artist_sort : option str;
  artist_credit : option str;
  artist_id : option str;
  remixer : option str;
  length : option pyfloat;
  trackdisambig : option str;
  isrc : option str;
  work : option str;
  mb_workid : option str;
  work_disambig : option str;
  lyricist : option str;
  composer : option str;
  composer_sort : option str;
  arranger : option str;
  release_track_id : option str;
  disctitle : option str;
  media : option str;
  track_alt : option str;
}.
End TrackInfo.

Module AlbumInfo.
Record t := {
  album : option str;
  album_id : option str;
  artist : option str;
  artist_id : option str;
  tracks : list TrackInfo.t;
  mediums : option Z;
  artist_sort : option str;
  artist_credit : option str;
  data_source : option str;
  data_url : option str;
  va : bool;
  asin : option str;
  releasegroup_id : option str;
  albumstatus : option str;
  releasegroupdisambig : option str;
  albumdisambig : option str;
  albumtype : option str;
  albumtypes : option (list str);
  country : option str;
  year : option Z;
  month : option Z;
  day : option Z;
  original_year : option Z;
  original_month : option Z;
  original_day : option Z;
  label : option str;
  catalognum : option str;
  script : option str;
  language : option str;
  media : option str;
  genre : option str;
}.

(** The record with its six date attributes replaced. *)
Definition with_dates (i : t) (y m d oy om od : option Z) : t :=
  {| album := album i; album_id := album_id i; artist := artist i;
     artist_id := artist_id i; tracks := tracks i; mediums := mediums i;
     artist_sort := artist_sort i; artist_credit := artist_credit i;
     data_source := data_source i; data_url := data_url i; va := va i;
     asin := asin i; releasegroup_id := releasegroup_id i;
     albumstatus := albumstatus i;
     releasegroupdisambig := releasegroupdisambig i;
     albumdisambig := albumdisambig i; albumtype := albumtype i;
     albumtypes := albumtypes i; country := country i;
     year := y; month := m; day := d;
     original_year := oy; original_month := om; original_day := od;
     label := label i; catalognum := catalognum i; script := script i;
     language := language i; media := media i; genre := genre i |}.
End AlbumInfo.

(** ** Configuration and collaborators *)

(** The configuration views the mapper reads. *)
Record Config := {
  import_languages : list str;             (* config['import']['languages'] *)
  import_ignored_alias_types : list str;   (* config['import']['ignored_alias_types'] *)
  match_preferred_countries : list str;    (* config['match']['preferred']['countries'] *)
  match_ignored_media : list str;          (* config['match']['ignored_media'] *)
  match_ignore_data_tracks : bool;         (* config['match']['ignore_data_tracks'] *)
  match_ignore_video_tracks : bool;        (* config['match']['ignore_video_tracks'] *)
  musicbrainz_genres : bool;               (* config['musicbrainz']['genres'] *)
  va_name : str;                           (* config['va_name'] *)
}.

(** [plugins.send(event, data=...)]: the field updates the listeners of
    the two extraction events return, each as the update it makes to the
    record through [info.update]. *)
Record Plugins := {
  mb_track_extract : Recording -> list (TrackInfo.t -> TrackInfo.t);
  mb_album_extract : Release -> list (AlbumInfo.t -> AlbumInfo.t);
}.

(** The calls of the client library the mapper makes, and the two tables of
    it the include lists are computed from. *)
Record musicbrainzngs := {
  VALID_INCLUDES_recording : list str;
  VALID_BROWSE_INCLUDES_recording : list str;
  get_release_by_id : str -> list str -> result Release;
  get_recording_by_id : str -> list str -> result Recording;
  browse_recordings : str -> nat -> list str -> nat -> result (list Recording);
}.

(** ** Module constants *)

Definition VARIOUS_ARTISTS_ID : str := "89ad4ac3-39f7-470e-963a-56509c546377".
Definition BASE_URL : str := "https://musicbrainz.org/".
Definition SKIPPED_TRACKS : list str := ["[data track]"].
Definition BROWSE_CHUNKSIZE : nat := 100.
Definition BROWSE_MAXTRACKS : nat := 500.

(** [urljoin(BASE_URL, path)] for a relative path of plain segments, which
    is what an identifier of the service makes: the base ends in a slash,
    so the path is appended to it. *)
Definition urljoin (base path : str) : str := base +:+ path.

Definition track_url (trackid : str) : str := urljoin BASE_URL ("recording/" +:+ trackid).
Definition album_url (albumid : str) : str := urljoin BASE_URL ("release/" +:+ albumid).

Section Mapper.

Variable config : Config.
Variable mbz : musicbrainzngs.
Variable plugins : Plugins.

Definition RELEASE_INCLUDES : list str :=
  ["artists"; "media"; "recordings"; "release-groups"; "labels";
   "artist-credits"; "aliases"; "recording-level-rels"; "work-rels";
   "work-level-rels"; "artist-rels"; "isrcs"]
  ++ (if str_in "genres" (VALID_INCLUDES_recording mbz) then ["genres"] else []).

Definition BROWSE_INCLUDES : list str :=
  ["artist-credits"; "work-rels"; "artist-rels"; "recording-rels"; "release-rels"]
  ++ (if str_in "work-level-rels" (VALID_BROWSE_INCLUDES_recording mbz)
      then ["work-level-rels"] else []).

Definition TRACK_INCLUDES : list str :=
  ["artists"; "aliases"; "isrcs"]
  ++ (if str_in "work-level-rels" (VALID_INCLUDES_recording mbz)
      then ["work-level-rels"; "artist-rels"] else []).

(** *** [_preferred_alias] *)

(** The inner loop: the aliases of one locale that are primary and whose
    lower-cased type is not ignored, appended to [matches] in list order. *)
Fixpoint alias_matches (ignored_alias_types : list str) (locale : str)
    (aliases : list Alias) (matches : list Alias) : list Alias :=
  match aliases with
  | [] => matches
  | a :: rest =>
      let hit :=
        match alias_locale a with
        | Some l => str_eqb l locale
        | None => false
        end
        && (match alias_primary a with Some _ => true | None => false end)
        && negb (str_in (lower (default "" (alias_type a))) ignored_alias_types) in
      alias_matches ignored_alias_types locale rest
        (if hit then matches ++ [a] else matches)
  end.

(** The outer loop over the configured locales. *)
Fixpoint alias_search (ignored_alias_types : list str) (aliases : list Alias)
    (locales : list str) : option Alias :=
  match locales with
  | [] => None
  | locale :: rest =>
      match alias_matches ignored_alias_types locale aliases [] with
      | [] => alias_search ignored_alias_types aliases rest
      | m :: _ => Some m
      end
  end.

Definition _preferred_alias (aliases : list Alias) : option Alias :=
  match aliases with
  | [] => None
  | _ =>
      let aliases :=
        List.filter (fun a => match alias_locale a with Some _ => true | None => false end)
                    aliases in
      let ignored_alias_types := map lower (import_ignored_alias_types config) in
      alias_search ignored_alias_types aliases (import_languages config)
  end.

(** *** [_preferred_release_event] *)

(** One event tried for one country: [Some date] when the event's area lists
    the country; a missing key on the way is the [KeyError] the source
    passes over. *)
Definition event_for_country (country : str) (event : ReleaseEvent) : option str :=
  match ev_area event with
  | Some area =>
      match area_iso_3166_1_code_list area with
      | Some codes => if str_in country codes then ev_date event else None
      | None => None
      end
  | None => None
  end.

Fixpoint events_search (country : str) (events : list ReleaseEvent) : option str :=
  match events with
  | [] => None
  | event :: rest =>
      match event_for_country country event with
      | Some date => Some date
      | None => events_search country rest
      end
  end.

Fixpoint countries_search (release : Release) (countries : list str)
    : option str * option str :=
  match countries with
  | [] => (rel_country release, rel_date release)
  | country :: rest =>
      match events_search country (default [] (rel_release_event_list release)) with
      | Some date => (Some country, Some date)
      | None => countries_search release rest
      end
  end.

Definition _preferred_release_event (release : Release) : option str * option str :=
  countries_search release (match_preferred_countries config).

(** *** [_flatten_artist_credit] *)

Fixpoint flatten_loop (credit : list CreditEl)
    (artist_parts artist_sort_parts artist_credit_parts : list str)
    : list str * list str * list str :=
  match credit with
  | [] => (artist_parts, artist_sort_parts, artist_credit_parts)
  | JoinPhrase el :: rest =>
      flatten_loop rest (artist_parts ++ [el]) (artist_sort_parts ++ [el])
                   (artist_credit_parts ++ [el])
  | Credit artist name :: rest =>
      let alias := _preferred_alias (default [] (artist_alias_list artist)) in
      let cur_artist_name :=
        match alias with
        | Some al => alias_alias al
        | None => artist_name artist
        end in
      let sort_part :=
        match alias with
        | Some al => alias_sort_name al
        | None => default cur_artist_name (artist_sort_name artist)
        end in
      let credit_part := default cur_artist_name name in
      flatten_loop rest (artist_parts ++ [cur_artist_name])
                   (artist_sort_parts ++ [sort_part])
                   (artist_credit_parts ++ [credit_part])
  end.

Definition _flatten_artist_credit (credit : list CreditEl) : str * str * str :=
  let '(artist_parts, artist_sort_parts, artist_credit_parts) :=
    flatten_loop credit [] [] [] in
  (join "" artist_parts, join "" artist_sort_parts, join "" artist_credit_parts).

(** [credit[0]['artist']['id']]: the list may be empty, and a join phrase
    cannot be indexed by a key. *)
Definition first_artist_id (credit : list CreditEl) : result str :=
  match credit with
  | [] => Raise IndexError
  | JoinPhrase _ :: _ => Raise TypeError
  | Credit artist _ :: _ => Ok (artist_id artist)
  end.

(** *** [_get_related_artist_names] *)

Fixpoint related_artists_loop (relations : list ArtistRelation) (relation_type : str)
    (related_artists : list str) : result (list str) :=
  match relations with
  | [] => Ok related_artists
  | relation :: rest =>
      ty ← index_key "type" (ar_type relation);
      related_artists_loop rest relation_type
        (if str_eqb ty relation_type
         then related_artists ++ [artist_name (ar_artist relation)]
         else related_artists)
  end.

Definition _get_related_artist_names (relations : list ArtistRelation)
    (relation_type : str) : result str :=
  related_artists ← related_artists_loop relations relation_type [];
  mret (join ", " related_artists).

(** *** [track_info] *)

(** The loop over the artist relations of one work. *)
Fixpoint work_artists_loop (relations : list ArtistRelation)
    (lyricist composer composer_sort : list str)
    : result (list str * list str * list str) :=
  match relations with
  | [] => Ok (lyricist, composer, composer_sort)
  | artist_relation :: rest =>
      match ar_type artist_relation with
      | Some type =>
          if str_eqb type "lyricist" then
            work_artists_loop rest
              (lyricist ++ [artist_name (ar_artist artist_relation)])
              composer composer_sort
          else if str_eqb type "composer" then
            sort_name ← index_key "sort-name"
                          (artist_sort_name (ar_artist artist_relation));
            work_artists_loop rest lyricist
              (composer ++ [artist_name (ar_artist artist_relation)])
              (composer_sort ++ [sort_name])
          else work_artists_loop rest lyricist composer composer_sort
      | None => work_artists_loop rest lyricist composer composer_sort
      end
  end.

(** What the loop over the work relations assigns. *)
Record work_state := {
  ws_work : option str;
  ws_mb_workid : option str;
  ws_work_disambig : option str;
  ws_lyricist : list str;
  ws_composer : list str;
  ws_composer_sort : list str;
}.

Fixpoint work_relations_loop (relations : list WorkRelation) (st : work_state)
    : result work_state :=
  match relations with
  | [] => Ok st
  | work_relation :: rest =>
      if negb (str_eqb (wr_type work_relation) "performance") then
        work_relations_loop rest st
      else
        let w := wr_work work_relation in
        '(lyricist, composer, composer_sort) ←
          work_artists_loop (default [] (work_artist_relation_list w))
            (ws_lyricist st) (ws_composer st) (ws_composer_sort st);
        work_relations_loop rest
          {| ws_work := Some (work_title w);
             ws_mb_workid := Some (work_id w);
             ws_work_disambig :=
               match work_disambiguation w with
               | Some d => Some d
               | None => ws_work_disambig st
               end;
             ws_lyricist := lyricist;
             ws_composer := composer;
             ws_composer_sort := composer_sort |}
  end.

Fixpoint arranger_loop (relations : list ArtistRelation) (arranger : list str) : list str :=
  match relations with
  | [] => arranger
  | artist_relation :: rest =>
      arranger_loop rest
        (match ar_type artist_relation with
         | Some type =>
             if str_eqb type "arranger"
             then arranger ++ [artist_name (ar_artist artist_relation)]
             else arranger
         | None => arranger
         end)
  end.

(** [if xs: field = sep.join(xs)] *)
Definition joined_if_any (sep : str) (xs : list str) : option str :=
  match xs with
  | [] => None
  | _ => Some (join sep xs)
  end.

(** [info.update(extra)] for every piece of extra data, in order. *)
Definition apply_updates {A} (info : A) (extras : list (A -> A)) : A :=
  foldl (fun i u => u i) info extras.

(** [info.decode()] turns byte strings into text; every string here is
    text already. *)
Definition decode {A} (info : A) : A := info.

Definition track_info (recording : Recording)
    (index medium medium_index medium_total : option Z) : result TrackInfo.t :=
  title ← index_key "title" (rec_title recording);
  '(artist, artist_sort, artist_credit, artist_id) ←
    match rec_artist_credit recording with
    | Some (el :: credit) =>
        let '(a, s, c) := _flatten_artist_credit (el :: credit) in
        id ← first_artist_id (el :: credit);
        mret (Some a, Some s, Some c, Some id)
    | _ => mret (None, None, None, None)
    end;
  remixer ←
    match rec_artist_relation_list recording with
    | Some (r :: relations) =>
        names ← _get_related_artist_names (r :: relations) "remixer";
        mret (Some names)
    | _ => mret None
    end;
  length ←
    match rec_length recording with
    | Some l =>
        if nonempty l then ms ← int l; mret (Some (div_1000 ms)) else mret None
    | None => mret None
    end;
  let trackdisambig := rec_disambiguation recording in
  let isrc :=
    match rec_isrc_list recording with
    | Some (c :: codes) => Some (join ";" (c :: codes))
    | _ => None
    end in
  st ← work_relations_loop (default [] (rec_work_relation_list recording))
         {| ws_work := None; ws_mb_workid := None; ws_work_disambig := None;
            ws_lyricist := []; ws_composer := []; ws_composer_sort := [] |};
  let arranger := arranger_loop (default [] (rec_artist_relation_list recording)) [] in
  let info :=
    {| TrackInfo.title := Some title;
       TrackInfo.track_id := Some (rec_id recording);
       TrackInfo.index := index;
       TrackInfo.medium := medium;
       TrackInfo.medium_index := medium_index;
       TrackInfo.medium_total := medium_total;
       TrackInfo.data_source := Some "MusicBrainz";
       TrackInfo.data_url := Some (track_url (rec_id recording));
       TrackInfo.artist := artist;
       TrackInfo.artist_sort := artist_sort;
       TrackInfo.artist_credit := artist_credit;
       TrackInfo.artist_id := artist_id;
       TrackInfo.remixer := remixer;
       TrackInfo.length := length;
       TrackInfo.trackdisambig := trackdisambig;
       TrackInfo.isrc := isrc;
       TrackInfo.work := ws_work st;
       TrackInfo.mb_workid := ws_mb_workid st;
       TrackInfo.work_disambig := ws_work_disambig st;
       TrackInfo.lyricist := joined_if_any ", " (ws_lyricist st);
       TrackInfo.composer := joined_if_any ", " (ws_composer st);
       TrackInfo.composer_sort :=
         match ws_composer st with
         | [] => None
         | _ => Some (join ", " (ws_composer_sort st))
         end;
       TrackInfo.arranger := joined_if_any ", " arranger;
       TrackInfo.release_track_id := None;
       TrackInfo.disctitle := None;
       TrackInfo.media := None;
       TrackInfo.track_alt := None |} in
  let info := apply_updates info (mb_track_extract plugins recording) in
  mret (decode info).

(** *** [_set_date_str] *)

(** [setattr(info, key, date_num)] for the six date attributes. *)
Definition setattr_date (info : AlbumInfo.t) (key : str) (date_num : Z) : AlbumInfo.t :=
  let y := AlbumInfo.year info in
  let m := AlbumInfo.month info in
  let d := AlbumInfo.day info in
  let oy := AlbumInfo.original_year info in
  let om := AlbumInfo.original_month info in
  let od := AlbumInfo.original_day info in
  let v := Some date_num in
  if str_eqb key "year" then AlbumInfo.with_dates info v m d oy om od
  else if str_eqb key "month" then AlbumInfo.with_dates info y v d oy om od
  else if str_eqb key "day" then AlbumInfo.with_dates info y m v oy om od
  else if str_eqb key "original_year" then AlbumInfo.with_dates info y m d v om od
  else if str_eqb key "original_month" then AlbumInfo.with_dates info y m d oy v od
  else if str_eqb key "original_day" then AlbumInfo.with_dates info y m d oy om v
  else info.

(** The loop over the keys: [date_parts] loses its head whenever it is
    not empty, and the attribute is set only when the head is an integer. *)
Fixpoint date_keys_loop (info : AlbumInfo.t) (keys : list str) (date_parts : list str)
    (original : bool) : AlbumInfo.t :=
  match keys with
  | [] => info
  | key :: keys' =>
      match date_parts with
      | date_part :: date_parts' =>
          match int date_part with
          | Ok date_num =>
              let key := if original then "original_" +:+ key else key in
              date_keys_loop (setattr_date info key date_num) keys' date_parts' original
          | Raise _ => date_keys_loop info keys' date_parts' original
          end
      | [] => date_keys_loop info keys' [] original
      end
  end.

Definition _set_date_str (info : AlbumInfo.t) (date_str : option str) (original : bool)
    : AlbumInfo.t :=
  match date_str with
  | Some s =>
      if nonempty s
      then date_keys_loop info ["year"; "month"; "day"] (split "-" s) original
      else info
  | None => info
  end.

(** *** [album_info] *)

(** Assignments to a key of a response dictionary. *)
Definition with_recording (track : Track) (recording : Recording) : Track :=
  {| trk_id := trk_id track; trk_position := trk_position track;
     trk_number := trk_number track; trk_recording := recording;
     trk_title := trk_title track; trk_artist_credit := trk_artist_credit track;
     trk_length := trk_length track |}.

Definition with_track_list (medium : Medium) (track_list : list Track) : Medium :=
  {| med_title := med_title medium; med_format := med_format medium;
     med_position := med_position medium; med_track_list := track_list;
     med_data_track_list := med_data_track_list medium;
     med_pregap := med_pregap medium |}.

Definition with_medium_list (release : Release) (medium_list : list Medium) : Release :=
  {| rel_id := rel_id release; rel_title := rel_title release;
     rel_artist_credit := rel_artist_credit release;
     rel_medium_list := medium_list;
     rel_release_group := rel_release_group release;
     rel_asin := rel_asin release; rel_status := rel_status release;
     rel_disambiguation := rel_disambiguation release;
     rel_country := rel_country release; rel_date := rel_date release;
     rel_release_event_list := rel_release_event_list release;
     rel_label_info_list := rel_label_info_list release;
     rel_text_representation := rel_text_representation release;
     rel_genre_list := rel_genre_list release |}.

(** [sum(len(m['track-list']) for m in release['medium-list'])] *)
Definition ntracks_of (release : Release) : nat :=
  foldr (fun m acc => (List.length (med_track_list m) + acc)%nat) 0%nat
        (rel_medium_list release).

(** [range(start, stop, step)] for a positive step; at most [stop] values
    are produced, which is the fuel. *)
Fixpoint range_from (fuel i stop step : nat) : list nat :=
  match fuel with
  | O => []
  | S fuel' =>
      if Nat.ltb i stop then i :: range_from fuel' (i + step)%nat stop step else []
  end.

Definition range (start stop step : nat) : list nat := range_from stop start stop step.

(** The browse loop: one call per offset, the pages appended in order. *)
Fixpoint browse_loop (release_id : str) (offsets : list nat)
    (recording_list : list Recording) : result (list Recording) :=
  match offsets with
  | [] => Ok recording_list
  | i :: rest =>
      page ← browse_recordings mbz release_id BROWSE_CHUNKSIZE BROWSE_INCLUDES i;
      browse_loop release_id rest (recording_list ++ page)
  end.

(** [{r['id']: r for r in recording_list}]: a later recording replaces an
    earlier one of the same identifier. *)
Definition track_map_of (recording_list : list Recording) : gmap str Recording :=
  foldl (fun m r => <[rec_id r := r]> m) ∅ recording_list.

Fixpoint substitute_tracks (track_map : gmap str Recording) (tracks : list Track)
    : result (list Track) :=
  match tracks with
  | [] => Ok []
  | recording :: rest =>
      recording_info ← index_key (rec_id (trk_recording recording))
                         (track_map !! rec_id (trk_recording recording));
      rest' ← substitute_tracks track_map rest;
      mret (with_recording recording recording_info :: rest')
  end.

Fixpoint substitute_media (track_map : gmap str Recording) (media : list Medium)
    : result (list Medium) :=
  match media with
  | [] => Ok []
  | medium :: rest =>
      tracks ← substitute_tracks track_map (med_track_list medium);
      rest' ← substitute_media track_map rest;
      mret (with_track_list medium tracks :: rest')
  end.

(** The body of [if ntracks > BROWSE_MAXTRACKS]: the release with the
    recording of every track of every track list replaced. *)
Definition recover_relations (release : Release) (ntracks : nat) : result Release :=
  recording_list ← browse_loop (rel_id release) (range 0 ntracks BROWSE_CHUNKSIZE) [];
  let track_map := track_map_of recording_list in
  media ← substitute_media track_map (rel_medium_list release);
  mret (with_medium_list release media).

(** One track that is not skipped: the call of [track_info] and the
    attributes taken from the track itself. *)
Definition map_track (medium : Medium) (disctitle format : option str)
    (track_count index : Z) (track : Track) : result TrackInfo.t :=
  medium_position ← int (med_position medium);
  track_position ← int (trk_position track);
  ti ← track_info (trk_recording track) (Some index) (Some medium_position)
         (Some track_position) (Some track_count);
  let title :=
    match trk_title track with
    | Some t => if nonempty t then Some t else TrackInfo.title ti
    | None => TrackInfo.title ti
    end in
  '(artist, artist_sort, artist_credit, artist_id) ←
    match trk_artist_credit track with
    | Some (el :: credit) =>
        let '(a, s, c) := _flatten_artist_credit (el :: credit) in
        id ← first_artist_id (el :: credit);
        mret (Some a, Some s, Some c, Some id)
    | _ => mret (TrackInfo.artist ti, TrackInfo.artist_sort ti,
                 TrackInfo.artist_credit ti, TrackInfo.artist_id ti)
    end;
  length ←
    match trk_length track with
    | Some l =>
        if nonempty l then ms ← int l; mret (Some (div_1000 ms))
        else mret (TrackInfo.length ti)
    | None => mret (TrackInfo.length ti)
    end;
  mret
    {| TrackInfo.title := title;
       TrackInfo.track_id := TrackInfo.track_id ti;
       TrackInfo.index := TrackInfo.index ti;
       TrackInfo.medium := TrackInfo.medium ti;
       TrackInfo.medium_index := TrackInfo.medium_index ti;
       TrackInfo.medium_total := TrackInfo.medium_total ti;
       TrackInfo.data_source := TrackInfo.data_source ti;
       TrackInfo.data_url := TrackInfo.data_url ti;
       TrackInfo.artist := artist;
       TrackInfo.artist_sort := artist_sort;
       TrackInfo.artist_credit := artist_credit;
       TrackInfo.artist_id := artist_id;
       TrackInfo.remixer := TrackInfo.remixer ti;
       TrackInfo.length := length;
       TrackInfo.trackdisambig := TrackInfo.trackdisambig ti;
       TrackInfo.isrc := TrackInfo.isrc ti;
       TrackInfo.work := TrackInfo.work ti;
       TrackInfo.mb_workid := TrackInfo.mb_workid ti;
       TrackInfo.work_disambig := TrackInfo.work_disambig ti;
       TrackInfo.lyricist := TrackInfo.lyricist ti;
       TrackInfo.composer := TrackInfo.composer ti;
       TrackInfo.composer_sort := TrackInfo.composer_sort ti;
       TrackInfo.arranger := TrackInfo.arranger ti;
       TrackInfo.release_track_id := Some (trk_id track);
       TrackInfo.disctitle := disctitle;
       TrackInfo.media := format;
       TrackInfo.track_alt := Some (trk_number track) |}.

Definition skipped_title (track : Track) : bool :=
  match rec_title (trk_recording track) with
  | Some t => str_in t SKIPPED_TRACKS
  | None => false
  end.

Definition skipped_video (track : Track) : bool :=
  match rec_video (trk_recording track) with
  | Some v => str_eqb v "true" && match_ignore_video_tracks config
  | None => false
  end.

(** The loop over the tracks of one medium. *)
Fixpoint tracks_loop (medium : Medium) (disctitle format : option str)
    (track_count : Z) (all_tracks : list Track)
    (track_infos : list TrackInfo.t) (index : Z)
    : result (list TrackInfo.t * Z) :=
  match all_tracks with
  | [] => Ok (track_infos, index)
  | track :: rest =>
      if skipped_title track then
        tracks_loop medium disctitle format track_count rest track_infos index
      else if skipped_video track then
        tracks_loop medium disctitle format track_count rest track_infos index
      else
        let index := index + 1 in
        ti ← map_track medium disctitle format track_count index track;
        tracks_loop medium disctitle format track_count rest (track_infos ++ [ti]) index
  end.

(** The list a medium's tracks are read from, and the count taken of it.
    [all_tracks] is the medium's own track list object: [+=] and [insert]
    change it in place. *)
Definition all_tracks_before_pregap (medium : Medium) : list Track :=
  match med_data_track_list medium with
  | Some data_tracks =>
      if negb (match_ignore_data_tracks config)
      then med_track_list medium ++ data_tracks
      else med_track_list medium
  | None => med_track_list medium
  end.

Definition all_tracks_of (medium : Medium) : list Track :=
  match med_pregap medium with
  | Some pregap => pregap :: all_tracks_before_pregap medium
  | None => all_tracks_before_pregap medium
  end.

Definition track_count_of (medium : Medium) : Z :=
  Z.of_nat (List.length (all_tracks_before_pregap medium)).

Definition ignored_medium (medium : Medium) : bool :=
  match med_format medium with
  | Some format => str_in format (match_ignored_media config)
  | None => false
  end.

(** The loop over the media: the track infos, the running index, and the
    media as the loop leaves them. *)
Fixpoint media_loop (media : list Medium) (track_infos : list TrackInfo.t) (index : Z)
    : result (list TrackInfo.t * Z * list Medium) :=
  match media with
  | [] => Ok (track_infos, index, [])
  | medium :: rest =>
      if ignored_medium medium then
        '(track_infos, index, rest') ← media_loop rest track_infos index;
        mret (track_infos, index, medium :: rest')
      else
        let disctitle := med_title medium in
        let format := med_format medium in
        let track_count := track_count_of medium in
        let all_tracks := all_tracks_of medium in
        '(track_infos, index) ←
          tracks_loop medium disctitle format track_count all_tracks track_infos index;
        '(track_infos, index, rest') ← media_loop rest track_infos index;
        mret (track_infos, index, with_track_list medium all_tracks :: rest')
  end.

(** The genre counter.  A [Counter] is a dictionary, which keeps its keys
    in the order of their first insertion: an association list.
    [genres[name] += n] reads 0 for a missing key and appends it. *)
Fixpoint counter_add (genres : list (str * Z)) (name : str) (n : Z) : list (str * Z) :=
  match genres with
  | [] => [(name, n)]
  | (k, v) :: rest =>
      if str_eqb k name then (k, v + n) :: rest
      else (k, v) :: counter_add rest name n
  end.

Fixpoint genre_source_loop (source : list GenreItem) (genres : list (str * Z))
    : result (list (str * Z)) :=
  match source with
  | [] => Ok genres
  | genreitem :: rest =>
      n ← int (genre_count genreitem);
      genre_source_loop rest (counter_add genres (genre_name genreitem) n)
  end.

Fixpoint genre_sources_loop (sources : list (list GenreItem)) (genres : list (str * Z))
    : result (list (str * Z)) :=
  match sources with
  | [] => Ok genres
  | source :: rest =>
      genres ← genre_source_loop source genres;
      genre_sources_loop rest genres
  end.

(** [sorted(items, key=key)]: the sort is stable, so its result is the one
    ordering by key that keeps equal keys in their order; inserting each
    item, from the last to the first, before the first item whose key is
    not smaller computes it. *)
Fixpoint sorted_insert {A} (key : A -> Z) (x : A) (l : list A) : list A :=
  match l with
  | [] => [x]
  | y :: l' => if key x <=? key y then x :: y :: l' else y :: sorted_insert key x l'
  end.

Definition sorted {A} (key : A -> Z) (l : list A) : list A :=
  foldr (sorted_insert key) [] l.

(** The genre string, lines 500 to 512. *)
Definition genre_of (release : Release) : result str :=
  let sources :=
    [default [] (rg_genre_list (rel_release_group release));
     default [] (rel_genre_list release)] in
  genres ← genre_sources_loop sources [];
  mret (join "; " (map fst (sorted (fun g => - snd g) genres))).

(** The mapper from line 369 on, given the three artist names computed at
    its top and the release as the overflow step leaves it.  The source
    assigns the attributes one after the other; each assignment is to an
    attribute of its own, so the values are computed in the order of the
    source, which is the order in which an exception can be raised, and
    put in the record together.  The date attributes are set by
    [_set_date_str] on the record, as in the source, and the plugins see
    the release with the track lists as the loop over the media has left
    them. *)
Definition album_info_body (names : str * str * str) (release : Release)
    : result AlbumInfo.t :=
  let '(artist_name, artist_sort_name, artist_credit_name) := names in
  '(track_infos, _, media) ← media_loop (rel_medium_list release) [] 0;
  let release := with_medium_list release media in
  artist_id ← first_artist_id (rel_artist_credit release);
  let va := str_eqb artist_id VARIOUS_ARTISTS_ID in
  let artist := if va then va_name config else artist_name in
  let release_group := rel_release_group release in
  let releasegroupdisambig :=
    match rg_disambiguation release_group with
    | Some d => if nonempty d then Some d else None
    | None => None
    end in
  let albumdisambig :=
    match rel_disambiguation release with
    | Some d => if nonempty d then Some d else None
    | None => None
    end in
  let albumtype :=
    match rg_type release_group with
    | Some reltype => if nonempty reltype then Some (lower reltype) else None
    | None => None
    end in
  let albumtypes :=
    match rg_primary_type release_group with
    | Some rel_primarytype =>
        if nonempty rel_primarytype then [lower rel_primarytype] else []
    | None => []
    end
    ++ map lower (default [] (rg_secondary_type_list release_group)) in
  let '(country, release_date) := _preferred_release_event release in
  let release_group_date := rg_first_release_date release_group in
  let release_date :=
    match release_date with
    | Some d => if nonempty d then Some d else release_group_date
    | None => release_group_date
    end in
  let '(label, catalognum) :=
    match rel_label_info_list release with
    | Some (label_info :: _) =>
        (match li_label label_info with
         | Some l =>
             if negb (str_eqb (label_name l) "[no label]")
             then Some (label_name l) else None
         | None => None
         end,
         li_catalog_number label_info)
    | _ => (None, None)
    end in
  let '(script, language) :=
    match rel_text_representation release with
    | Some rep => (rep_script rep, rep_language rep)
    | None => (None, None)
    end in
  let media :=
    match rel_medium_list release with
    | first_medium :: _ => med_format first_medium
    | [] => None
    end in
  genre ←
    (if musicbrainz_genres config
     then g ← genre_of release; mret (Some g)
     else mret None);
  let info :=
    {| AlbumInfo.album := Some (rel_title release);
       AlbumInfo.album_id := Some (rel_id release);
       AlbumInfo.artist := Some artist;
       AlbumInfo.artist_id := Some artist_id;
       AlbumInfo.tracks := track_infos;
       AlbumInfo.mediums := Some (Z.of_nat (List.length (rel_medium_list release)));
       AlbumInfo.artist_sort := Some artist_sort_name;
       AlbumInfo.artist_credit := Some artist_credit_name;
       AlbumInfo.data_source := Some "MusicBrainz";
       AlbumInfo.data_url := Some (album_url (rel_id release));
       AlbumInfo.va := va;
       AlbumInfo.asin := rel_asin release;
       AlbumInfo.releasegroup_id := Some (rg_id release_group);
       AlbumInfo.albumstatus := rel_status release;
       AlbumInfo.releasegroupdisambig := releasegroupdisambig;
       AlbumInfo.albumdisambig := albumdisambig;
       AlbumInfo.albumtype := albumtype;
       AlbumInfo.albumtypes := Some albumtypes;
       AlbumInfo.country := country;
       AlbumInfo.year := None;
       AlbumInfo.month := None;
       AlbumInfo.day := None;
       AlbumInfo.original_year := None;
       AlbumInfo.original_month := None;
       AlbumInfo.original_day := None;
       AlbumInfo.label := label;
       AlbumInfo.catalognum := catalognum;
       AlbumInfo.script := script;
       AlbumInfo.language := language;
       AlbumInfo.media := media;
       AlbumInfo.genre := genre |} in
  let info := _set_date_str info release_date false in
  let info := _set_date_str info release_group_date true in
  let info := apply_updates info (mb_album_extract plugins release) in
  mret (decode info).

(** The non-chunked path: the mapper on a release it reads as it is. *)
Definition album_info_direct (release : Release) : result AlbumInfo.t :=
  album_info_body (_flatten_artist_credit (rel_artist_credit release)) release.

Definition album_info (release : Release) : result AlbumInfo.t :=
  let names := _flatten_artist_credit (rel_artist_credit release) in
  let ntracks := ntracks_of release in
  release ←
    (if Nat.ltb BROWSE_MAXTRACKS ntracks
     then recover_relations release ntracks
     else mret release);
  album_info_body names release.

(** *** [_parse_id] and the fetches by identifier *)

(** The character classes of the pattern; [Hex_any] is the class a
    case-insensitive reading of it would have. *)
Inductive char_class :=
| Hex_lower     (* [a-f0-9] *)
| Dash          (* - *)
| Hex_any.      (* [a-fA-F0-9] *)

Definition class_matches (c : char_class) (a : ascii) : bool :=
  match c with
  | Hex_lower => in_range 97 102 a || in_range 48 57 a
  | Dash => Ascii.eqb a "-"%char
  | Hex_any => in_range 97 102 a || in_range 65 70 a || in_range 48 57 a
  end.

(** A pattern that is a sequence of classes, matched at the start of [s]:
    the matched text. *)
Fixpoint match_here (re : list char_class) (s : str) : option str :=
  match re with
  | [] => Some EmptyString
  | c :: re' =>
      match s with
      | String a s' =>
          if class_matches c a then String a <$> match_here re' s' else None
      | EmptyString => None
      end
  end.

(** [re.search]: the match at the leftmost position that has one. *)
Fixpoint re_search (re : list char_class) (s : str) : option str :=
  match match_here re s with
  | Some m => Some m
  | None =>
      match s with
      | String _ s' => re_search re s'
      | EmptyString => None
      end
  end.

(** [hex{8}(-hex{4}){3}-hex{12}] *)
Definition uuid_shape (hex : char_class) : list char_class :=
  repeat hex 8 ++ concat (repeat (Dash :: repeat hex 4) 3) ++ Dash :: repeat hex 12.

Definition _parse_id (s : str) : option str := re_search (uuid_shape Hex_lower) s.

Definition album_for_id (releaseid : str) : result (option AlbumInfo.t) :=
  match _parse_id releaseid with
  | None => Ok None
  | Some albumid =>
      if negb (nonempty albumid) then Ok None
      else
        match get_release_by_id mbz albumid RELEASE_INCLUDES with
        | Raise (MBError exc) =>
            if isinstance_ResponseError exc then Ok None
            else Raise (MusicBrainzAPIError_init exc "get release by ID" albumid)
        | Raise e => Raise e
        | Ok release => info ← album_info release; mret (Some info)
        end
  end.

Definition track_for_id (releaseid : str) : result (option TrackInfo.t) :=
  match _parse_id releaseid with
  | None => Ok None
  | Some trackid =>
      if negb (nonempty trackid) then Ok None
      else
        match get_recording_by_id mbz trackid TRACK_INCLUDES with
        | Raise (MBError exc) =>
            if isinstance_ResponseError exc then Ok None
            else Raise (MusicBrainzAPIError_init exc "get recording by ID" trackid)
        | Raise e => Raise e
        | Ok recording =>
            info ← track_info recording None None None None; mret (Some info)
        end
  end.

End Mapper.

(** * The cover-art plugin, [beetsplug/embedart.py] *)

Module embedart.

(** [mediafile.imagekind] *)
Inductive imagekind :=
| JPEG
| PNG.

(** The tag block of an audio file as [mediafile.MediaFile] shows it: the
    embedded art and the other tags, which [_embed] does not touch. *)
Record MediaFile := {
  art : option (str * imagekind);
  tags : list (str * str);
}.

Record Item := {
  path : str;
}.

Inductive level :=
| ERROR
| DEBUG.

(** What [_embed] reads and changes: the image files, the audio files with
    their tag blocks as saved, and the log of the [beets] logger. *)
Record World := {
  images : gmap str str;
  audio : gmap str MediaFile;
  log : list (level * str);
}.

Definition log_add (lv : level) (msg : str) (w : World) : World :=
  {| images := images w; audio := audio w; log := log w ++ [(lv, msg)] |}.

(** [f.art = (data, kind); f.save()] on the file at [p] *)
Definition save_art (p : str) (f : MediaFile) (data : str) (kind : imagekind)
    (w : World) : World :=
  {| images := images w;
     audio := <[p := {| art := Some (data, kind); tags := tags f |}]> (audio w);
     log := log w |}.

Section Embed.

(** [imghdr.what(None, data)]: the name of the image type the bytes start
    as, if any. *)
Variable imghdr_what : str -> option str.

(** The loop over the items.  The world comes back with what was saved so
    far, and with the exception when opening a file raised one. *)
Fixpoint embed_loop (data : str) (kind : imagekind) (items : list Item) (w : World)
    : World * option exn :=
  match items with
  | [] => (w, None)
  | item :: rest =>
      match audio w !! path item with
      | Some f => embed_loop data kind rest (save_art (path item) f data kind w)
      | None => (w, Some (IOError (path item)))
      end
  end.

Definition _embed (path : str) (items : list Item) (w : World) : World * option exn :=
  match images w !! path with
  | None => (w, Some (IOError path))
  | Some data =>
      let kindstr := imghdr_what data in
      let embed_as kind :=
        embed_loop data kind items (log_add DEBUG "Embedding album art." w) in
      match kindstr with
      | Some k =>
          if str_eqb k "jpeg" then embed_as JPEG
          else if str_eqb k "png" then embed_as PNG
          else
            (log_add ERROR ("A file of type " +:+ k +:+ " is not allowed as coverart.") w,
             None)
      | None =>
          (log_add ERROR "A file of type None is not allowed as coverart." w, None)
      end
  end.

End Embed.

End embedart.

(** * The searches, [match_album] and [match_track] of [beets/autotag/mb.py] *)

(** [s.strip()]: the white space at both ends removed. *)
Fixpoint rstrip (s : str) : str :=
  match s with
  | EmptyString => EmptyString
  | String a s' =>
      match rstrip s' with
      | EmptyString => if is_space a then EmptyString else String a EmptyString
      | String b r => String a (String b r)
      end
  end.

Definition strip (s : str) : str := rstrip (lstrip s).

(** [s.replace(' ', '')] *)
Fixpoint remove_spaces (s : str) : str :=
  match s with
  | EmptyString => EmptyString
  | String a s' =>
      if Ascii.eqb a " "%char then remove_spaces s' else String a (remove_spaces s')
  end.

(** [str(n)] for an integer: its decimal digits, with a minus sign when it
    is negative. *)
Definition str_of_int (n : Z) : str := NilZero.string_of_int (Z.to_int n).

(** The value of an extra tag: a text, or a number such as the year. *)
Inductive tag_value :=
| TagStr (s : str)
| TagInt (n : Z).

Definition str_of_value (v : tag_value) : str :=
  match v with
  | TagStr s => s
  | TagInt n => str_of_int n
  end.

Definition FIELDS_TO_MB_KEYS : gmap str str :=
  list_to_map [("catalognum", "catno"); ("country", "country"); ("label", "label");
               ("media", "format"); ("year", "date")].

(** The search criteria are a dictionary, whose keys become the keyword
    arguments of the search in the order they were first set:
    [criteria[key] = value] replaces the value of a key that is there and
    appends a new key. *)
Fixpoint dict_set (criteria : list (str * str)) (key value : str) : list (str * str) :=
  match criteria with
  | [] => [(key, value)]
  | (k, v) :: rest =>
      if str_eqb k key then (k, value) :: rest else (k, v) :: dict_set rest key value
  end.

(** [any(criteria.values())] *)
Definition any_value (criteria : list (str * str)) : bool :=
  existsb nonempty (map snd criteria).

(** The searches of the client library: the identifiers of the releases
    found, and the recordings found. *)
Record musicbrainzngs_search := {
  search_releases : Z -> list (str * str) -> result (list str);
  search_recordings : Z -> list (str * str) -> result (list Recording);
}.

(** What comes out of a search: an exception of the mapper, or the error
    of a search, whose query is the dictionary of criteria. *)
Inductive search_exn :=
| Propagated (e : exn)
| SearchAPIError (reason : api_reason) (verb : str) (query : list (str * str)).

Definition SearchAPIError_init (reason : MusicBrainzError) (verb : str)
    (query : list (str * str)) : search_exn :=
  SearchAPIError
    (if isinstance_WebServiceError reason
     then ReasonStr "MusicBrainz not reachable"
     else ReasonExc reason)
    verb query.

Section Search.

Variable config : Config.
Variable mbz : musicbrainzngs.
Variable plugins : Plugins.
Variable search : musicbrainzngs_search.

(** [config['musicbrainz']['searchlimit'].get(int)] *)
Variable searchlimit : Z.

(** The loop over the extra tags, in the order of the dictionary. *)
Fixpoint extra_tags_loop (extra_tags : list (str * tag_value))
    (criteria : list (str * str)) : result (list (str * str)) :=
  match extra_tags with
  | [] => Ok criteria
  | (tag, value) :: rest =>
      key ← index_key tag (FIELDS_TO_MB_KEYS !! tag);
      let value := strip (lower (str_of_value value)) in
      let value := if str_eqb key "catno" then remove_spaces value else value in
      extra_tags_loop rest
        (if nonempty value then dict_set criteria key value else criteria)
  end.

(** The criteria [match_album] builds, lines 536 to 553. *)
Definition album_criteria (artist : option str) (album : str) (tracks : option Z)
    (extra_tags : list (str * tag_value)) : result (list (str * str)) :=
  let criteria := [("release", strip (lower album))] in
  let criteria :=
    match artist with
    | Some a => dict_set criteria "artist" (strip (lower a))
    | None => dict_set criteria "arid" VARIOUS_ARTISTS_ID
    end in
  let criteria :=
    match tracks with
    | Some n => dict_set criteria "tracks" (str_of_int n)
    | None => criteria
    end in
  extra_tags_loop extra_tags criteria.

(** A generator is what it yields until it returns or raises: the list of
    the values yielded and the exception, if one ended it. *)
Fixpoint match_album_loop (release_list : list str) (yielded : list AlbumInfo.t)
    : list AlbumInfo.t * option search_exn :=
  match release_list with
  | [] => (yielded, None)
  | release_id :: rest =>
      match album_for_id config mbz plugins release_id with
      | Ok (Some albuminfo) => match_album_loop rest (yielded ++ [albuminfo])
      | Ok None => match_album_loop rest yielded
      | Raise e => (yielded, Some (Propagated e))
      end
  end.

Definition match_album (artist : option str) (album : str) (tracks : option Z)
    (extra_tags : list (str * tag_value)) : list AlbumInfo.t * option search_exn :=
  match album_criteria artist album tracks extra_tags with
  | Raise e => ([], Some (Propagated e))
  | Ok criteria =>
      if negb (any_value criteria) then ([], None)
      else
        match search_releases search searchlimit criteria with
        | Raise (MBError exc) =>
            ([], Some (SearchAPIError_init exc "release search" criteria))
        | Raise e => ([], Some (Propagated e))
        | Ok release_list => match_album_loop release_list []
        end
  end.

Fixpoint match_track_loop (recording_list : list Recording) (yielded : list TrackInfo.t)
    : list TrackInfo.t * option search_exn :=
  match recording_list with
  | [] => (yielded, None)
  | recording :: rest =>
      match track_info config plugins recording None None None None with
      | Ok info => match_track_loop rest (yielded ++ [info])
      | Raise e => (yielded, Some (Propagated e))
      end
  end.

Definition match_track (artist title : str) : list TrackInfo.t * option search_exn :=
  let criteria :=
    [("artist", strip (lower artist)); ("recording", strip (lower title))] in
  if negb (any_value criteria) then ([], None)
  else
    match search_recordings search searchlimit criteria with
    | Raise (MBError exc) =>
        ([], Some (SearchAPIError_init exc "recording search" criteria))
    | Raise e => ([], Some (Propagated e))
    | Ok recording_list => match_track_loop recording_list []
    end.

End Search.

(** * The commands and the listener of [beetsplug/embedart.py] *)

Module embedart_commands.

(** An item of the library as the commands use it: the item [_embed] is
    given, and the artist and title the messages name. *)
Record LibItem := {
  item : embedart.Item;
  artist : str;
  title : str;
}.

Record Album := {
  albumartist : str;
  album : str;
  artpath : option str;
  items : list LibItem;
}.

(** The library, for queries of any kind: the albums and the items a
    query matches, in the order the library gives them. *)
Record Library (query : Type) := {
  lib_albums : query -> list Album;
  lib_items : query -> list LibItem;
}.
Arguments lib_albums {query} _ _.
Arguments lib_items {query} _ _.

(** What a command leaves behind: the world of [_embed], whose log holds
    the errors and the debug lines; the lines logged at the level INFO;
    and the lines printed.  The store of the image files takes a file
    under any path. *)
Record Outcome := {
  world : embedart.World;
  info_lines : list str;
  printed : list str;
  raised : option exn;
}.



Section Commands.

Variable imghdr_what : str -> option str.
Variable query : Type.

(** [options['autoembed']], as [configure] has set it. *)
Variable autoembed : bool.

Definition embed (lib : Library query) (imagepath : str) (q : query)
    (w : embedart.World) : Outcome :=
  match lib_albums lib q with
  | [] =>
      {| world := embedart.log_add embedart.ERROR "No album matches query." w;
         info_lines := []; printed := []; raised := None |}
  | album0 :: _ =>
      let '(w', e) :=
        embedart._embed imghdr_what imagepath (map item (items album0)) w in
      {| world := w';
         info_lines := ["Embedding album art into " +:+ albumartist album0 +:+ " - "
                        +:+ album album0 +:+ "."];
         printed := []; raised := e |}
  end.


(** The listener of the event [album_imported]. *)
Definition album_imported (album0 : Album) (w : embedart.World)
    : embedart.World * option exn :=
  match artpath album0 with
  | Some p =>
      if nonempty p && autoembed
      then embedart._embed imghdr_what p (map item (items album0)) w
      else (w, None)
  | None => (w, None)
  end.

End Commands.

End embedart_commands.

(** * Definitions for the properties: readings, relations and example data *)

(** ** Partial dates (C5) *)

Inductive date_slot :=
| Year
| Month
| Day.

Definition slot_position (k : date_slot) : nat :=
  match k with Year => 0 | Month => 1 | Day => 2 end%nat.

(** The attribute of a slot, in the release family or the original one. *)
Definition slot_value (original : bool) (k : date_slot) (info : AlbumInfo.t) : option Z :=
  match original, k with
  | false, Year => AlbumInfo.year info
  | false, Month => AlbumInfo.month info
  | false, Day => AlbumInfo.day info
  | true, Year => AlbumInfo.original_year info
  | true, Month => AlbumInfo.original_month info
  | true, Day => AlbumInfo.original_day info
  end.

(** The integer the part of a slot holds, when the part is there and is an
    integer literal. *)
Definition parsed_part (date_str : str) (k : date_slot) : option Z :=
  split "-" date_str !! slot_position k ≫= int_opt.

(** The reading in which nothing is set from the first part on that is
    missing or not an integer. *)
Fixpoint stop_at_first_failure (parts : list str) (slots : nat) : list (option Z) :=
  match slots with
  | O => []
  | S slots' =>
      match parts with
      | part :: parts' =>
          match int_opt part with
          | Some v => Some v :: stop_at_first_failure parts' slots'
          | None => repeat None slots
          end
      | [] => repeat None slots
      end
  end.

(** An [AlbumInfo] with nothing set. *)
Definition blank_album_info : AlbumInfo.t :=
  {| AlbumInfo.album := None; AlbumInfo.album_id := None; AlbumInfo.artist := None;
     AlbumInfo.artist_id := None; AlbumInfo.tracks := []; AlbumInfo.mediums := None;
     AlbumInfo.artist_sort := None; AlbumInfo.artist_credit := None;
     AlbumInfo.data_source := None; AlbumInfo.data_url := None;
     AlbumInfo.va := false; AlbumInfo.asin := None;
     AlbumInfo.releasegroup_id := None; AlbumInfo.albumstatus := None;
     AlbumInfo.releasegroupdisambig := None; AlbumInfo.albumdisambig := None;
     AlbumInfo.albumtype := None; AlbumInfo.albumtypes := None;
     AlbumInfo.country := None; AlbumInfo.year := None; AlbumInfo.month := None;
     AlbumInfo.day := None; AlbumInfo.original_year := None;
     AlbumInfo.original_month := None; AlbumInfo.original_day := None;
     AlbumInfo.label := None; AlbumInfo.catalognum := None;
     AlbumInfo.script := None; AlbumInfo.language := None;
     AlbumInfo.media := None; AlbumInfo.genre := None |}.

Definition date_slots (original : bool) (info : AlbumInfo.t) : list (option Z) :=
  map (fun k => slot_value original k info) [Year; Month; Day].

(** ** Example collaborators *)

(** No plugin listens to the extraction events. *)
Definition no_plugins : Plugins :=
  {| mb_track_extract := fun _ => []; mb_album_extract := fun _ => [] |}.

(** The values of the options as beets ships them. *)
Definition default_config : Config :=
  {| import_languages := [];
     import_ignored_alias_types := [];
     match_preferred_countries := [];
     match_ignored_media := [];
     match_ignore_data_tracks := true;
     match_ignore_video_tracks := true;
     musicbrainz_genres := false;
     va_name := "Various Artists" |}.

Definition plain_artist (id name : str) : Artist :=
  {| artist_id := id; artist_name := name; artist_sort_name := Some name;
     artist_alias_list := None |}.

Definition plain_recording (id title : str) : Recording :=
  {| rec_id := id; rec_title := Some title; rec_video := None;
     rec_artist_credit := None; rec_artist_relation_list := None;
     rec_length := None; rec_disambiguation := None; rec_isrc_list := None;
     rec_work_relation_list := None |}.

Definition with_artist_relations (recording : Recording)
    (relations : list ArtistRelation) : Recording :=
  {| rec_id := rec_id recording; rec_title := rec_title recording;
     rec_video := rec_video recording;
     rec_artist_credit := rec_artist_credit recording;
     rec_artist_relation_list := Some relations;
     rec_length := rec_length recording;
     rec_disambiguation := rec_disambiguation recording;
     rec_isrc_list := rec_isrc_list recording;
     rec_work_relation_list := rec_work_relation_list recording |}.

(** An update of a record keeps an attribute. *)
Definition preserves {A B} (attribute : A -> B) (update : A -> A) : Prop :=
  forall info, attribute (update info) = attribute info.

(** ** The remixer field (C4) *)

Definition relation_has_type (relation_type : str) (relation : ArtistRelation) : bool :=
  match ar_type relation with
  | Some ty => str_eqb ty relation_type
  | None => false
  end.

Definition related_names (relation_type : str) (relations : list ArtistRelation)
    : list str :=
  map (fun r => artist_name (ar_artist r))
      (List.filter (relation_has_type relation_type) relations).

(** A recording whose one artist relation is an arranger's. *)
Definition arranged_recording : Recording :=
  with_artist_relations
    (plain_recording "b1a9c0e9-d987-4042-ae91-78d6a3267d69" "Aria")
    [{| ar_type := Some "arranger";
        ar_artist := plain_artist "a0b1c2d3-0000-4000-8000-000000000001" "Ann Arranger" |}].

(** ** Alias preference (C6) *)

(** An alias counts for a locale: it carries this locale, is marked
    primary, and its type, lower-cased, is not among the lower-cased
    ignored types. *)
Definition qualifies (config : Config) (locale : str) (a : Alias) : bool :=
  match alias_locale a with
  | Some l => str_eqb l locale
  | None => false
  end
  && (match alias_primary a with Some _ => true | None => false end)
  && negb (str_in (lower (default "" (alias_type a)))
             (map lower (import_ignored_alias_types config))).

Definition has_locale (a : Alias) : bool :=
  match alias_locale a with Some _ => true | None => false end.

(** Two aliases, one French and one English, both primary. *)
Definition alias_fr : Alias :=
  {| alias_locale := Some "fr"; alias_primary := Some "primary";
     alias_type := Some "Artist name"; alias_alias := "Les Beatles";
     alias_sort_name := "Beatles, Les" |}.

Definition alias_en : Alias :=
  {| alias_locale := Some "en"; alias_primary := Some "primary";
     alias_type := Some "Artist name"; alias_alias := "The Beatles";
     alias_sort_name := "Beatles, The" |}.

Definition config_en_fr : Config :=
  {| import_languages := ["en"; "fr"];
     import_ignored_alias_types := [];
     match_preferred_countries := [];
     match_ignored_media := [];
     match_ignore_data_tracks := true;
     match_ignore_video_tracks := true;
     musicbrainz_genres := true;
     va_name := "Various Artists" |}.

(** ** Identifiers and the fetches by identifier (C2, C10) *)

(** [m] has the shape of the pattern, character by character. *)
Fixpoint shaped (re : list char_class) (m : str) : Prop :=
  match re, m with
  | [], EmptyString => True
  | c :: re', String a m' => class_matches c a = true /\ shaped re' m'
  | _, _ => False
  end.

(** [s] has a substring of the shape of the pattern. *)
Definition contains_shape (re : list char_class) (s : str) : Prop :=
  exists before m after, s = before +:+ m +:+ after /\ shaped re m.

Definition is_upper_hex (a : ascii) : bool := in_range 65 70 a.

Fixpoint has_upper_hex (m : str) : bool :=
  match m with
  | EmptyString => false
  | String a m' => is_upper_hex a || has_upper_hex m'
  end.

(** Every substring of [s] that has the shape of an identifier written in
    either case holds an upper-case hexadecimal digit; the test walks the
    positions of [s]. *)
Fixpoint every_shaped_has_upper (s : str) : bool :=
  match match_here (uuid_shape Hex_any) s with
  | Some m => has_upper_hex m
  | None => true
  end
  && match s with
     | String _ s' => every_shaped_has_upper s'
     | EmptyString => true
     end.

(** A service that has no such entity, and one that cannot be reached. *)
Definition service_answering (e : MusicBrainzError) : musicbrainzngs :=
  {| VALID_INCLUDES_recording := ["work-level-rels"; "genres"];
     VALID_BROWSE_INCLUDES_recording := ["work-level-rels"];
     get_release_by_id := fun _ _ => Raise (MBError e);
     get_recording_by_id := fun _ _ => Raise (MBError e);
     browse_recordings := fun _ _ _ _ => Raise (MBError e) |}.

Definition va_release_url : str :=
  "https://musicbrainz.org/release/89ad4ac3-39f7-470e-963a-56509c546377".

(** The upper-case digits added to the class of the lower-case ones. *)
Definition either_case (c : char_class) : char_class :=
  match c with
  | Hex_lower => Hex_any
  | _ => c
  end.

Definition upper_case_va_id : str := "89AD4AC3-39F7-470E-963A-56509C546377".

(** ** Various artists (C8) *)

(** Example releases. *)
Definition plain_track (id position number : str) (recording : Recording) : Track :=
  {| trk_id := id; trk_position := position; trk_number := number;
     trk_recording := recording; trk_title := None; trk_artist_credit := None;
     trk_length := None |}.

Definition plain_medium (position : str) (tracks : list Track) : Medium :=
  {| med_title := None; med_format := Some "CD"; med_position := position;
     med_track_list := tracks; med_data_track_list := None; med_pregap := None |}.

Definition with_pregap (medium : Medium) (pregap : Track) : Medium :=
  {| med_title := med_title medium; med_format := med_format medium;
     med_position := med_position medium; med_track_list := med_track_list medium;
     med_data_track_list := med_data_track_list medium; med_pregap := Some pregap |}.

Definition plain_release_group (genres : option (list GenreItem)) : ReleaseGroup :=
  {| rg_id := "0a1b2c3d-1111-4111-8111-111111111111"; rg_disambiguation := None;
     rg_type := Some "Album"; rg_primary_type := Some "Album";
     rg_secondary_type_list := None; rg_first_release_date := Some "1999-07";
     rg_genre_list := genres |}.

Definition plain_release (credit : list CreditEl) (media : list Medium)
    (group_genres genres : option (list GenreItem)) : Release :=
  {| rel_id := "0a1b2c3d-2222-4222-8222-222222222222"; rel_title := "Collected";
     rel_artist_credit := credit; rel_medium_list := media;
     rel_release_group := plain_release_group group_genres;
     rel_asin := None; rel_status := Some "Official"; rel_disambiguation := None;
     rel_country := Some "GB"; rel_date := Some "1999";
     rel_release_event_list := None; rel_label_info_list := None;
     rel_text_representation := None; rel_genre_list := genres |}.

Definition two_tracks : list Track :=
  [plain_track "0a1b2c3d-3333-4333-8333-000000000001" "1" "A1"
     (plain_recording "0a1b2c3d-4444-4444-8444-000000000001" "First");
   plain_track "0a1b2c3d-3333-4333-8333-000000000002" "2" "A2"
     (plain_recording "0a1b2c3d-4444-4444-8444-000000000002" "Second")].

(** A compilation credited to the reserved artist under another name. *)
Definition va_release : Release :=
  plain_release [Credit (plain_artist VARIOUS_ARTISTS_ID "Diverse Interpreten") None]
    [plain_medium "1" two_tracks] None None.

(** ** The medium total (C3) *)

(** The track infos of one medium carry its number and its count. *)
Definition of_medium (config : Config) (medium : Medium) (ti : TrackInfo.t) : Prop :=
  TrackInfo.medium_total ti = Some (track_count_of config medium)
  /\ int (med_position medium) = Ok (default 0 (TrackInfo.medium ti))
  /\ TrackInfo.medium ti <> None.

Definition track_plugins_keep_context (plugins : Plugins) : Prop :=
  forall recording,
    Forall (fun u => preserves TrackInfo.medium_total u /\ preserves TrackInfo.medium u)
      (mb_track_extract plugins recording).

(** The overflow step keeps the media as they are but for the recordings
    of the tracks, which come from the map. *)
Definition substituted_track (track_map : gmap str Recording) (t t' : Track) : Prop :=
  exists recording,
    track_map !! rec_id (trk_recording t) = Some recording
    /\ t' = with_recording t recording.

Definition substituted_medium (track_map : gmap str Recording) (m m' : Medium) : Prop :=
  exists tracks,
    Forall2 (substituted_track track_map) (med_track_list m) tracks
    /\ m' = with_track_list m tracks.

(** A medium with a pregap track before its two tracks. *)
Definition pregap_release : Release :=
  plain_release [Credit (plain_artist "0a1b2c3d-5555-4555-8555-555555555555" "Ann") None]
    [with_pregap (plain_medium "1" two_tracks)
       (plain_track "0a1b2c3d-3333-4333-8333-000000000000" "0" "0"
          (plain_recording "0a1b2c3d-4444-4444-8444-000000000000" "Hidden"))]
    None None.

(** ** Genres (C7) *)

(** The count one genre item adds, and the total of a name over a list of
    items. *)
Definition item_count (g : GenreItem) : Z := default 0 (int_opt (genre_count g)).

Fixpoint count_total (name : str) (items : list GenreItem) : Z :=
  match items with
  | [] => 0
  | g :: rest =>
      (if str_eqb (genre_name g) name then item_count g else 0) + count_total name rest
  end.

(** The position at which a name first occurs. *)
Fixpoint first_position (name : str) (names : list str) : nat :=
  match names with
  | [] => O
  | n :: rest => if str_eqb n name then O else S (first_position name rest)
  end.

(** The order of the rendered genres: a greater total first, and among
    equal totals the name met first in the two lists, the release group's
    before the release's. *)
Definition genre_before (items : list GenreItem) (a b : str * Z) : Prop :=
  snd b < snd a
  \/ (snd a = snd b
      /\ (first_position (fst a) (map genre_name items)
          < first_position (fst b) (map genre_name items))%nat).

Definition genre_items (release : Release) : list GenreItem :=
  default [] (rg_genre_list (rel_release_group release))
  ++ default [] (rel_genre_list release).

Definition add_item (genres : list (str * Z)) (g : GenreItem) : list (str * Z) :=
  counter_add genres (genre_name g) (item_count g).

Definition count_parses (g : GenreItem) : Prop := int (genre_count g) = Ok (item_count g).

(** *** The stable sort *)

(** The order a stable sort by [key] gives to a list that was in the
    order [R0]: the key, and [R0] among equal keys. *)
Definition by_key_then {A} (key : A -> Z) (R0 : A -> A -> Prop) (a b : A) : Prop :=
  key a < key b \/ (key a = key b /\ R0 a b).

(** The release of the example: the group says rock 5 and pop 2, the
    release pop 1 and jazz 1. *)
Definition genre_item (name count : str) : GenreItem :=
  {| genre_name := name; genre_count := count |}.

Definition rock_pop_jazz_release : Release :=
  plain_release [Credit (plain_artist "0a1b2c3d-5555-4555-8555-555555555555" "Ann") None]
    [plain_medium "1" two_tracks]
    (Some [genre_item "rock" "5"; genre_item "pop" "2"])
    (Some [genre_item "pop" "1"; genre_item "jazz" "1"]).

(** ** Releases of more than 500 tracks (C1) *)

(** The service pages through the recordings [db] of a release: a page is
    the [limit] recordings from [offset] on. *)
Definition pages_through (mbz : musicbrainzngs) (release_id : str) (db : list Recording)
    : Prop :=
  forall offset,
    browse_recordings mbz release_id BROWSE_CHUNKSIZE (BROWSE_INCLUDES mbz) offset
    = Ok (firstn BROWSE_CHUNKSIZE (skipn offset db)).





(** A release of 501 tracks as the service sends it, without the
    relations of its recordings; the recordings the service holds for it;
    and the reference release that has them in place. *)
Fixpoint pos_bits (p : positive) : str :=
  match p with
  | xH => "1"
  | xO q => String "0"%char (pos_bits q)
  | xI q => String "1"%char (pos_bits q)
  end.

Definition numbered (prefix : str) (n : nat) : str :=
  prefix +:+ pos_bits (Pos.of_succ_nat n).

Definition bare_recording (n : nat) : Recording :=
  plain_recording (numbered "recording-" n) "Part".

Definition full_recording (n : nat) : Recording :=
  {| rec_id := numbered "recording-" n; rec_title := Some "Part"; rec_video := None;
     rec_artist_credit := None;
     rec_artist_relation_list :=
       Some [{| ar_type := Some "remixer";
                ar_artist := plain_artist "0a1b2c3d-6666-4666-8666-000000000001" "Rem Ixer" |};
             {| ar_type := Some "arranger";
                ar_artist := plain_artist "0a1b2c3d-6666-4666-8666-000000000002" "Ann Arranger" |}];
     rec_length := None; rec_disambiguation := None; rec_isrc_list := None;
     rec_work_relation_list :=
       Some [{| wr_type := "performance";
                wr_work :=
                  {| work_title := "Suite"; work_id := numbered "work-" n;
                     work_disambiguation := None;
                     work_artist_relation_list :=
                       Some [{| ar_type := Some "composer";
                                ar_artist :=
                                  plain_artist "0a1b2c3d-6666-4666-8666-000000000003"
                                    "Cora Composer" |};
                             {| ar_type := Some "lyricist";
                                ar_artist :=
                                  plain_artist "0a1b2c3d-6666-4666-8666-000000000004"
                                    "Lyle Lyricist" |}] |} |}] |}.

Definition numbered_track (recording : nat -> Recording) (n : nat) : Track :=
  plain_track (numbered "track-" n) "1" "1" (recording n).

Definition release_of_501 (recording : nat -> Recording) : Release :=
  plain_release [Credit (plain_artist "0a1b2c3d-5555-4555-8555-555555555555" "Ann") None]
    [plain_medium "1" (map (numbered_track recording) (seq 0 501))] None None.

Definition recordings_of_501 : list Recording := map full_recording (seq 0 501).

(** A service that pages through a list of recordings. *)
Definition paging_service (db : list Recording) : musicbrainzngs :=
  {| VALID_INCLUDES_recording := ["work-level-rels"; "genres"];
     VALID_BROWSE_INCLUDES_recording := ["work-level-rels"];
     get_release_by_id := fun _ _ => Raise (MBError ResponseError);
     get_recording_by_id := fun _ _ => Raise (MBError ResponseError);
     browse_recordings := fun _ limit _ offset => Ok (firstn limit (skipn offset db)) |}.

(** On this release the relations come back: every track has its
    composer, lyricist, remixer and arranger, which the release as sent
    does not give. *)
Definition has_relations (ti : TrackInfo.t) : bool :=
  match TrackInfo.composer ti, TrackInfo.lyricist ti,
        TrackInfo.remixer ti, TrackInfo.arranger ti with
  | Some c, Some l, Some r, Some a =>
      str_eqb c "Cora Composer" && str_eqb l "Lyle Lyricist"
      && str_eqb r "Rem Ixer" && str_eqb a "Ann Arranger"
  | _, _, _, _ => false
  end.

(** ** Embedding cover art (C9) *)

(** A stand-in for the sniffer that looks at the first byte only, and a
    world of two images and three audio files. *)
Definition sniff_first_byte (data : str) : option str :=
  match data with
  | String c _ =>
      if Nat.eqb (ord c) 137 then Some "png"
      else if Nat.eqb (ord c) 255 then Some "jpeg"
      else if Nat.eqb (ord c) 71 then Some "gif"
      else None
  | EmptyString => None
  end.

Definition png_bytes : str := String (ascii_of_nat 137) "PNG....".
Definition gif_bytes : str := "GIF89a....".

Definition tagged (title : str) (art : option (str * embedart.imagekind))
    : embedart.MediaFile :=
  {| embedart.art := art; embedart.tags := [("title", title)] |}.

Definition music_world : embedart.World :=
  {| embedart.images := {[ "cover.png" := png_bytes; "anim.gif" := gif_bytes ]};
     embedart.audio :=
       {[ "01.mp3" := tagged "One" (Some ("old art", embedart.JPEG));
          "02.mp3" := tagged "Two" None;
          "other.mp3" := tagged "Other" None ]};
     embedart.log := [] |}.

Definition album_items : list embedart.Item :=
  [{| embedart.path := "01.mp3" |}; {| embedart.path := "02.mp3" |}].

(** * Definitions for the further properties *)

(** ** Artist credits *)

(** What one element of a credit gives when no alias is preferred. *)
Definition canonical_part (el : CreditEl) : str :=
  match el with
  | JoinPhrase p => p
  | Credit artist _ => artist_name artist
  end.

Definition sort_part_of (el : CreditEl) : str :=
  match el with
  | JoinPhrase p => p
  | Credit artist _ => default (artist_name artist) (artist_sort_name artist)
  end.

Definition credited_part (el : CreditEl) : str :=
  match el with
  | JoinPhrase p => p
  | Credit artist name => default (artist_name artist) name
  end.

Definition credit_a_and_b : list CreditEl :=
  [Credit {| artist_id := "0a1b2c3d-7777-4777-8777-000000000001"; artist_name := "A";
             artist_sort_name := Some "A, The";
             artist_alias_list := Some [alias_en] |} None;
   JoinPhrase " & ";
   Credit {| artist_id := "0a1b2c3d-7777-4777-8777-000000000002"; artist_name := "B";
             artist_sort_name := None; artist_alias_list := None |} (Some "Bee")].

(** ** Release events *)

(** The event lists the country and has a date. *)
Definition event_matches (country : str) (event : ReleaseEvent) (date : str) : Prop :=
  exists area codes,
    ev_area event = Some area
    /\ area_iso_3166_1_code_list area = Some codes
    /\ In country codes
    /\ ev_date event = Some date.

(** ** The relations of a recording *)

(** The works a recording is a performance of, in the order of its work
    relations. *)
Definition performance_works (recording : Recording) : list Work :=
  map wr_work
      (List.filter (fun wr => str_eqb (wr_type wr) "performance")
                   (default [] (rec_work_relation_list recording))).

Definition work_related (relation_type : str) (w : Work) : list str :=
  related_names relation_type (default [] (work_artist_relation_list w)).

Definition work_composer_sort_names (w : Work) : list str :=
  map (fun r => default "" (artist_sort_name (ar_artist r)))
      (List.filter (relation_has_type "composer") (default [] (work_artist_relation_list w))).

Definition last_or {A} (l : list A) (d : option A) : option A :=
  match last l with
  | Some x => Some x
  | None => d
  end.

Definition untyped_relation : ArtistRelation :=
  {| ar_type := None;
     ar_artist := plain_artist "a0b1c2d3-0000-4000-8000-000000000002" "Nemo" |}.

Definition two_work_recording : Recording :=
  {| rec_id := "b1a9c0e9-d987-4042-ae91-78d6a3267d70"; rec_title := Some "Medley";
     rec_video := None; rec_artist_credit := None; rec_artist_relation_list := None;
     rec_length := None; rec_disambiguation := None; rec_isrc_list := None;
     rec_work_relation_list :=
       Some [{| wr_type := "performance";
                wr_work := {| work_title := "First"; work_id := "w-1";
                              work_disambiguation := Some "the early one";
                              work_artist_relation_list := None |} |};
             {| wr_type := "performance";
                wr_work := {| work_title := "Second"; work_id := "w-2";
                              work_disambiguation := None;
                              work_artist_relation_list := None |} |};
             {| wr_type := "medley";
                wr_work := {| work_title := "Third"; work_id := "w-3";
                              work_disambiguation := Some "not a performance";
                              work_artist_relation_list := None |} |}] |}.

(** ** The tracks of an album *)

(** The tracks of a list that are not skipped, and the tracks the mapper
    reads from the media, each with its medium: the media that are not
    ignored, in order, and of each the pregap track, the tracks and the
    data tracks that are not skipped. *)
Definition kept (config : Config) (tracks : list Track) : list Track :=
  List.filter (fun t => negb (skipped_title t) && negb (skipped_video config t)) tracks.

Definition tracks_read (config : Config) (media : list Medium) : list (Medium * Track) :=
  flat_map (fun m => if ignored_medium config m then []
                     else map (pair m) (kept config (all_tracks_of config m)))
           media.

Definition indices_from (start : Z) (n : nat) : list Z :=
  map (fun k => start + Z.of_nat k) (seq 0 n).

(** The track info [ti] is what [map_track] gives for the track of the
    pair under the index [i]. *)
Definition mapped_as (config : Config) (plugins : Plugins) (mt : Medium * Track)
    (p : Z * TrackInfo.t) : Prop :=
  map_track config plugins (fst mt) (med_title (fst mt)) (med_format (fst mt))
    (track_count_of config (fst mt)) (fst p) (snd mt) = Ok (snd p).

Definition track_plugins_keep_numbers (plugins : Plugins) : Prop :=
  forall recording,
    Forall (fun u => preserves TrackInfo.index u /\ preserves TrackInfo.medium u
                     /\ preserves TrackInfo.medium_index u
                     /\ preserves TrackInfo.medium_total u)
      (mb_track_extract plugins recording).

(** A release with two media; the second track of the first is a data
    track placeholder, which the mapper skips. *)
Definition two_media_release : Release :=
  plain_release [Credit (plain_artist "0a1b2c3d-5555-4555-8555-555555555555" "Ann") None]
    [plain_medium "1"
       [plain_track "0a1b2c3d-3333-4333-8333-000000000011" "1" "A1"
          (plain_recording "0a1b2c3d-4444-4444-8444-000000000011" "Intro");
        plain_track "0a1b2c3d-3333-4333-8333-000000000012" "2" "A2"
          (plain_recording "0a1b2c3d-4444-4444-8444-000000000012" "[data track]")];
     plain_medium "2" two_tracks]
    None None.

Definition service_with_recording (recording : Recording) : musicbrainzngs :=
  {| VALID_INCLUDES_recording := ["work-level-rels"; "genres"];
     VALID_BROWSE_INCLUDES_recording := ["work-level-rels"];
     get_release_by_id := fun _ _ => Raise (MBError ResponseError);
     get_recording_by_id := fun _ _ => Ok recording;
     browse_recordings := fun _ _ _ _ => Ok [] |}.

(** What a track info owes to the track it was read from. *)
Definition from_track (mt : Medium * Track) (ti : TrackInfo.t) : Prop :=
  TrackInfo.release_track_id ti = Some (trk_id (snd mt))
  /\ TrackInfo.track_alt ti = Some (trk_number (snd mt))
  /\ TrackInfo.disctitle ti = med_title (fst mt)
  /\ TrackInfo.media ti = med_format (fst mt)
  /\ (forall title, trk_title (snd mt) = Some title -> nonempty title = true ->
                    TrackInfo.title ti = Some title).

(** ** The attributes of an album *)

(** The date the release date is parsed from: the date of the preferred
    release event, or of the release, and when there is none, or an empty
    one, the first release date of the release group. *)
Definition release_date_of (config : Config) (release : Release) : option str :=
  match snd (_preferred_release_event config release) with
  | Some d => if nonempty d then Some d
              else rg_first_release_date (rel_release_group release)
  | None => rg_first_release_date (rel_release_group release)
  end.

(** The integer of a slot in a date that may be missing. *)
Definition parsed (date : option str) (k : date_slot) : option Z :=
  match date with
  | Some s => parsed_part s k
  | None => None
  end.

Definition first_label_info (release : Release) : option LabelInfo :=
  match rel_label_info_list release with
  | Some (label_info :: _) => Some label_info
  | _ => None
  end.

(** The name of the label of the first label info. *)
Definition first_label_name (release : Release) : option str :=
  match first_label_info release with
  | Some label_info =>
      match li_label label_info with
      | Some l => Some (label_name l)
      | None => None
      end
  | None => None
  end.

Definition nonempty_or_none (o : option str) : option str :=
  match o with
  | Some s => if nonempty s then Some s else None
  | None => None
  end.

(** The types of the release group, the primary one first, as the
    response has them. *)
Definition group_types (release : Release) : list str :=
  match nonempty_or_none (rg_primary_type (rel_release_group release)) with
  | Some t => [t]
  | None => []
  end
  ++ default [] (rg_secondary_type_list (rel_release_group release)).

Definition album_plugins_keep {B} (attribute : AlbumInfo.t -> B) (plugins : Plugins) : Prop :=
  forall r, Forall (preserves attribute) (mb_album_extract plugins r).

(** A release dated by its year alone, in a group first released in July
    1999, with a placeholder label. *)
Definition labelled_release : Release :=
  {| rel_id := "0a1b2c3d-2222-4222-8222-222222222223"; rel_title := "Collected";
     rel_artist_credit :=
       [Credit (plain_artist "0a1b2c3d-5555-4555-8555-555555555555" "Ann") None];
     rel_medium_list := [plain_medium "1" two_tracks];
     rel_release_group :=
       {| rg_id := "0a1b2c3d-1111-4111-8111-111111111112"; rg_disambiguation := None;
          rg_type := Some "Live"; rg_primary_type := Some "Album";
          rg_secondary_type_list := Some ["Compilation"; "Live"];
          rg_first_release_date := Some "1999-07";
          rg_genre_list := None |};
     rel_asin := None; rel_status := Some "Official"; rel_disambiguation := None;
     rel_country := Some "GB"; rel_date := Some "2004";
     rel_release_event_list := None;
     rel_label_info_list :=
       Some [{| li_label := Some {| label_name := "[no label]" |};
                li_catalog_number := Some "CAT 1" |};
             {| li_label := Some {| label_name := "Second Label" |};
                li_catalog_number := Some "CAT 2" |}];
     rel_text_representation := None; rel_genre_list := None |}.

(** ** The identifier found in a string *)

Definition two_ids : str :=
  "see 89ad4ac3-39f7-470e-963a-56509c546377 and b1a9c0e9-d987-4042-ae91-78d6a3267d69".

(** ** Errors of the overflow step *)

Definition service_with_release (release : Release) (e : MusicBrainzError)
    : musicbrainzngs :=
  {| VALID_INCLUDES_recording := ["work-level-rels"; "genres"];
     VALID_BROWSE_INCLUDES_recording := ["work-level-rels"];
     get_release_by_id := fun _ _ => Ok release;
     get_recording_by_id := fun _ _ => Raise (MBError e);
     browse_recordings := fun _ _ _ _ => Raise (MBError e) |}.

(** ** The searches *)

(** The keys of the criteria that come from extra tags. *)
Definition extra_keys : list str := ["catno"; "country"; "label"; "format"; "date"].

(** The album a release identifier of the search result gives, if any. *)
Definition found (config : Config) (mbz : musicbrainzngs) (plugins : Plugins)
    (release_id : str) : option AlbumInfo.t :=
  match album_for_id config mbz plugins release_id with
  | Ok (Some albuminfo) => Some albuminfo
  | _ => None
  end.

(** The identifier is looked up without an exception. *)
Definition looked_up (config : Config) (mbz : musicbrainzngs) (plugins : Plugins)
    (release_id : str) : Prop :=
  exists r, album_for_id config mbz plugins release_id = Ok r.

(** An extra tag the mapper knows, whose value is blank. *)
Definition blank_tag (tv : str * tag_value) : Prop :=
  is_Some (FIELDS_TO_MB_KEYS !! fst tv) /\ strip (lower (str_of_value (snd tv))) = "".

(** A service that fails every search. *)
Definition failing_search : musicbrainzngs_search :=
  {| search_releases := fun _ _ => Raise (MBError NetworkError);
     search_recordings := fun _ _ => Raise (MBError NetworkError) |}.

(** A search that finds one release and a text that is no identifier. *)
Definition search_finding (release_list : list str) (recording_list : list Recording)
    : musicbrainzngs_search :=
  {| search_releases := fun _ _ => Ok release_list;
     search_recordings := fun _ _ => Ok recording_list |}.

(** ** The commands on cover art *)

(** An album of two files and the library that holds it. *)
Definition album_of_two : embedart_commands.Album :=
  {| embedart_commands.albumartist := "An Artist";
     embedart_commands.album := "An Album";
     embedart_commands.artpath := Some "cover.png";
     embedart_commands.items :=
       [{| embedart_commands.item := {| embedart.path := "01.mp3" |};
           embedart_commands.artist := "An Artist";
           embedart_commands.title := "First" |};
        {| embedart_commands.item := {| embedart.path := "02.mp3" |};
           embedart_commands.artist := "An Artist";
           embedart_commands.title := "Second" |}] |}.

Definition library_of_one : embedart_commands.Library unit :=
  {| embedart_commands.lib_albums := fun _ => [album_of_two];
     embedart_commands.lib_items := fun _ => embedart_commands.items album_of_two |}.

(** * Properties *)

(** ** Conversions and parsing at work *)

Example int_1999 : int "1999" = Ok 1999. Proof. reflexivity. Qed.
Example int_07 : int "07" = Ok 7. Proof. reflexivity. Qed.
Example int_empty : int "" = Raise (ValueError ""). Proof. reflexivity. Qed.
Example int_signed : int " -1_0 " = Ok (-10). Proof. reflexivity. Qed.
Example int_xx : int "1x" = Raise (ValueError "1x"). Proof. reflexivity. Qed.
Example split_date : split "-" "1999-07" = ["1999"; "07"]. Proof. reflexivity. Qed.
Example split_empty : split "-" "" = [""]. Proof. reflexivity. Qed.
Example lower_ex : lower "Single EP" = "single ep". Proof. reflexivity. Qed.

(** ** Reasoning about results *)

Lemma bind_Ok {A B} (m : result A) (f : A -> result B) (b : B) :
  m ≫= f = Ok b <-> exists a, m = Ok a /\ f a = Ok b.
Proof.
  destruct m as [a|e]; simpl; split.
  - intros H. exists a. split; [reflexivity | exact H].
  - intros (a' & Ha & Hf). injection Ha as ->. exact Hf.
  - discriminate.
  - intros (a' & Ha & _). discriminate.
Qed.

(** [inv_bind H] splits a hypothesis [x ← m; f x = Ok b] into the result
    of [m] and the rest. *)
Ltac inv_bind H :=
  let a := fresh "a" in
  let Ha := fresh "H" a in
  apply bind_Ok in H; destruct H as (a & Ha & H).

Lemma str_eqb_eq (a b : str) : str_eqb a b = true <-> a = b.
Proof. apply String.eqb_eq. Qed.

Lemma str_eqb_neq (a b : str) : str_eqb a b = false <-> a <> b.
Proof. apply String.eqb_neq. Qed.

Lemma str_in_In (x : str) (l : list str) : str_in x l = true <-> In x l.
Proof.
  unfold str_in. rewrite existsb_exists. split.
  - intros (y & Hy & E). apply str_eqb_eq in E. subst. exact Hy.
  - intros H. exists x. split; [exact H | apply str_eqb_eq; reflexivity].
Qed.

(** ** Partial dates (C5) *)

(** The loop on three keys, part by part. *)
Lemma date_keys_loop_slot (info : AlbumInfo.t) (parts : list str) (original : bool)
    (k : date_slot) :
  slot_value original k
    (date_keys_loop info ["year"; "month"; "day"] parts original)
  = match parts !! slot_position k ≫= int_opt with
    | Some v => Some v
    | None => slot_value original k info
    end
  /\ slot_value (negb original) k
       (date_keys_loop info ["year"; "month"; "day"] parts original)
     = slot_value (negb original) k info.
Proof.
  destruct parts as [|p1 [|p2 [|p3 parts]]]; destruct original, k;
    simpl; unfold int;
    repeat match goal with
           | |- context [int_opt ?p] => destruct (int_opt p); simpl; unfold int
           end;
    split; reflexivity.
Qed.

(** C5, as the code has it: each of the first three parts belongs to its
    own slot, year, month and day in this order; a slot is set exactly
    when its part is there and is an integer literal, and otherwise keeps
    what it held, whatever the parts before it were; the slots of the
    other family are not touched.  So "1999" sets the year alone, "1999-07"
    the year and the month, and the empty string nothing. *)
Theorem set_date_str_slots :
  (forall (info : AlbumInfo.t) (date_str : str) (original : bool) (k : date_slot),
      slot_value original k (_set_date_str info (Some date_str) original)
      = match parsed_part date_str k with
        | Some v => Some v
        | None => slot_value original k info
        end
      /\ slot_value (negb original) k (_set_date_str info (Some date_str) original)
         = slot_value (negb original) k info)
  /\ date_slots false (_set_date_str blank_album_info (Some "1999") false)
     = [Some 1999; None; None]
  /\ date_slots false (_set_date_str blank_album_info (Some "1999-07") false)
     = [Some 1999; Some 7; None]
  /\ date_slots false (_set_date_str blank_album_info (Some "") false)
     = [None; None; None].
Proof.
  split; [| repeat split; reflexivity].
  intros info date_str original k. unfold _set_date_str, parsed_part.
  destruct (nonempty date_str) eqn:E.
  - apply date_keys_loop_slot.
  - destruct date_str; [| discriminate]. destruct k; simpl; split; reflexivity.
Qed.

(** C5 as stated fails: after a part that is not an integer the parser
    goes on, and the day of "1999-xx-07" is set. *)
Lemma set_date_str_goes_on_after_bad_part :
  date_slots false (_set_date_str blank_album_info (Some "1999-xx-07") false)
  = [Some 1999; None; Some 7]
  /\ stop_at_first_failure (split "-" "1999-xx-07") 3 = [Some 1999; None; None]
  /\ ~ (forall date_str : str,
          date_slots false (_set_date_str blank_album_info (Some date_str) false)
          = stop_at_first_failure (split "-" date_str) 3).
Proof.
  split; [reflexivity | split; [reflexivity |]].
  intros H. specialize (H "1999-xx-07"). discriminate H.
Qed.

(** ** Updates by plugins *)

Lemma apply_updates_preserves {A B} (attribute : A -> B) (extras : list (A -> A))
    (info : A) :
  Forall (preserves attribute) extras ->
  attribute (apply_updates info extras) = attribute info.
Proof.
  unfold apply_updates. revert info.
  induction extras as [|u extras IH]; intros info H; simpl; [reflexivity |].
  inversion H as [|? ? Hu Hrest]; subst. rewrite IH by exact Hrest. apply Hu.
Qed.

(** ** The remixer field (C4) *)

Lemma related_artists_loop_Ok (relations : list ArtistRelation) (relation_type : str)
    (acc names : list str) :
  related_artists_loop relations relation_type acc = Ok names ->
  names = acc ++ related_names relation_type relations.
Proof.
  revert acc. induction relations as [|r relations IH]; intros acc H; simpl in H.
  - injection H as <-. unfold related_names. simpl. rewrite app_nil_r. reflexivity.
  - inv_bind H. unfold related_names, relation_has_type at 1. simpl.
    destruct (ar_type r) as [ty|]; [| discriminate]. injection Ha as <-.
    apply IH in H. subst names. unfold relation_has_type.
    destruct (str_eqb ty relation_type); simpl.
    + rewrite <- app_assoc. reflexivity.
    + reflexivity.
Qed.

(** What the remixer attribute holds when [track_info] returns: nothing
    when the recording has no artist relation at all, and otherwise the
    joined names of the remixers, which is the empty text, not nothing,
    when no relation is a remixer's. *)
Lemma track_info_remixer_field (config : Config) (plugins : Plugins)
    (recording : Recording) (index medium medium_index medium_total : option Z)
    (info : TrackInfo.t) :
  Forall (preserves TrackInfo.remixer) (mb_track_extract plugins recording) ->
  track_info config plugins recording index medium medium_index medium_total = Ok info ->
  TrackInfo.remixer info
  = match rec_artist_relation_list recording with
    | Some (r :: relations) => Some (join ", " (related_names "remixer" (r :: relations)))
    | _ => None
    end.
Proof.
  intros Hp H. unfold track_info in H.
  inv_bind H. inv_bind H. destruct a0 as [[[artist artist_sort] artist_credit] artist_id'].
  inv_bind H. inv_bind H. inv_bind H.
  injection H as <-. unfold decode.
  rewrite apply_updates_preserves by exact Hp. simpl.
  destruct (rec_artist_relation_list recording) as [[|r relations]|];
    try (injection Ha1 as <-; reflexivity).
  inv_bind Ha1. injection Ha1 as <-.
  unfold _get_related_artist_names in Ha4. inv_bind Ha4. injection Ha4 as <-.
  apply related_artists_loop_Ok in Ha1. subst. reflexivity.
Qed.

(** C4 at the failing input: the relation list is not empty and holds no
    remixer; the arranger is found, and the remixer attribute is set, to
    the empty text, where the arranger, lyricist and composer attributes
    of a recording without such relations stay unset. *)
Theorem track_info_remixer_set_without_remixer (config : Config) :
  exists info,
    track_info config no_plugins arranged_recording None None None None = Ok info
    /\ related_names "remixer" (default [] (rec_artist_relation_list arranged_recording)) = []
    /\ TrackInfo.remixer info = Some EmptyString
    /\ TrackInfo.arranger info = Some "Ann Arranger"
    /\ TrackInfo.lyricist info = None
    /\ TrackInfo.composer info = None.
Proof.
  eexists. split; [reflexivity |]. repeat split; reflexivity.
Qed.

(** ** Alias preference (C6) *)

Lemma alias_matches_filter (config : Config) (locale : str) (aliases acc : list Alias) :
  alias_matches (map lower (import_ignored_alias_types config)) locale aliases acc
  = acc ++ List.filter (qualifies config locale) aliases.
Proof.
  revert acc. induction aliases as [|a aliases IH]; intros acc; simpl.
  - rewrite app_nil_r. reflexivity.
  - rewrite IH. unfold qualifies at 2.
    match goal with |- context [if ?b then acc ++ [a] else acc] => destruct b end.
    + rewrite <- app_assoc. reflexivity.
    + reflexivity.
Qed.

Lemma filter_head_split {A} (f : A -> bool) (l : list A) (m : A) (rest : list A) :
  List.filter f l = m :: rest ->
  exists before after,
    l = before ++ m :: after /\ f m = true /\ (forall b, In b before -> f b = false).
Proof.
  induction l as [|x l IH]; simpl; [discriminate |].
  destruct (f x) eqn:E; intros H.
  - injection H as -> _. exists [], l. repeat split; [exact E | intros b []].
  - destruct (IH H) as (before & after & -> & Hm & Hb).
    exists (x :: before), after. repeat split; [exact Hm |].
    intros b [<- | Hin]; [exact E | apply Hb, Hin].
Qed.

Lemma filter_nil_none {A} (f : A -> bool) (l : list A) :
  List.filter f l = [] -> forall b, In b l -> f b = false.
Proof.
  induction l as [|x l IH]; simpl; intros H b Hin; [contradiction |].
  destruct (f x) eqn:E; [discriminate |].
  destruct Hin as [<- | Hin]; [exact E | apply IH; assumption].
Qed.

Lemma filter_filter_implied {A} (f g : A -> bool) (l : list A) :
  (forall x, f x = true -> g x = true) ->
  List.filter f (List.filter g l) = List.filter f l.
Proof.
  intros Hfg. induction l as [|x l IH]; simpl; [reflexivity |].
  destruct (g x) eqn:Eg; simpl.
  - rewrite IH. reflexivity.
  - destruct (f x) eqn:Ef; [| exact IH]. apply Hfg in Ef. congruence.
Qed.

Lemma qualifies_has_locale (config : Config) (locale : str) (a : Alias) :
  qualifies config locale a = true -> has_locale a = true.
Proof.
  unfold qualifies, has_locale. destruct (alias_locale a); [reflexivity | discriminate].
Qed.

(** The search over the locales, on the aliases as given. *)
Lemma alias_search_spec (config : Config) (aliases : list Alias) (locales : list str) :
  match alias_search (map lower (import_ignored_alias_types config)) aliases locales with
  | Some a =>
      exists earlier locale later before after,
        locales = earlier ++ locale :: later
        /\ aliases = before ++ a :: after
        /\ qualifies config locale a = true
        /\ (forall b, In b before -> qualifies config locale b = false)
        /\ (forall l b, In l earlier -> In b aliases -> qualifies config l b = false)
  | None => forall l b, In l locales -> In b aliases -> qualifies config l b = false
  end.
Proof.
  induction locales as [|locale locales IH]; simpl.
  - intros l b [].
  - rewrite alias_matches_filter. simpl.
    destruct (List.filter (qualifies config locale) aliases) as [|m rest] eqn:E.
    + pose proof (filter_nil_none _ _ E) as Hnone.
      destruct (alias_search _ aliases locales) as [a|].
      * destruct IH as (earlier & loc & later & before & after & -> & -> & Hq & Hb & He).
        exists (locale :: earlier), loc, later, before, after.
        repeat split; try assumption.
        intros l b [<- | Hl] Hb'; [apply Hnone, Hb' | apply He; assumption].
      * intros l b [<- | Hl] Hb; [apply Hnone, Hb | apply IH; assumption].
    + destruct (filter_head_split _ _ _ _ E) as (before & after & -> & Hm & Hb).
      exists [], locale, locales, before, after.
      repeat split; try assumption. intros l b [].
Qed.

Lemma alias_search_tagged (config : Config) (aliases : list Alias) (locales : list str) :
  alias_search (map lower (import_ignored_alias_types config))
    (List.filter has_locale aliases) locales
  = alias_search (map lower (import_ignored_alias_types config)) aliases locales.
Proof.
  induction locales as [|locale locales IH]; simpl; [reflexivity |].
  rewrite !alias_matches_filter. simpl.
  rewrite filter_filter_implied by apply qualifies_has_locale.
  rewrite IH. reflexivity.
Qed.

Lemma preferred_alias_search (config : Config) (aliases : list Alias) :
  _preferred_alias config aliases
  = alias_search (map lower (import_ignored_alias_types config)) aliases
      (import_languages config).
Proof.
  unfold _preferred_alias. destruct aliases as [|a aliases].
  - induction (import_languages config) as [|l ls IH]; simpl; [reflexivity | exact IH].
  - apply (alias_search_tagged config (a :: aliases)).
Qed.

(** C6: the alias returned is the first alias of the list that counts for
    the first configured locale for which any alias counts, and there is
    no preference exactly when no alias counts for any configured locale.
    An alias without a locale tag counts for no locale.  With the
    preference [en, fr], a list that holds an English alias that counts
    gives an English alias wherever it stands in the list, and gives this
    very alias when it is the only English one that counts. *)
Theorem preferred_alias_rule :
  (forall (config : Config) (aliases : list Alias),
      match _preferred_alias config aliases with
      | Some a =>
          exists earlier locale later before after,
            import_languages config = earlier ++ locale :: later
            /\ aliases = before ++ a :: after
            /\ qualifies config locale a = true
            /\ (forall b, In b before -> qualifies config locale b = false)
            /\ (forall l b, In l earlier -> In b aliases -> qualifies config l b = false)
      | None =>
          forall l b, In l (import_languages config) -> In b aliases ->
                      qualifies config l b = false
      end)
  /\ (forall (config : Config) (a : Alias),
         alias_locale a = None -> forall locale, qualifies config locale a = false)
  /\ (forall (config : Config) (aliases : list Alias) (english : Alias),
         import_languages config = ["en"; "fr"] ->
         In english aliases ->
         qualifies config "en" english = true ->
         exists a,
           _preferred_alias config aliases = Some a
           /\ In a aliases
           /\ alias_locale a = Some "en"
           /\ ((forall b, In b aliases -> qualifies config "en" b = true -> b = english) ->
               a = english)).
Proof.
  split; [| split].
  - intros config aliases. rewrite preferred_alias_search. apply alias_search_spec.
  - intros config a Ha locale. unfold qualifies. rewrite Ha. reflexivity.
  - intros config aliases english Hlang Hin Hq.
    pose proof (alias_search_spec config aliases (import_languages config)) as H.
    rewrite <- preferred_alias_search in H.
    destruct (_preferred_alias config aliases) as [a|].
    + destruct H as (earlier & locale & later & before & after & Hl & Ha & Hqa & Hb & He).
      assert (locale = "en") as ->.
      { rewrite Hlang in Hl. destruct earlier as [|l1 earlier].
        - simpl in Hl. congruence.
        - exfalso. simpl in Hl. injection Hl as <- _.
          specialize (He "en" english (or_introl eq_refl) Hin). congruence. }
      assert (In a aliases) as Hina.
      { rewrite Ha. apply in_app_iff. right. left. reflexivity. }
      exists a. repeat split; try assumption.
      * unfold qualifies in Hqa. destruct (alias_locale a) as [l|]; [| discriminate].
        simpl in Hqa. apply andb_prop in Hqa as [Hqa _]. apply andb_prop in Hqa as [Hqa _].
        apply str_eqb_eq in Hqa. subst. reflexivity.
      * intros Hu. apply Hu; assumption.
    + exfalso. rewrite Hlang in H.
      specialize (H "en" english (or_introl eq_refl) Hin). congruence.
Qed.

Lemma preferred_alias_rule_witness :
  _preferred_alias config_en_fr [alias_fr; alias_en] = Some alias_en
  /\ _preferred_alias config_en_fr [alias_en; alias_fr] = Some alias_en.
Proof.
  assert (forall b, In b [alias_fr; alias_en] ->
                    qualifies config_en_fr "en" b = true -> b = alias_en) as Hu.
  { intros b [<- | [<- | []]] Hq; [discriminate Hq | reflexivity]. }
  split.
  - destruct (proj2 (proj2 preferred_alias_rule) config_en_fr [alias_fr; alias_en] alias_en
                eq_refl (or_intror (or_introl eq_refl)) eq_refl)
      as (a & -> & _ & _ & Ha).
    f_equal. apply Ha. exact Hu.
  - destruct (proj2 (proj2 preferred_alias_rule) config_en_fr [alias_en; alias_fr] alias_en
                eq_refl (or_introl eq_refl) eq_refl)
      as (a & -> & _ & _ & Ha).
    f_equal. apply Ha. intros b Hb. apply Hu. simpl in *. tauto.
Defined.

(** ** Identifiers and the fetches by identifier (C2, C10) *)

Lemma match_here_shaped (re : list char_class) (s m : str) :
  match_here re s = Some m -> shaped re m /\ exists after, s = m +:+ after.
Proof.
  revert s m. induction re as [|c re IH]; intros s m H; simpl in H.
  - injection H as <-. split; [exact I | exists s; reflexivity].
  - destruct s as [|a s]; [discriminate |].
    destruct (class_matches c a) eqn:E; [| discriminate].
    destruct (match_here re s) as [m'|] eqn:Em; [| discriminate].
    injection H as <-. destruct (IH _ _ Em) as (Hs & after & ->).
    split; [split; assumption | exists after; reflexivity].
Qed.

Lemma match_here_complete (re : list char_class) (m after : str) :
  shaped re m -> match_here re (m +:+ after) = Some m.
Proof.
  revert m. induction re as [|c re IH]; intros m H; destruct m as [|a m]; simpl in *;
    try contradiction.
  - reflexivity.
  - destruct H as [-> H]. rewrite (IH _ H). reflexivity.
Qed.

Lemma re_search_unfold (re : list char_class) (s : str) :
  re_search re s
  = match match_here re s with
    | Some m => Some m
    | None =>
        match s with
        | String _ s' => re_search re s'
        | EmptyString => None
        end
    end.
Proof. destruct s; reflexivity. Qed.

Lemma re_search_None (re : list char_class) (s : str) :
  re_search re s = None <-> ~ contains_shape re s.
Proof.
  split.
  - intros H (before & m & after & -> & Hm). revert H.
    induction before as [|a before IH].
    + change (EmptyString +:+ m +:+ after) with (m +:+ after).
      rewrite re_search_unfold, (match_here_complete re m after Hm). discriminate.
    + change (String a before +:+ m +:+ after) with (String a (before +:+ m +:+ after)).
      rewrite re_search_unfold.
      destruct (match_here re _); [discriminate | exact IH].
  - intros H. induction s as [|a s IH]; simpl.
    + destruct (match_here re EmptyString) as [m|] eqn:E; [| reflexivity].
      exfalso. apply H. destruct (match_here_shaped _ _ _ E) as (Hm & after & Hs).
      exists EmptyString, m, after. split; [exact Hs | exact Hm].
    + destruct (match_here re (String a s)) as [m|] eqn:E.
      * exfalso. apply H. destruct (match_here_shaped _ _ _ E) as (Hm & after & Hs).
        exists EmptyString, m, after. split; [exact Hs | exact Hm].
      * apply IH. intros (before & m & after & -> & Hm). apply H.
        exists (String a before), m, after. split; [reflexivity | exact Hm].
Qed.

Lemma re_search_Some (re : list char_class) (s m : str) :
  re_search re s = Some m -> shaped re m /\ contains_shape re s.
Proof.
  induction s as [|a s IH]; simpl.
  - destruct (match_here re EmptyString) as [m'|] eqn:E; [| discriminate].
    intros [= <-]. destruct (match_here_shaped _ _ _ E) as (Hm & after & Hs).
    split; [exact Hm |]. exists EmptyString, m', after. split; assumption.
  - destruct (match_here re (String a s)) as [m'|] eqn:E.
    + intros [= <-]. destruct (match_here_shaped _ _ _ E) as (Hm & after & Hs).
      split; [exact Hm |]. exists EmptyString, m', after. split; assumption.
    + intros H. destruct (IH H) as (Hm & before & m' & after & -> & Hm').
      split; [exact Hm |]. exists (String a before), m', after.
      split; [reflexivity | exact Hm'].
Qed.

Lemma shaped_nonempty (hex : char_class) (m : str) :
  shaped (uuid_shape hex) m -> nonempty m = true.
Proof. destruct m; simpl; [intros [] | reflexivity]. Qed.

Lemma parse_id_nonempty (s albumid : str) :
  _parse_id s = Some albumid -> nonempty albumid = true.
Proof.
  intros H. apply re_search_Some in H as [H _]. eapply shaped_nonempty, H.
Qed.



(** Classes of the lower-case pattern match no upper-case digit. *)
Lemma lower_class_not_upper (c : char_class) (a : ascii) :
  c <> Hex_any -> class_matches c a = true -> is_upper_hex a = false.
Proof.
  intros Hc. unfold is_upper_hex. destruct c; try contradiction; simpl; unfold in_range.
  - intros H. apply orb_prop in H.
    destruct (Nat.leb_spec 65 (ord a)), (Nat.leb_spec (ord a) 70); try reflexivity.
    exfalso. destruct H as [H | H]; apply andb_prop in H as [Hlo Hhi];
      apply Nat.leb_le in Hlo, Hhi; lia.
  - intros H. apply Ascii.eqb_eq in H. subst a. reflexivity.
Qed.

Lemma shaped_lower_no_upper (re : list char_class) (m : str) :
  Forall (fun c => c <> Hex_any) re -> shaped re m -> has_upper_hex m = false.
Proof.
  revert m. induction re as [|c re IH]; intros m Hre Hm; destruct m as [|a m];
    simpl in *; try contradiction; [reflexivity |].
  inversion Hre as [|? ? Hc Hrest]; subst. destruct Hm as [Ha Hm].
  rewrite (lower_class_not_upper c a Hc Ha), (IH m Hrest Hm). reflexivity.
Qed.

Lemma shaped_either_case (re : list char_class) (m : str) :
  shaped re m -> shaped (map either_case re) m.
Proof.
  revert m. induction re as [|c re IH]; intros m; destruct m as [|a m]; simpl; try tauto.
  intros [Ha Hm]. split; [| apply IH, Hm].
  destruct c; simpl in *; try exact Ha.
  apply orb_prop in Ha as [-> | ->]; [reflexivity | apply orb_true_r].
Qed.

Lemma uuid_shape_lower_is_any (m : str) :
  shaped (uuid_shape Hex_lower) m -> shaped (uuid_shape Hex_any) m.
Proof. apply (shaped_either_case (uuid_shape Hex_lower)). Qed.

Lemma uuid_shape_lower_classes : Forall (fun c => c <> Hex_any) (uuid_shape Hex_lower).
Proof. unfold uuid_shape. simpl. repeat constructor; discriminate. Qed.

Lemma every_shaped_has_upper_unfold (s : str) :
  every_shaped_has_upper s
  = match match_here (uuid_shape Hex_any) s with
    | Some m => has_upper_hex m
    | None => true
    end
    && match s with
       | String _ s' => every_shaped_has_upper s'
       | EmptyString => true
       end.
Proof. destruct s; reflexivity. Qed.

Lemma every_shaped_has_upper_spec (s : str) :
  every_shaped_has_upper s = true ->
  forall before m after,
    s = before +:+ m +:+ after -> shaped (uuid_shape Hex_any) m -> has_upper_hex m = true.
Proof.
  intros H before. revert s H. induction before as [|a before IH]; intros s H m after -> Hm.
  - change (EmptyString +:+ m +:+ after) with (m +:+ after) in H.
    rewrite every_shaped_has_upper_unfold, (match_here_complete _ m after Hm) in H.
    apply andb_prop in H as [H _]. exact H.
  - change (String a before +:+ m +:+ after) with (String a (before +:+ m +:+ after)) in H.
    rewrite every_shaped_has_upper_unfold in H.
    apply andb_prop in H as [_ H]. eapply IH; [exact H | reflexivity | exact Hm].
Qed.

(** C10: an identifier the extractor returns is written with lower-case
    digits only; a string in which every substring of the shape of an
    identifier, in either case, holds an upper-case digit gives no
    identifier, and both fetches answer that nothing was found whatever
    the service would do: it is not asked. *)
Theorem parse_id_lower_case_only :
  (forall s id,
      _parse_id s = Some id ->
      shaped (uuid_shape Hex_lower) id /\ has_upper_hex id = false)
  /\ (forall (config : Config) (mbz : musicbrainzngs) (plugins : Plugins) (s : str),
         (forall before m after,
             s = before +:+ m +:+ after ->
             shaped (uuid_shape Hex_any) m -> has_upper_hex m = true) ->
         _parse_id s = None
         /\ album_for_id config mbz plugins s = Ok None
         /\ track_for_id config mbz plugins s = Ok None).
Proof.
  split.
  - intros s id H. apply re_search_Some in H as [H _]. split; [exact H |].
    apply (shaped_lower_no_upper _ _ uuid_shape_lower_classes H).
  - intros config mbz plugins s H.
    assert (_parse_id s = None) as Hnone.
    { apply re_search_None. intros (before & m & after & -> & Hm).
      pose proof (H before m after eq_refl (uuid_shape_lower_is_any m Hm)) as Hup.
      rewrite (shaped_lower_no_upper _ _ uuid_shape_lower_classes Hm) in Hup.
      discriminate. }
    unfold album_for_id, track_for_id. rewrite Hnone. repeat split.
Qed.

Lemma parse_id_lower_case_only_witness :
  _parse_id upper_case_va_id = None
  /\ album_for_id default_config (service_answering NetworkError) no_plugins
       upper_case_va_id = Ok None
  /\ track_for_id default_config (service_answering NetworkError) no_plugins
       upper_case_va_id = Ok None.
Proof.
  apply (proj2 parse_id_lower_case_only).
  apply every_shaped_has_upper_spec. reflexivity.
Defined.

(** ** The shape of what [album_info] returns *)

Lemma setattr_date_with_dates (info : AlbumInfo.t) (key : str) (v : Z) :
  exists y m d oy om od, setattr_date info key v = AlbumInfo.with_dates info y m d oy om od.
Proof.
  unfold setattr_date.
  repeat match goal with
         | |- context [if ?b then _ else _] => destruct b; [do 6 eexists; reflexivity |]
         end.
  exists (AlbumInfo.year info), (AlbumInfo.month info), (AlbumInfo.day info),
    (AlbumInfo.original_year info), (AlbumInfo.original_month info),
    (AlbumInfo.original_day info).
  destruct info; reflexivity.
Qed.

Lemma with_dates_with_dates (info : AlbumInfo.t) (y m d oy om od y' m' d' oy' om' od' : option Z) :
  AlbumInfo.with_dates (AlbumInfo.with_dates info y m d oy om od) y' m' d' oy' om' od'
  = AlbumInfo.with_dates info y' m' d' oy' om' od'.
Proof. reflexivity. Qed.

Lemma date_keys_loop_with_dates (info : AlbumInfo.t) (keys parts : list str)
    (original : bool) (y m d oy om od : option Z) :
  exists y' m' d' oy' om' od',
    date_keys_loop (AlbumInfo.with_dates info y m d oy om od) keys parts original
    = AlbumInfo.with_dates info y' m' d' oy' om' od'.
Proof.
  revert parts y m d oy om od.
  induction keys as [|key keys IH]; intros parts y m d oy om od; simpl.
  - do 6 eexists; reflexivity.
  - destruct parts as [|part parts]; [apply IH |].
    destruct (int part); [| apply IH].
    match goal with
    | |- context [setattr_date ?i ?k ?v] =>
        destruct (setattr_date_with_dates i k v) as (y1 & m1 & d1 & oy1 & om1 & od1 & E)
    end.
    cbv zeta. rewrite E, with_dates_with_dates. apply IH.
Qed.

(** [_set_date_str] changes date attributes only. *)
Lemma set_date_str_with_dates (info : AlbumInfo.t) (date_str : option str)
    (original : bool) :
  exists y m d oy om od,
    _set_date_str info date_str original = AlbumInfo.with_dates info y m d oy om od.
Proof.
  assert (info = AlbumInfo.with_dates info (AlbumInfo.year info) (AlbumInfo.month info)
                   (AlbumInfo.day info) (AlbumInfo.original_year info)
                   (AlbumInfo.original_month info) (AlbumInfo.original_day info)) as E
      by (destruct info; reflexivity).
  unfold _set_date_str. destruct date_str as [s|]; [| do 6 eexists; exact E].
  destruct (nonempty s); [| do 6 eexists; exact E].
  destruct (date_keys_loop_with_dates info ["year"; "month"; "day"] (split "-" s) original
              (AlbumInfo.year info) (AlbumInfo.month info) (AlbumInfo.day info)
              (AlbumInfo.original_year info) (AlbumInfo.original_month info)
              (AlbumInfo.original_day info)) as (y & m & d & oy & om & od & H).
  rewrite <- E in H. exists y, m, d, oy, om, od. exact H.
Qed.

Lemma recover_relations_Ok (mbz : musicbrainzngs) (release release' : Release)
    (ntracks : nat) :
  recover_relations mbz release ntracks = Ok release' <->
  exists recording_list media,
    browse_loop mbz (rel_id release) (range 0 ntracks BROWSE_CHUNKSIZE) [] = Ok recording_list
    /\ substitute_media (track_map_of recording_list) (rel_medium_list release) = Ok media
    /\ release' = with_medium_list release media.
Proof.
  unfold recover_relations. split.
  - intros H. inv_bind H. inv_bind H. injection H as <-.
    exists a, a0. repeat split; assumption.
  - intros (recording_list & media & Hb & Hs & ->). rewrite Hb. simpl. rewrite Hs. reflexivity.
Qed.

(** What [album_info_body] returns, before the updates of the plugins. *)
Lemma album_info_body_Ok (config : Config) (plugins : Plugins) (names : str * str * str)
    (release : Release) (info : AlbumInfo.t) :
  album_info_body config plugins names release = Ok info ->
  exists track_infos index media artist_id before_plugins,
    media_loop config plugins (rel_medium_list release) [] 0 = Ok (track_infos, index, media)
    /\ first_artist_id (rel_artist_credit release) = Ok artist_id
    /\ info = apply_updates before_plugins
                (mb_album_extract plugins (with_medium_list release media))
    /\ AlbumInfo.tracks before_plugins = track_infos
    /\ AlbumInfo.va before_plugins = str_eqb artist_id VARIOUS_ARTISTS_ID
    /\ AlbumInfo.artist_id before_plugins = Some artist_id
    /\ AlbumInfo.artist before_plugins
       = Some (if str_eqb artist_id VARIOUS_ARTISTS_ID then va_name config
               else fst (fst names))
    /\ (if musicbrainz_genres config
        then exists g, genre_of release = Ok g /\ AlbumInfo.genre before_plugins = Some g
        else AlbumInfo.genre before_plugins = None).
Proof.
  unfold album_info_body. destruct names as [[artist_name' artist_sort_name] artist_credit_name].
  intros H. inv_bind H. destruct a as [[track_infos index] media].
  inv_bind H. simpl in Ha0.
  match type of H with
  | context [_preferred_release_event ?c ?r] =>
      destruct (_preferred_release_event c r) as [country release_date]
  end.
  match type of H with
  | context [let '(label, catalognum) := ?e in _] => destruct e as [label catalognum]
  end.
  match type of H with
  | context [let '(script, language) := ?e in _] => destruct e as [script language]
  end.
  inv_bind H. injection H as <-. unfold decode.
  match goal with
  | |- context [_set_date_str (_set_date_str ?i ?d1 false) ?d2 true] =>
      destruct (set_date_str_with_dates i d1 false) as (y & m & d & oy & om & od & ->);
      destruct (set_date_str_with_dates (AlbumInfo.with_dates i y m d oy om od) d2 true)
        as (y' & m' & d' & oy' & om' & od' & ->)
  end.
  eexists track_infos, index, media, a, _.
  split; [exact Ha |]. split; [exact Ha0 |]. split; [reflexivity |].
  simpl. repeat (split; [reflexivity |]).
  destruct (musicbrainz_genres config).
  - apply bind_Ok in Ha1 as (g & Hg & Ha1). injection Ha1 as <-.
    exists g. split; [exact Hg | reflexivity].
  - injection Ha1 as <-. reflexivity.
Qed.

Lemma album_info_Ok (config : Config) (mbz : musicbrainzngs) (plugins : Plugins)
    (release : Release) (info : AlbumInfo.t) :
  album_info config mbz plugins release = Ok info ->
  exists release',
    album_info_body config plugins
      (_flatten_artist_credit config (rel_artist_credit release)) release' = Ok info
    /\ (release' = release
        \/ exists recording_list media,
             substitute_media (track_map_of recording_list) (rel_medium_list release)
             = Ok media
             /\ release' = with_medium_list release media).
Proof.
  unfold album_info. intros H. inv_bind H. exists a. split; [exact H |].
  destruct (Nat.ltb BROWSE_MAXTRACKS (ntracks_of release)).
  - right. apply recover_relations_Ok in Ha as (recording_list & media & _ & Hs & ->).
    exists recording_list, media. split; [exact Hs | reflexivity].
  - left. injection Ha as <-. reflexivity.
Qed.

(** ** Various artists (C8) *)

(** C8: when the mapper returns, the release's first artist-credit
    element has an artist identifier; the flag is set exactly when this
    identifier is the reserved one, and then the artist shown is the
    configured label; otherwise it is the flattened artist name.  The
    plugins that listen to the album extraction leave the two attributes
    as the mapper set them. *)
Theorem album_info_various_artists (config : Config) (mbz : musicbrainzngs)
    (plugins : Plugins) (release : Release) (info : AlbumInfo.t) :
  (forall r, Forall (fun u => preserves AlbumInfo.va u /\ preserves AlbumInfo.artist u)
               (mb_album_extract plugins r)) ->
  album_info config mbz plugins release = Ok info ->
  exists artist_id,
    first_artist_id (rel_artist_credit release) = Ok artist_id
    /\ (AlbumInfo.va info = true <-> artist_id = VARIOUS_ARTISTS_ID)
    /\ (AlbumInfo.va info = true -> AlbumInfo.artist info = Some (va_name config))
    /\ (AlbumInfo.va info = false ->
        AlbumInfo.artist info
        = Some (fst (fst (_flatten_artist_credit config (rel_artist_credit release))))).
Proof.
  intros Hp H. apply album_info_Ok in H as (release' & H & Hrel).
  assert (rel_artist_credit release' = rel_artist_credit release) as Hcredit
      by (destruct Hrel as [-> | (recording_list & media & _ & ->)]; reflexivity).
  apply album_info_body_Ok in H
    as (track_infos & index & media & artist_id & before & _ & Hid & -> & _ & Hva & _ & Hartist & _).
  rewrite Hcredit in Hid. exists artist_id. split; [exact Hid |].
  rewrite !apply_updates_preserves
    by (eapply List.Forall_impl; [| apply Hp]; simpl; tauto).
  rewrite Hva, Hartist. split; [apply str_eqb_eq |].
  split; intros ->; reflexivity.
Qed.

Lemma album_info_various_artists_witness :
  exists info,
    album_info default_config (service_answering NetworkError) no_plugins va_release
    = Ok info
    /\ AlbumInfo.va info = true
    /\ AlbumInfo.artist info = Some "Various Artists".
Proof.
  eexists. split; [reflexivity |].
  destruct (album_info_various_artists default_config (service_answering NetworkError)
              no_plugins va_release _ (fun _ => List.Forall_nil _) eq_refl)
    as (artist_id & Hid & Hiff & Hva & _).
  injection Hid as <-.
  split; [apply Hiff; reflexivity | apply Hva, Hiff; reflexivity].
Defined.

(** ** The medium total (C3) *)

Lemma track_info_release_context (config : Config) (plugins : Plugins)
    (recording : Recording) (index medium medium_index medium_total : option Z)
    (info : TrackInfo.t) :
  Forall (fun u => preserves TrackInfo.medium_total u /\ preserves TrackInfo.medium u)
    (mb_track_extract plugins recording) ->
  track_info config plugins recording index medium medium_index medium_total = Ok info ->
  TrackInfo.medium_total info = medium_total /\ TrackInfo.medium info = medium.
Proof.
  intros Hp H. unfold track_info in H.
  inv_bind H. inv_bind H. destruct a0 as [[[artist artist_sort] artist_credit] artist_id'].
  inv_bind H. inv_bind H. inv_bind H.
  injection H as <-. unfold decode.
  rewrite !apply_updates_preserves
    by (eapply List.Forall_impl; [| apply Hp]; simpl; tauto).
  split; reflexivity.
Qed.

Lemma map_track_context (config : Config) (plugins : Plugins) (medium : Medium)
    (disctitle format : option str) (track_count index : Z) (track : Track)
    (ti : TrackInfo.t) :
  track_plugins_keep_context plugins ->
  map_track config plugins medium disctitle format track_count index track = Ok ti ->
  TrackInfo.medium_total ti = Some track_count
  /\ int (med_position medium) = Ok (default 0 (TrackInfo.medium ti))
  /\ TrackInfo.medium ti <> None.
Proof.
  intros Hp H. unfold map_track in H.
  inv_bind H. inv_bind H. inv_bind H.
  apply (track_info_release_context _ _ _ _ _ _ _ _ (Hp _)) in Ha1 as [Ht Hm].
  inv_bind H. destruct a2 as [[[artist artist_sort] artist_credit] artist_id'].
  inv_bind H. injection H as <-. simpl. rewrite Ht, Hm. simpl.
  split; [reflexivity |]. split; [exact Ha | discriminate].
Qed.

Lemma tracks_loop_group (config : Config) (plugins : Plugins) (medium : Medium)
    (disctitle format : option str) (track_count : Z) (all_tracks : list Track)
    (track_infos track_infos' : list TrackInfo.t) (index index' : Z) :
  track_plugins_keep_context plugins ->
  tracks_loop config plugins medium disctitle format track_count all_tracks
    track_infos index = Ok (track_infos', index') ->
  exists group,
    track_infos' = track_infos ++ group
    /\ Forall (fun ti =>
                 TrackInfo.medium_total ti = Some track_count
                 /\ int (med_position medium) = Ok (default 0 (TrackInfo.medium ti))
                 /\ TrackInfo.medium ti <> None) group.
Proof.
  intros Hp. revert track_infos index.
  induction all_tracks as [|track rest IH]; intros track_infos index H; simpl in H.
  - injection H as <- <-. exists []. rewrite app_nil_r. split; [reflexivity | constructor].
  - destruct (skipped_title track); [apply IH in H; exact H |].
    destruct (skipped_video config track); [apply IH in H; exact H |].
    inv_bind H. apply IH in H as (group & -> & Hg).
    exists (a :: group). rewrite <- app_assoc. split; [reflexivity |].
    constructor; [| exact Hg]. eapply map_track_context; eassumption.
Qed.

Lemma media_loop_groups (config : Config) (plugins : Plugins) (media media' : list Medium)
    (track_infos track_infos' : list TrackInfo.t) (index index' : Z) :
  track_plugins_keep_context plugins ->
  media_loop config plugins media track_infos index = Ok (track_infos', index', media') ->
  exists groups,
    track_infos' = track_infos ++ concat groups
    /\ Forall2 (fun medium group =>
                  Forall (of_medium config medium) group
                  /\ (ignored_medium config medium = true -> group = []))
         media groups.
Proof.
  intros Hp. revert media' track_infos index.
  induction media as [|medium rest IH]; intros media' track_infos index H; simpl in H.
  - injection H as <- <- <-. exists []. simpl. rewrite app_nil_r.
    split; [reflexivity | constructor].
  - destruct (ignored_medium config medium) eqn:Ei.
    + inv_bind H. destruct a as [[tis idx] rest']. injection H as <- <- <-.
      apply IH in Ha as (groups & -> & Hg). exists ([] :: groups).
      split; [reflexivity |]. constructor; [| exact Hg].
      split; [constructor | reflexivity].
    + inv_bind H. destruct a as [tis idx]. inv_bind H. destruct a as [[tis' idx''] rest'].
      injection H as <- <- <-.
      apply (tracks_loop_group _ _ _ _ _ _ _ _ _ _ _ Hp) in Ha as (group & -> & Hgroup).
      apply IH in Ha0 as (groups & -> & Hg). exists (group :: groups).
      simpl. rewrite <- app_assoc. split; [reflexivity |].
      constructor; [| exact Hg]. split; [exact Hgroup | congruence].
Qed.

Lemma substitute_tracks_Ok (track_map : gmap str Recording) (tracks tracks' : list Track) :
  substitute_tracks track_map tracks = Ok tracks' <->
  Forall2 (substituted_track track_map) tracks tracks'.
Proof.
  revert tracks'. induction tracks as [|t tracks IH]; intros tracks'; simpl; split.
  - intros [= <-]. constructor.
  - intros H. inversion H. reflexivity.
  - intros H. inv_bind H. inv_bind H. injection H as <-.
    constructor; [| apply IH; exact Ha0].
    exists a. split; [| reflexivity].
    destruct (track_map !! rec_id (trk_recording t)); [| discriminate].
    injection Ha as ->. reflexivity.
  - intros H. inversion H as [|? t' ? tl' (recording & Hr & ->) Hrest]; subst.
    rewrite Hr. simpl. apply IH in Hrest. rewrite Hrest. reflexivity.
Qed.

Lemma substitute_media_Ok (track_map : gmap str Recording) (media media' : list Medium) :
  substitute_media track_map media = Ok media' <->
  Forall2 (substituted_medium track_map) media media'.
Proof.
  revert media'. induction media as [|m media IH]; intros media'; simpl; split.
  - intros [= <-]. constructor.
  - intros H. inversion H. reflexivity.
  - intros H. inv_bind H. inv_bind H. injection H as <-.
    constructor; [| apply IH; exact Ha0].
    exists a. split; [apply substitute_tracks_Ok; exact Ha | reflexivity].
  - intros H. inversion H as [|? m' ? ml' (tracks & Ht & ->) Hrest]; subst.
    apply substitute_tracks_Ok in Ht. rewrite Ht. simpl.
    apply IH in Hrest. rewrite Hrest. reflexivity.
Qed.

Lemma substituted_medium_count (config : Config) (track_map : gmap str Recording)
    (m m' : Medium) :
  substituted_medium track_map m m' ->
  track_count_of config m' = track_count_of config m
  /\ ignored_medium config m' = ignored_medium config m
  /\ med_position m' = med_position m.
Proof.
  intros (tracks & Ht & ->). apply Forall2_length in Ht.
  unfold track_count_of, all_tracks_before_pregap, ignored_medium. simpl.
  repeat split.
  destruct (med_data_track_list m); [destruct (negb _) |];
    rewrite ?length_app, Ht; reflexivity.
Qed.

Lemma Forall2_through {A B C} (R : A -> B -> Prop) (P : B -> C -> Prop)
    (Q : A -> C -> Prop) (la : list A) (lb : list B) (lc : list C) :
  (forall a b c, R a b -> P b c -> Q a c) ->
  Forall2 R la lb -> Forall2 P lb lc -> Forall2 Q la lc.
Proof.
  intros HRP HR. revert lc. induction HR as [|a b la lb Hab HR IH]; intros lc HP.
  - inversion HP. constructor.
  - inversion HP as [|? c ? lc' Hbc HP']; subst. constructor; [eauto | apply IH, HP'].
Qed.

(** C3, as the code has it: the track infos of the album are those of
    its media, medium after medium; every one of a medium holds, as its
    medium total, the number of tracks of the medium's track list extended
    with the data tracks unless data tracks are ignored, counted before
    any track is skipped and before the pregap track is put in front: the
    count is one less than the length of the list the tracks are read
    from when the medium has a pregap track.  The plugins keep the
    attributes the mapper set. *)
Theorem album_info_medium_total (config : Config) (mbz : musicbrainzngs)
    (plugins : Plugins) (release : Release) (info : AlbumInfo.t) :
  track_plugins_keep_context plugins ->
  (forall r, Forall (preserves AlbumInfo.tracks) (mb_album_extract plugins r)) ->
  album_info config mbz plugins release = Ok info ->
  (exists groups,
      AlbumInfo.tracks info = concat groups
      /\ Forall2 (fun medium group =>
                    Forall (of_medium config medium) group
                    /\ (ignored_medium config medium = true -> group = []))
           (rel_medium_list release) groups)
  /\ (forall medium,
         track_count_of config medium
         = Z.of_nat (List.length (med_track_list medium)
                     + (if match_ignore_data_tracks config then 0
                        else List.length (default [] (med_data_track_list medium))))
         /\ Z.of_nat (List.length (all_tracks_of config medium))
            = track_count_of config medium
              + (match med_pregap medium with Some _ => 1 | None => 0 end)).
Proof.
  intros Hpt Hpa H. split.
  - apply album_info_Ok in H as (release' & H & Hrel).
    apply album_info_body_Ok in H
      as (track_infos & index & media & artist_id & before & Hloop & _ & -> & Htracks & _).
    rewrite apply_updates_preserves by apply Hpa. rewrite Htracks.
    apply (media_loop_groups _ _ _ _ _ _ _ _ Hpt) in Hloop as (groups & -> & Hg).
    exists groups. split; [reflexivity |].
    destruct Hrel as [-> | (recording_list & media' & Hs & ->)]; [exact Hg |].
    apply substitute_media_Ok in Hs. simpl in Hg.
    eapply Forall2_through; [| exact Hs | exact Hg].
    intros m m' group Hm [Hf Hi].
    destruct (substituted_medium_count config _ _ _ Hm) as (Hc & Hig & Hpos).
    split; [| rewrite <- Hig; exact Hi].
    eapply List.Forall_impl; [| exact Hf].
    intros ti (H1 & H2 & H3). unfold of_medium. rewrite <- Hc, <- Hpos. auto.
  - intros medium. unfold track_count_of, all_tracks_of, all_tracks_before_pregap.
    destruct (match_ignore_data_tracks config), (med_data_track_list medium),
      (med_pregap medium); simpl; rewrite ?length_app; simpl; lia.
Qed.

Lemma album_info_medium_total_witness :
  exists info groups,
    album_info default_config (service_answering NetworkError) no_plugins pregap_release
    = Ok info
    /\ AlbumInfo.tracks info = concat groups
    /\ Forall2 (fun medium group =>
                  Forall (of_medium default_config medium) group
                  /\ (ignored_medium default_config medium = true -> group = []))
         (rel_medium_list pregap_release) groups.
Proof.
  eexists.
  destruct (album_info_medium_total default_config (service_answering NetworkError)
              no_plugins pregap_release _
              (fun _ => List.Forall_nil _) (fun _ => List.Forall_nil _) eq_refl)
    as [(groups & Ht & Hg) _].
  exists groups. split; [reflexivity | split; assumption].
Defined.

(** C3 as stated fails: the medium's list of tracks has three entries,
    the pregap track among them, and every track info says two. *)
Lemma medium_total_leaves_out_pregap :
  exists info,
    album_info default_config (service_answering NetworkError) no_plugins pregap_release
    = Ok info
    /\ map TrackInfo.title (AlbumInfo.tracks info)
       = [Some "Hidden"; Some "First"; Some "Second"]
    /\ map TrackInfo.medium_total (AlbumInfo.tracks info) = [Some 2; Some 2; Some 2]
    /\ map (fun medium => List.length (all_tracks_of default_config medium))
         (rel_medium_list pregap_release) = [3%nat]
    /\ ~ (forall medium ti,
             In medium (rel_medium_list pregap_release) ->
             In ti (AlbumInfo.tracks info) ->
             TrackInfo.medium_total ti
             = Some (Z.of_nat (List.length (all_tracks_of default_config medium)))).
Proof.
  eexists. split; [reflexivity |]. repeat split.
  intros H.
  specialize (H _ _ (or_introl eq_refl) (or_introl eq_refl)). discriminate H.
Qed.

(** ** Genres (C7) *)

Lemma genre_source_loop_Ok (items : list GenreItem) (acc genres : list (str * Z)) :
  genre_source_loop items acc = Ok genres ->
  genres = foldl add_item acc items /\ Forall count_parses items.
Proof.
  revert acc genres. induction items as [|g items IH]; intros acc genres H; simpl in H.
  - injection H as <-. split; [reflexivity | constructor].
  - inv_bind H. unfold int in Ha.
    destruct (int_opt (genre_count g)) as [z|] eqn:E; [| discriminate].
    injection Ha as <-. apply IH in H as [H Hall]. rewrite H. simpl.
    change (add_item acc g) with (counter_add acc (genre_name g) (item_count g)).
    unfold item_count. rewrite E. split; [reflexivity |].
    constructor; [| exact Hall]. unfold count_parses, int, item_count. rewrite E. reflexivity.
Qed.

Lemma genre_sources_loop_Ok (release : Release) (genres : list (str * Z)) :
  genre_sources_loop
    [default [] (rg_genre_list (rel_release_group release));
     default [] (rel_genre_list release)] [] = Ok genres ->
  genres = foldl add_item [] (genre_items release)
  /\ Forall count_parses (genre_items release).
Proof.
  simpl. intros H. inv_bind H. inv_bind H. injection H as <-.
  apply genre_source_loop_Ok in Ha as [-> Hall], Ha0 as [-> Hall'].
  unfold genre_items. rewrite foldl_app. split; [reflexivity |].
  apply List.Forall_app. split; assumption.
Qed.

(** *** The counter *)

Lemma counter_add_keys (genres : list (str * Z)) (name : str) (n : Z) :
  map fst (counter_add genres name n)
  = if str_in name (map fst genres) then map fst genres else map fst genres ++ [name].
Proof.
  induction genres as [|[k v] genres IH]; [reflexivity |].
  change (counter_add ((k, v) :: genres) name n)
    with (if str_eqb k name then (k, v + n) :: genres
          else (k, v) :: counter_add genres name n).
  change (str_in name (map fst ((k, v) :: genres)))
    with (str_eqb name k || str_in name (map fst genres)).
  destruct (String.eqb_spec k name) as [-> | Hne].
  - unfold str_eqb. rewrite String.eqb_refl. reflexivity.
  - assert (str_eqb k name = false) as -> by (apply str_eqb_neq; exact Hne).
    assert (str_eqb name k = false) as -> by (apply str_eqb_neq; congruence).
    simpl. rewrite IH. destruct (str_in name (map fst genres)); reflexivity.
Qed.

Lemma counter_add_entries (genres : list (str * Z)) (name : str) (n : Z) (k : str) (v : Z) :
  List.NoDup (map fst genres) ->
  In (k, v) (counter_add genres name n) ->
  (k <> name /\ In (k, v) genres)
  \/ (k = name /\ exists v0, In (k, v0) genres /\ v = v0 + n)
  \/ (k = name /\ ~ In name (map fst genres) /\ v = n).
Proof.
  induction genres as [|[k0 v0] genres IH]; simpl; intros Hnd.
  - intros [[= <- <-] | []]. right. right. repeat split. tauto.
  - inversion Hnd as [|? ? Hk0 Hnd']; subst. destruct (str_eqb k0 name) eqn:E.
    + apply str_eqb_eq in E. subst k0. intros [[= <- <-] | Hin].
      * right. left. split; [reflexivity |]. exists v0. split; [left; reflexivity | reflexivity].
      * left. split; [| right; exact Hin].
        intros ->. apply Hk0. apply (in_map fst) in Hin. exact Hin.
    + apply str_eqb_neq in E. intros [[= <- <-] | Hin].
      * left. split; [exact E | left; reflexivity].
      * destruct (IH Hnd' Hin) as [[Hne H] | [[-> (v1 & H & ->)] | [-> [Hn ->]]]].
        -- left. split; [exact Hne | right; exact H].
        -- right. left. split; [reflexivity |]. exists v1. split; [right; exact H | reflexivity].
        -- right. right. repeat split. intros [H | H]; [congruence | exact (Hn H)].
Qed.

Lemma count_total_snoc (name : str) (items : list GenreItem) (g : GenreItem) :
  count_total name (items ++ [g])
  = count_total name items + (if str_eqb (genre_name g) name then item_count g else 0).
Proof. induction items as [|g0 items IH]; simpl; [lia | rewrite IH; lia]. Qed.

Lemma count_total_absent (name : str) (items : list GenreItem) :
  ~ In name (map genre_name items) -> count_total name items = 0.
Proof.
  induction items as [|g items IH]; simpl; intros H; [reflexivity |].
  destruct (str_eqb (genre_name g) name) eqn:E.
  - apply str_eqb_eq in E. tauto.
  - rewrite IH by tauto. reflexivity.
Qed.

Lemma first_position_snoc (name x : str) (names : list str) :
  In name names -> first_position name (names ++ [x]) = first_position name names.
Proof.
  induction names as [|n names IH]; simpl; intros H; [contradiction |].
  destruct (str_eqb n name) eqn:E; [reflexivity |].
  apply str_eqb_neq in E. rewrite IH by (destruct H; [contradiction | assumption]).
  reflexivity.
Qed.

Lemma first_position_lt (name : str) (names : list str) :
  In name names -> (first_position name names < List.length names)%nat.
Proof.
  induction names as [|n names IH]; simpl; intros H; [contradiction |].
  destruct (str_eqb n name) eqn:E; [lia |].
  apply str_eqb_neq in E. destruct H as [H | H]; [contradiction |].
  specialize (IH H). lia.
Qed.

Lemma first_position_absent (name : str) (names : list str) :
  ~ In name names -> first_position name (names ++ [name]) = List.length names.
Proof.
  induction names as [|n names IH]; simpl; intros H.
  - unfold str_eqb. rewrite String.eqb_refl. reflexivity.
  - destruct (str_eqb n name) eqn:E.
    + apply str_eqb_eq in E. tauto.
    + rewrite IH by tauto. reflexivity.
Qed.

Lemma StronglySorted_snoc {A} (R : A -> A -> Prop) (l : list A) (x : A) :
  StronglySorted R l -> Forall (fun a => R a x) l -> StronglySorted R (l ++ [x]).
Proof.
  induction l as [|a l IH]; simpl; intros Hs Hf.
  - constructor; constructor.
  - inversion Hs as [|? ? Hs' Ha]; subst. inversion Hf as [|? ? Hax Hf']; subst.
    constructor; [apply IH; assumption |].
    apply List.Forall_app. split; [exact Ha | constructor; [exact Hax | constructor]].
Qed.

Lemma StronglySorted_members {A} (R R' : A -> A -> Prop) (l : list A) :
  (forall a b, In a l -> In b l -> R a b -> R' a b) ->
  StronglySorted R l -> StronglySorted R' l.
Proof.
  induction l as [|a l IH]; intros HR Hs; [constructor |].
  inversion Hs as [|? ? Hs' Ha]; subst. constructor.
  - apply IH; [| exact Hs']. intros x y Hx Hy. apply HR; right; assumption.
  - rewrite List.Forall_forall in *. intros b Hb.
    apply HR; [left; reflexivity | right; exact Hb | apply Ha, Hb].
Qed.

(** The counter after a list of items: its names are those of the items,
    once each, in the order they are first met, and each holds the total
    of its name. *)
Lemma counter_invariant (items : list GenreItem) :
  let genres := foldl add_item [] items in
  let names := map genre_name items in
  List.NoDup (map fst genres)
  /\ (forall name, In name (map fst genres) <-> In name names)
  /\ (forall name n, In (name, n) genres -> n = count_total name items)
  /\ StronglySorted (fun a b => (first_position a names < first_position b names)%nat)
       (map fst genres).
Proof.
  induction items as [|g items IH] using rev_ind; simpl.
  - repeat split; try constructor; try tauto.
  - rewrite foldl_app, map_app. simpl.
    set (genres := foldl add_item [] items) in *.
    set (names := map genre_name items) in *. simpl in IH.
    destruct IH as (Hnd & Hnames & Htotal & Hsorted).
    unfold add_item at 1 2 3 4.
    pose proof (counter_add_keys genres (genre_name g) (item_count g)) as Hkeys.
    destruct (str_in (genre_name g) (map fst genres)) eqn:Ein.
    + apply str_in_In in Ein. rewrite Hkeys. repeat split.
      * exact Hnd.
      * rewrite Hnames, in_app_iff. tauto.
      * rewrite Hnames, in_app_iff. simpl. intros [H | [<- | []]]; [exact H |].
        apply Hnames, Ein.
      * intros name n Hin. rewrite count_total_snoc.
        apply (counter_add_entries _ _ _ _ _ Hnd) in Hin
          as [[Hne H] | [[-> (v0 & H & ->)] | [-> [Hn _]]]].
        -- apply Htotal in H. apply not_eq_sym, str_eqb_neq in Hne. rewrite Hne. lia.
        -- apply Htotal in H. unfold str_eqb. rewrite String.eqb_refl. lia.
        -- contradiction.
      * eapply StronglySorted_members; [| exact Hsorted].
        intros a b Ha Hb. apply Hnames in Ha, Hb.
        rewrite !first_position_snoc by assumption. tauto.
    + assert (~ In (genre_name g) (map fst genres)) as Hnot.
      { intros H. apply str_in_In in H. congruence. }
      assert (~ In (genre_name g) names) as Hnot' by (rewrite <- Hnames; exact Hnot).
      rewrite Hkeys. repeat split.
      * apply List.NoDup_app; [exact Hnd | repeat constructor; intros [] |].
        intros x Hx [<- | []]. contradiction.
      * rewrite !in_app_iff, Hnames. tauto.
      * rewrite !in_app_iff, Hnames. tauto.
      * intros name n Hin. rewrite count_total_snoc.
        apply (counter_add_entries _ _ _ _ _ Hnd) in Hin
          as [[Hne H] | [[-> (v0 & H & ->)] | [-> [Hn ->]]]].
        -- apply Htotal in H. apply not_eq_sym, str_eqb_neq in Hne. rewrite Hne. lia.
        -- exfalso. apply Hnot. apply (in_map fst) in H. exact H.
        -- unfold str_eqb. rewrite String.eqb_refl.
           rewrite (count_total_absent _ _ Hnot'). lia.
      * apply StronglySorted_snoc.
        -- eapply StronglySorted_members; [| exact Hsorted].
           intros a b Ha Hb. apply Hnames in Ha, Hb.
           rewrite !first_position_snoc by assumption. tauto.
        -- apply List.Forall_forall. intros a Ha. apply Hnames in Ha.
           rewrite first_position_snoc by exact Ha.
           rewrite (first_position_absent _ _ Hnot').
           pose proof (first_position_lt _ _ Ha) as Hlt. unfold names in *.
           exact Hlt.
Qed.

(** *** The stable sort *)

Lemma sorted_insert_perm {A} (key : A -> Z) (x : A) (l : list A) :
  Permutation (sorted_insert key x l) (x :: l).
Proof.
  induction l as [|y l IH]; simpl; [reflexivity |].
  destruct (key x <=? key y); [reflexivity |].
  rewrite IH. apply perm_swap.
Qed.

Lemma sorted_perm {A} (key : A -> Z) (l : list A) : Permutation (sorted key l) l.
Proof.
  induction l as [|x l IH]; simpl; [reflexivity |].
  rewrite sorted_insert_perm. apply perm_skip, IH.
Qed.

Lemma sorted_insert_sorted {A} (key : A -> Z) (R0 : A -> A -> Prop) (x : A) (l : list A) :
  StronglySorted (by_key_then key R0) l ->
  Forall (R0 x) l ->
  StronglySorted (by_key_then key R0) (sorted_insert key x l).
Proof.
  induction l as [|y l IH]; simpl; intros Hs Hf.
  - constructor; constructor.
  - inversion Hs as [|? ? Hs' Hy]; subst. inversion Hf as [|? ? Hxy Hf']; subst.
    destruct (Z.leb_spec (key x) (key y)) as [Hle | Hlt].
    + constructor; [exact Hs |]. constructor.
      * unfold by_key_then. destruct (Z.eq_dec (key x) (key y)); [right | left]; auto with zarith.
      * rewrite List.Forall_forall in *. intros z Hz.
        specialize (Hy z Hz). specialize (Hf' z Hz). unfold by_key_then in *.
        destruct (Z.eq_dec (key x) (key z)); [right; auto |].
        left. destruct Hy as [Hy | [Hy _]]; lia.
    + constructor; [apply IH; assumption |].
      eapply Permutation_Forall; [symmetry; apply sorted_insert_perm |].
      constructor; [| exact Hy]. left. exact Hlt.
Qed.

Lemma sorted_stable {A} (key : A -> Z) (R0 : A -> A -> Prop) (l : list A) :
  StronglySorted R0 l -> StronglySorted (by_key_then key R0) (sorted key l).
Proof.
  induction l as [|x l IH]; simpl; intros Hs; [constructor |].
  inversion Hs as [|? ? Hs' Hx]; subst.
  apply sorted_insert_sorted; [apply IH, Hs' |].
  eapply Permutation_Forall; [symmetry; apply sorted_perm | exact Hx].
Qed.

Lemma StronglySorted_map {A B} (f : A -> B) (R : B -> B -> Prop) (l : list A) :
  StronglySorted R (map f l) -> StronglySorted (fun a b => R (f a) (f b)) l.
Proof.
  induction l as [|a l IH]; simpl; intros Hs; [constructor |].
  inversion Hs as [|? ? Hs' Ha]; subst. constructor; [apply IH, Hs' |].
  rewrite List.Forall_forall in *. intros b Hb. apply Ha, in_map, Hb.
Qed.

(** What [genre_of] returns. *)
Lemma genre_of_Ok (release : Release) (g : str) :
  genre_of release = Ok g ->
  exists totals,
    g = join "; " (map fst totals)
    /\ Forall count_parses (genre_items release)
    /\ List.NoDup (map fst totals)
    /\ (forall name, In name (map fst totals)
                     <-> In name (map genre_name (genre_items release)))
    /\ (forall name n, In (name, n) totals -> n = count_total name (genre_items release))
    /\ StronglySorted (genre_before (genre_items release)) totals.
Proof.
  unfold genre_of. intros H. inv_bind H. injection H as <-.
  apply genre_sources_loop_Ok in Ha as [-> Hall].
  destruct (counter_invariant (genre_items release)) as (Hnd & Hnames & Htotal & Hsorted).
  simpl in Hnd, Hnames, Htotal, Hsorted.
  set (genres := foldl add_item [] (genre_items release)) in *.
  set (key := fun g : str * Z => - snd g).
  pose proof (sorted_perm key genres) as Hperm.
  exists (sorted key genres). split; [reflexivity |]. split; [exact Hall |].
  split; [| split; [| split]].
  - eapply Permutation_NoDup; [| exact Hnd].
    symmetry. apply Permutation_map, Hperm.
  - intros name. rewrite <- Hnames. split; apply Permutation_in, Permutation_map;
      [exact Hperm | symmetry; exact Hperm].
  - intros name n Hin. apply Htotal. eapply Permutation_in; [exact Hperm | exact Hin].
  - apply StronglySorted_map in Hsorted.
    apply (sorted_stable key) in Hsorted.
    eapply StronglySorted_members; [| exact Hsorted].
    intros a b _ _ [H | [H1 H2]]; unfold genre_before, key in *; [left; lia | right].
    split; [lia | exact H2].
Qed.

(** C7: with the genre flag on, the genre of the album is the names of a
    list of totals joined by "; ": every name of the two genre lists is
    there once, with the sum of the counts the lists give it, a greater
    total before a smaller one and, among equal totals, the name met first
    in the lists, the release group's list read before the release's.  The
    example gives "rock; pop; jazz". *)
Theorem album_info_genre :
  (forall (config : Config) (mbz : musicbrainzngs) (plugins : Plugins)
          (release : Release) (info : AlbumInfo.t),
      musicbrainz_genres config = true ->
      (forall r, Forall (preserves AlbumInfo.genre) (mb_album_extract plugins r)) ->
      album_info config mbz plugins release = Ok info ->
      exists totals,
        AlbumInfo.genre info = Some (join "; " (map fst totals))
        /\ Forall count_parses (genre_items release)
        /\ List.NoDup (map fst totals)
        /\ (forall name, In name (map fst totals)
                         <-> In name (map genre_name (genre_items release)))
        /\ (forall name n, In (name, n) totals ->
                           n = count_total name (genre_items release))
        /\ StronglySorted (genre_before (genre_items release)) totals)
  /\ (exists info,
         album_info config_en_fr (service_answering NetworkError) no_plugins
           rock_pop_jazz_release = Ok info
         /\ AlbumInfo.genre info = Some "rock; pop; jazz").
Proof.
  split; [| eexists; split; reflexivity].
  intros config mbz plugins release info Hflag Hp H.
  apply album_info_Ok in H as (release' & H & Hrel).
  apply album_info_body_Ok in H
    as (track_infos & index & media & artist_id & before & _ & _ & -> & _ & _ & _ & _ & Hg).
  rewrite Hflag in Hg. destruct Hg as (g & Hg & Hgenre).
  rewrite apply_updates_preserves by apply Hp. rewrite Hgenre.
  assert (genre_of release = Ok g) as Hg'
      by (destruct Hrel as [-> | (recording_list & media' & _ & ->)]; exact Hg).
  apply genre_of_Ok in Hg' as (totals & -> & Hrest).
  exists totals. split; [reflexivity | exact Hrest].
Qed.

Lemma album_info_genre_witness :
  exists info totals,
    album_info config_en_fr (service_answering NetworkError) no_plugins
      rock_pop_jazz_release = Ok info
    /\ AlbumInfo.genre info = Some "rock; pop; jazz"
    /\ AlbumInfo.genre info = Some (join "; " (map fst totals))
    /\ (forall name n, In (name, n) totals ->
                       n = count_total name (genre_items rock_pop_jazz_release))
    /\ StronglySorted (genre_before (genre_items rock_pop_jazz_release)) totals.
Proof.
  eexists.
  destruct (proj1 album_info_genre config_en_fr (service_answering NetworkError)
              no_plugins rock_pop_jazz_release _ eq_refl
              (fun _ => List.Forall_nil _) eq_refl)
    as (totals & Hg & _ & _ & _ & Ht & Hs).
  exists totals. split; [reflexivity |]. split; [reflexivity |].
  split; [exact Hg | split; [exact Ht | exact Hs]].
Defined.

(** Equal totals keep the order in which the names are met. *)
Example genre_tie_break :
  genre_of (plain_release [] []
              (Some [genre_item "b" "1"; genre_item "a" "1"])
              (Some [genre_item "c" "2"; genre_item "a" "0"]))
  = Ok "c; b; a".
Proof. reflexivity. Qed.

(** ** Releases of more than 500 tracks (C1) *)

Lemma browse_loop_pages (mbz : musicbrainzngs) (release_id : str) (db : list Recording)
    (stop : nat) :
  pages_through mbz release_id db ->
  forall fuel i acc,
    (stop - i <= fuel)%nat ->
    exists m,
      (stop <= i + m)%nat
      /\ browse_loop mbz release_id (range_from fuel i stop BROWSE_CHUNKSIZE) acc
         = Ok (acc ++ firstn m (skipn i db)).
Proof.
  intros Hsvc. induction fuel as [|fuel IH]; intros i acc Hfuel; simpl.
  - exists 0%nat. split; [lia |]. simpl. rewrite app_nil_r. reflexivity.
  - destruct (Nat.ltb_spec i stop) as [Hlt | Hge].
    + simpl. rewrite Hsvc. simpl.
      destruct (IH (i + BROWSE_CHUNKSIZE)%nat
                  (acc ++ firstn BROWSE_CHUNKSIZE (skipn i db))) as (m & Hm & ->);
        [unfold BROWSE_CHUNKSIZE; lia |].
      exists (BROWSE_CHUNKSIZE + m)%nat. split; [lia |].
      rewrite <- app_assoc. f_equal. f_equal.
      rewrite <- (drop_drop db BROWSE_CHUNKSIZE i). apply take_take_drop.
    + exists 0%nat. split; [lia |]. simpl. rewrite app_nil_r. reflexivity.
Qed.

(** When the service holds no more recordings than the release has
    tracks, the browse loop collects all of them. *)
Lemma browse_loop_all (mbz : musicbrainzngs) (release_id : str) (db : list Recording)
    (ntracks : nat) :
  pages_through mbz release_id db ->
  (List.length db <= ntracks)%nat ->
  browse_loop mbz release_id (range 0 ntracks BROWSE_CHUNKSIZE) [] = Ok db.
Proof.
  intros Hsvc Hlen. unfold range.
  destruct (browse_loop_pages mbz release_id db ntracks Hsvc ntracks 0%nat [])
    as (m & Hm & ->); [lia |].
  change (drop 0 db) with db. simpl. rewrite firstn_all2 by lia. reflexivity.
Qed.

Lemma track_map_of_snoc (l : list Recording) (r : Recording) :
  track_map_of (l ++ [r]) = <[rec_id r := r]> (track_map_of l).
Proof. unfold track_map_of. rewrite foldl_app. reflexivity. Qed.



(** The overflow step leaves the pregap track and the data tracks of a
    medium with the recordings they came with. *)
Lemma substituted_medium_other_tracks (track_map : gmap str Recording) (m m' : Medium) :
  substituted_medium track_map m m' ->
  med_pregap m' = med_pregap m /\ med_data_track_list m' = med_data_track_list m.
Proof. intros (tracks & _ & ->). split; reflexivity. Qed.






Example overflow_relations_recovered :
  match album_info default_config (paging_service recordings_of_501) no_plugins
          (release_of_501 bare_recording) with
  | Ok info =>
      List.length (AlbumInfo.tracks info) = 501%nat
      /\ forallb has_relations (AlbumInfo.tracks info) = true
  | Raise _ => False
  end
  /\ match album_info_direct default_config no_plugins (release_of_501 bare_recording) with
     | Ok info => existsb has_relations (AlbumInfo.tracks info) = false
     | Raise _ => False
     end.
Proof. vm_compute. repeat split. Qed.

(** ** Embedding cover art (C9) *)

Lemma embed_loop_spec (data : str) (kind : embedart.imagekind)
    (items : list embedart.Item) (w : embedart.World) :
  (forall item, In item items -> is_Some (embedart.audio w !! embedart.path item)) ->
  exists w',
    embedart.embed_loop data kind items w = (w', None)
    /\ embedart.images w' = embedart.images w
    /\ embedart.log w' = embedart.log w
    /\ (forall p f,
           In p (map embedart.path items) ->
           embedart.audio w !! p = Some f ->
           embedart.audio w' !! p
           = Some {| embedart.art := Some (data, kind);
                     embedart.tags := embedart.tags f |})
    /\ (forall p,
           ~ In p (map embedart.path items) ->
           embedart.audio w' !! p = embedart.audio w !! p).
Proof.
  revert w. induction items as [|item rest IH]; intros w Hopen; simpl.
  - exists w. do 3 (split; [reflexivity |]). split; [intros p f [] | reflexivity].
  - destruct (Hopen item (or_introl eq_refl)) as [f0 Hf0]. rewrite Hf0.
    set (w1 := embedart.save_art (embedart.path item) f0 data kind w).
    assert (forall p, embedart.audio w1 !! p
                      = if decide (embedart.path item = p)
                        then Some {| embedart.art := Some (data, kind);
                                     embedart.tags := embedart.tags f0 |}
                        else embedart.audio w !! p) as Hw1.
    { intros p. unfold w1, embedart.save_art. simpl. apply lookup_insert. }
    destruct (IH w1) as (w' & -> & Himg & Hlog & Hset & Hkeep).
    { intros item' Hin. rewrite Hw1. destruct (decide _); [eexists; reflexivity |].
      apply Hopen. right. exact Hin. }
    exists w'. split; [reflexivity |]. split; [exact Himg |]. split; [exact Hlog |].
    split.
    + intros p f Hp Hf.
      destruct (in_dec String.string_dec p (map embedart.path rest)) as [Hin | Hnin].
      * specialize (Hw1 p). destruct (decide (embedart.path item = p)) as [E | E].
        -- rewrite (Hset p _ Hin Hw1). subst p. rewrite Hf0 in Hf. injection Hf as <-.
           reflexivity.
        -- rewrite Hf in Hw1. apply (Hset p f Hin Hw1).
      * destruct Hp as [E | Hp]; [| contradiction].
        rewrite (Hkeep p Hnin), Hw1. destruct (decide _); [| contradiction].
        subst p. rewrite Hf0 in Hf. injection Hf as <-. reflexivity.
    + intros p Hp. rewrite (Hkeep p) by tauto. rewrite Hw1.
      destruct (decide _) as [E | E]; [| reflexivity]. exfalso. apply Hp. left. exact E.
Qed.

(** C9: when the bytes of the image are neither JPEG nor PNG, the call
    returns with one line more in the log, an error, and with every audio
    file as it was; when they are JPEG or PNG and every target file
    opens, the call returns with the bytes and their kind as the art of
    every target file, whatever art the file held, its other tags kept,
    and with every other file as it was. *)
Theorem embed_by_format (imghdr_what : str -> option str) (path : str)
    (items : list embedart.Item) (w : embedart.World) (data : str) :
  embedart.images w !! path = Some data ->
  (imghdr_what data <> Some "jpeg" ->
   imghdr_what data <> Some "png" ->
   exists w' msg,
     embedart._embed imghdr_what path items w = (w', None)
     /\ embedart.audio w' = embedart.audio w
     /\ embedart.images w' = embedart.images w
     /\ embedart.log w' = embedart.log w ++ [(embedart.ERROR, msg)])
  /\ (forall kind,
         (imghdr_what data = Some "jpeg" /\ kind = embedart.JPEG)
         \/ (imghdr_what data = Some "png" /\ kind = embedart.PNG) ->
         (forall item, In item items -> is_Some (embedart.audio w !! embedart.path item)) ->
         exists w',
           embedart._embed imghdr_what path items w = (w', None)
           /\ (forall item f,
                  In item items ->
                  embedart.audio w !! embedart.path item = Some f ->
                  embedart.audio w' !! embedart.path item
                  = Some {| embedart.art := Some (data, kind);
                            embedart.tags := embedart.tags f |})
           /\ (forall p,
                  ~ In p (map embedart.path items) ->
                  embedart.audio w' !! p = embedart.audio w !! p)
           /\ Forall (fun line => fst line <> embedart.ERROR)
                (skipn (List.length (embedart.log w)) (embedart.log w'))).
Proof.
  intros Himg. unfold embedart._embed. rewrite Himg. split.
  - intros Hj Hp. destruct (imghdr_what data) as [k|].
    + destruct (String.eqb_spec k "jpeg") as [-> | _]; [contradiction |].
      unfold str_eqb.
      destruct (String.eqb_spec k "jpeg") as [-> | _]; [contradiction |].
      destruct (String.eqb_spec k "png") as [-> | _]; [contradiction |].
      eexists _, _. repeat split.
    + eexists _, _. repeat split.
  - intros kind Hkind Hopen.
    set (w0 := embedart.log_add embedart.DEBUG "Embedding album art." w).
    destruct (embed_loop_spec data kind items w0 Hopen) as (w' & Hloop & _ & Hlog & Hset & Hkeep).
    exists w'. split.
    + destruct Hkind as [[-> ->] | [-> ->]]; exact Hloop.
    + split; [| split].
      * intros item f Hin Hf. apply Hset; [apply in_map, Hin | exact Hf].
      * exact Hkeep.
      * rewrite Hlog. unfold w0. simpl.
        rewrite skipn_app, skipn_all, Nat.sub_diag. simpl.
        constructor; [discriminate | constructor].
Qed.

Lemma music_world_opens :
  forall item, In item album_items ->
               is_Some (embedart.audio music_world !! embedart.path item).
Proof. intros item [<- | [<- | []]]; eexists; reflexivity. Qed.

Lemma embed_by_format_witness :
  (exists w' msg,
      embedart._embed sniff_first_byte "anim.gif" album_items music_world = (w', None)
      /\ embedart.audio w' = embedart.audio music_world
      /\ embedart.log w' = [(embedart.ERROR, msg)])
  /\ (exists w',
         embedart._embed sniff_first_byte "cover.png" album_items music_world = (w', None)
         /\ embedart.audio w' !! "01.mp3" = Some (tagged "One" (Some (png_bytes, embedart.PNG)))
         /\ embedart.audio w' !! "02.mp3" = Some (tagged "Two" (Some (png_bytes, embedart.PNG)))
         /\ embedart.audio w' !! "other.mp3" = Some (tagged "Other" None)).
Proof.
  split.
  - destruct (proj1 (embed_by_format sniff_first_byte "anim.gif" album_items music_world
                       gif_bytes eq_refl))
      as (w' & msg & H & Ha & _ & Hl); [discriminate | discriminate |].
    exists w', msg. split; [exact H | split; [exact Ha | exact Hl]].
  - destruct (proj2 (embed_by_format sniff_first_byte "cover.png" album_items music_world
                       png_bytes eq_refl)
                embedart.PNG (or_intror (conj eq_refl eq_refl)) music_world_opens)
      as (w' & H & Hset & Hkeep & _).
    exists w'. split; [exact H |]. split; [| split].
    + exact (Hset {| embedart.path := "01.mp3" |}
               (tagged "One" (Some ("old art", embedart.JPEG)))
               (or_introl eq_refl) eq_refl).
    + exact (Hset {| embedart.path := "02.mp3" |} (tagged "Two" None)
               (or_intror (or_introl eq_refl)) eq_refl).
    + etransitivity; [apply Hkeep | reflexivity].
      intros [H' | [H' | []]]; discriminate H'.
Defined.

(** * Further properties *)

(** ** Artist credits *)

Lemma join_empty_cons (x : str) (l : list str) : join "" (x :: l) = x +:+ join "" l.
Proof.
  unfold join. destruct l as [|y l]; simpl.
  - induction x as [|a x IH]; [reflexivity |].
    change (String a x +:+ EmptyString) with (String a (x +:+ EmptyString)).
    f_equal. exact IH.
  - reflexivity.
Qed.

Lemma append_assoc (a b c : str) : (a +:+ b) +:+ c = a +:+ (b +:+ c).
Proof.
  induction a as [|x a IH]; [reflexivity |].
  change (String x (a +:+ b) +:+ c = String x (a +:+ b +:+ c)).
  change (String x ((a +:+ b) +:+ c) = String x (a +:+ b +:+ c)).
  f_equal. exact IH.
Qed.

Lemma join_empty_app (l1 l2 : list str) : join "" (l1 ++ l2) = join "" l1 +:+ join "" l2.
Proof.
  induction l1 as [|x l1 IH].
  - reflexivity.
  - change ((x :: l1) ++ l2) with (x :: (l1 ++ l2)).
    rewrite !join_empty_cons, IH, append_assoc. reflexivity.
Qed.

Lemma flatten_loop_acc (config : Config) (credit : list CreditEl) (a s c : list str) :
  flatten_loop config credit a s c
  = (a ++ fst (fst (flatten_loop config credit [] [] [])),
     s ++ snd (fst (flatten_loop config credit [] [] [])),
     c ++ snd (flatten_loop config credit [] [] [])).
Proof.
  revert a s c. induction credit as [|el credit IH]; intros a s c.
  - simpl. rewrite !app_nil_r. reflexivity.
  - destruct el as [p | artist name]; simpl;
      match goal with
      | |- flatten_loop _ _ ?a1 ?s1 ?c1 = _ => rewrite (IH a1 s1 c1)
      end;
      match goal with
      | |- context [flatten_loop _ credit [?x] [?y] [?z]] => rewrite (IH [x] [y] [z])
      end;
      simpl; rewrite <- ?app_assoc; reflexivity.
Qed.

Lemma flatten_loop_app (config : Config) (x y : list CreditEl) :
  flatten_loop config (x ++ y) [] [] []
  = (fst (fst (flatten_loop config x [] [] [])) ++ fst (fst (flatten_loop config y [] [] [])),
     snd (fst (flatten_loop config x [] [] [])) ++ snd (fst (flatten_loop config y [] [] [])),
     snd (flatten_loop config x [] [] []) ++ snd (flatten_loop config y [] [] [])).
Proof.
  induction x as [|el x IH].
  - simpl. destruct (flatten_loop config y [] [] []) as [[? ?] ?]. reflexivity.
  - change ((el :: x) ++ y) with (el :: (x ++ y)).
    destruct el as [p | artist name]; simpl;
      rewrite (flatten_loop_acc config (x ++ y)), (flatten_loop_acc config x), IH; simpl;
      rewrite <- ?app_assoc; reflexivity.
Qed.

(** Flattening goes through concatenation: each of the three names of a
    credit made of two parts is the name of the first part followed by
    the name of the second, nothing put between them. *)
Theorem flatten_artist_credit_app (config : Config) (x y : list CreditEl) :
  _flatten_artist_credit config (x ++ y)
  = (fst (fst (_flatten_artist_credit config x)) +:+ fst (fst (_flatten_artist_credit config y)),
     snd (fst (_flatten_artist_credit config x)) +:+ snd (fst (_flatten_artist_credit config y)),
     snd (_flatten_artist_credit config x) +:+ snd (_flatten_artist_credit config y)).
Proof.
  unfold _flatten_artist_credit. rewrite flatten_loop_app.
  destruct (flatten_loop config x [] [] []) as [[a1 s1] c1].
  destruct (flatten_loop config y [] [] []) as [[a2 s2] c2].
  simpl. rewrite !join_empty_app. reflexivity.
Qed.

Lemma preferred_alias_no_language (config : Config) (aliases : list Alias) :
  import_languages config = [] -> _preferred_alias config aliases = None.
Proof.
  intros H. unfold _preferred_alias. rewrite H. destruct aliases; reflexivity.
Qed.

(** With no language configured no alias is used, whatever aliases the
    artists carry: the artist name is the join phrases and the artists'
    own names in order; the sort name takes each artist's sort name, or
    the name when the artist has none; the credit takes the name the
    artist is credited as, or the artist's name when there is none. *)
Theorem flatten_artist_credit_no_language (config : Config) (credit : list CreditEl) :
  import_languages config = [] ->
  _flatten_artist_credit config credit
  = (join "" (map canonical_part credit),
     join "" (map sort_part_of credit),
     join "" (map credited_part credit)).
Proof.
  intros Hlang. unfold _flatten_artist_credit.
  assert (flatten_loop config credit [] [] []
          = (map canonical_part credit, map sort_part_of credit, map credited_part credit))
    as ->; [| reflexivity].
  induction credit as [|el credit IH]; [reflexivity |].
  destruct el as [p | artist name]; simpl; rewrite flatten_loop_acc, IH; simpl.
  - reflexivity.
  - rewrite !(preferred_alias_no_language config _ Hlang). reflexivity.
Qed.

Lemma flatten_artist_credit_no_language_witness :
  _flatten_artist_credit default_config credit_a_and_b = ("A & B", "A, The & B", "A & Bee").
Proof. apply (flatten_artist_credit_no_language default_config credit_a_and_b). reflexivity. Defined.

(** ** Release events *)

Lemma event_for_country_matches (country : str) (event : ReleaseEvent) (date : str) :
  event_for_country country event = Some date <-> event_matches country event date.
Proof.
  unfold event_for_country, event_matches. split.
  - destruct (ev_area event) as [area|]; [| discriminate].
    destruct (area_iso_3166_1_code_list area) as [codes|] eqn:Ec; [| discriminate].
    destruct (str_in country codes) eqn:E; [| discriminate].
    intros H. exists area, codes. apply str_in_In in E. repeat split; assumption.
  - intros (area & codes & -> & -> & Hin & Hd). apply str_in_In in Hin. rewrite Hin. exact Hd.
Qed.

Lemma events_search_spec (country : str) (events : list ReleaseEvent) :
  match events_search country events with
  | Some date =>
      exists before event after,
        events = before ++ event :: after
        /\ event_matches country event date
        /\ (forall e d, In e before -> ~ event_matches country e d)
  | None => forall e d, In e events -> ~ event_matches country e d
  end.
Proof.
  induction events as [|event events IH]; simpl.
  - intros e d [].
  - destruct (event_for_country country event) as [date|] eqn:E.
    + exists [], event, events. split; [reflexivity |].
      split; [apply event_for_country_matches, E | intros e d []].
    + assert (forall d, ~ event_matches country event d) as Hno.
      { intros d Hd. apply event_for_country_matches in Hd. congruence. }
      destruct (events_search country events) as [date|].
      * destruct IH as (before & ev & after & -> & Hm & Hb).
        exists (event :: before), ev, after. split; [reflexivity |].
        split; [exact Hm |]. intros e d [<- | Hin]; [apply Hno | apply Hb, Hin].
      * intros e d [<- | Hin]; [apply Hno | apply IH, Hin].
Qed.

(** The release event chosen is the first event, in the order of the
    release, that lists the first preferred country, in the order of the
    configuration, that any dated event lists; when no preferred country
    is listed by a dated event, the release's own country and date are
    returned as they are, set or not. *)
Theorem preferred_release_event_rule (config : Config) (release : Release) :
  let events := default [] (rel_release_event_list release) in
  (exists earlier country later before event after date,
      match_preferred_countries config = earlier ++ country :: later
      /\ events = before ++ event :: after
      /\ event_matches country event date
      /\ (forall e d, In e before -> ~ event_matches country e d)
      /\ (forall c e d, In c earlier -> In e events -> ~ event_matches c e d)
      /\ _preferred_release_event config release = (Some country, Some date))
  \/ ((forall c e d, In c (match_preferred_countries config) -> In e events ->
                     ~ event_matches c e d)
      /\ _preferred_release_event config release = (rel_country release, rel_date release)).
Proof.
  intros events. unfold _preferred_release_event.
  induction (match_preferred_countries config) as [|country countries IH]; simpl.
  - right. split; [intros c e d [] | reflexivity].
  - fold events. pose proof (events_search_spec country events) as Hs.
    destruct (events_search country events) as [date|].
    + left. destruct Hs as (before & event & after & He & Hm & Hb).
      exists [], country, countries, before, event, after, date.
      repeat split; try assumption. intros c e d [].
    + destruct IH as [(earlier & c & later & before & event & after & date
                        & -> & He & Hm & Hb & Hearlier & Hres) | [Hnone Hres]].
      * left. exists (country :: earlier), c, later, before, event, after, date.
        repeat split; try assumption.
        intros c' e d [<- | Hin] Hine; [apply Hs, Hine | apply Hearlier; assumption].
      * right. split; [| exact Hres].
        intros c e d [<- | Hin] Hine; [apply Hs, Hine | apply Hnone; assumption].
Qed.

(** ** The relations of a recording *)

Lemma last_or_cons {A} (x : A) (l : list A) (d : option A) :
  last_or (x :: l) d = last_or l (Some x).
Proof. unfold last_or. rewrite last_cons. destruct (last l); reflexivity. Qed.

Lemma last_map {A B} (f : A -> B) (l : list A) : last (map f l) = f <$> last l.
Proof.
  induction l as [|x l IH]; [reflexivity |].
  simpl map. rewrite !last_cons, IH. destruct (last l); reflexivity.
Qed.

Lemma work_artists_loop_Ok (relations : list ArtistRelation)
    (lyricist composer composer_sort lyricist' composer' composer_sort' : list str) :
  work_artists_loop relations lyricist composer composer_sort
  = Ok (lyricist', composer', composer_sort') ->
  lyricist' = lyricist ++ related_names "lyricist" relations
  /\ composer' = composer ++ related_names "composer" relations
  /\ composer_sort'
     = composer_sort
       ++ map (fun r => default "" (artist_sort_name (ar_artist r)))
              (List.filter (relation_has_type "composer") relations).
Proof.
  revert lyricist composer composer_sort lyricist' composer' composer_sort'.
  induction relations as [|r relations IH];
    intros lyricist composer composer_sort lyricist' composer' composer_sort' H;
    simpl in H.
  - injection H as <- <- <-. unfold related_names. simpl. rewrite !app_nil_r. repeat split; reflexivity.
  - unfold related_names, relation_has_type in *. simpl.
    destruct (ar_type r) as [ty|]; [| apply IH, H].
    destruct (str_eqb ty "lyricist") eqn:El.
    + apply str_eqb_eq in El. subst ty. simpl.
      apply IH in H as (-> & -> & ->). rewrite <- ?app_assoc. repeat split; reflexivity.
    + destruct (str_eqb ty "composer") eqn:Ec; [| apply IH, H].
      inv_bind H. destruct (artist_sort_name (ar_artist r)) as [sn|] eqn:Es; [| discriminate].
      injection Ha as <-. simpl. rewrite Es. simpl.
      apply IH in H as (-> & -> & ->). rewrite <- ?app_assoc. repeat split; reflexivity.
Qed.

Lemma work_relations_loop_Ok (relations : list WorkRelation) (st st' : work_state) :
  work_relations_loop relations st = Ok st' ->
  let works :=
    map wr_work (List.filter (fun wr => str_eqb (wr_type wr) "performance") relations) in
  ws_lyricist st' = ws_lyricist st ++ concat (map (work_related "lyricist") works)
  /\ ws_composer st' = ws_composer st ++ concat (map (work_related "composer") works)
  /\ ws_composer_sort st'
     = ws_composer_sort st ++ concat (map work_composer_sort_names works)
  /\ ws_work st' = last_or (map (fun w => work_title w) works) (ws_work st)
  /\ ws_mb_workid st' = last_or (map (fun w => work_id w) works) (ws_mb_workid st)
  /\ ws_work_disambig st'
     = last_or (omap work_disambiguation works) (ws_work_disambig st).
Proof.
  revert st. induction relations as [|wr relations IH]; intros st H; simpl in H.
  - injection H as <-. simpl. rewrite !app_nil_r. repeat split.
  - simpl. destruct (str_eqb (wr_type wr) "performance"); simpl in *; [| apply IH, H].
    inv_bind H. destruct a as [[lyricist composer] composer_sort].
    apply work_artists_loop_Ok in Ha as (-> & -> & ->).
    apply IH in H as (Hl & Hc & Hcs & Hw & Hid & Hd). simpl in *.
    rewrite Hl, Hc, Hcs, Hw, Hid, Hd, <- !app_assoc, !last_or_cons.
    repeat split.
    destruct (work_disambiguation (wr_work wr)); [rewrite last_or_cons |]; reflexivity.
Qed.

Lemma arranger_loop_spec (relations : list ArtistRelation) (arranger : list str) :
  arranger_loop relations arranger = arranger ++ related_names "arranger" relations.
Proof.
  revert arranger. induction relations as [|r relations IH]; intros arranger; simpl.
  - unfold related_names. simpl. rewrite app_nil_r. reflexivity.
  - rewrite IH. unfold related_names, relation_has_type. simpl.
    destruct (ar_type r) as [ty|]; [| reflexivity].
    destruct (str_eqb ty "arranger"); simpl; [rewrite <- app_assoc |]; reflexivity.
Qed.

(** What [track_info] returns, before the updates of the plugins. *)
Lemma track_info_Ok (config : Config) (plugins : Plugins) (recording : Recording)
    (index medium medium_index medium_total : option Z) (info : TrackInfo.t) :
  track_info config plugins recording index medium medium_index medium_total = Ok info ->
  exists before_plugins st,
    info = apply_updates before_plugins (mb_track_extract plugins recording)
    /\ work_relations_loop (default [] (rec_work_relation_list recording))
         {| ws_work := None; ws_mb_workid := None; ws_work_disambig := None;
            ws_lyricist := []; ws_composer := []; ws_composer_sort := [] |} = Ok st
    /\ Some (TrackInfo.title before_plugins) = Some (rec_title recording)
    /\ TrackInfo.track_id before_plugins = Some (rec_id recording)
    /\ TrackInfo.index before_plugins = index
    /\ TrackInfo.medium before_plugins = medium
    /\ TrackInfo.medium_index before_plugins = medium_index
    /\ TrackInfo.medium_total before_plugins = medium_total
    /\ TrackInfo.work before_plugins = ws_work st
    /\ TrackInfo.mb_workid before_plugins = ws_mb_workid st
    /\ TrackInfo.work_disambig before_plugins = ws_work_disambig st
    /\ TrackInfo.lyricist before_plugins = joined_if_any ", " (ws_lyricist st)
    /\ TrackInfo.composer before_plugins = joined_if_any ", " (ws_composer st)
    /\ TrackInfo.composer_sort before_plugins
       = match ws_composer st with
         | [] => None
         | _ => Some (join ", " (ws_composer_sort st))
         end
    /\ TrackInfo.arranger before_plugins
       = joined_if_any ", "
           (related_names "arranger" (default [] (rec_artist_relation_list recording))).
Proof.
  intros H. unfold track_info in H.
  inv_bind H. inv_bind H. destruct a0 as [[[artist artist_sort] artist_credit] artist_id'].
  inv_bind H. inv_bind H. inv_bind H.
  injection H as <-. unfold decode. eexists _, a2.
  split; [reflexivity |]. split; [exact Ha3 |]. simpl.
  rewrite arranger_loop_spec. simpl.
  destruct (rec_title recording); [| discriminate]. injection Ha as <-.
  repeat split.
Qed.

(** A relation of the recording's own list that has no type makes
    [track_info] raise [KeyError], where the loop that collects the
    arrangers from the same list would pass over it. *)
Theorem track_info_untyped_relation (config : Config) (plugins : Plugins)
    (recording : Recording) (index medium medium_index medium_total : option Z)
    (relations : list ArtistRelation) (relation : ArtistRelation) :
  rec_title recording <> None ->
  (forall p rest, rec_artist_credit recording <> Some (JoinPhrase p :: rest)) ->
  rec_artist_relation_list recording = Some relations ->
  In relation relations ->
  ar_type relation = None ->
  track_info config plugins recording index medium medium_index medium_total
  = Raise (KeyError "type").
Proof.
  intros Ht Hc Hr Hin Hty.
  assert (forall l acc, In relation l ->
                        related_artists_loop l "remixer" acc = Raise (KeyError "type"))
    as Hloop.
  { intros l. induction l as [|x l IH]; intros acc Hl; [contradiction |].
    simpl. destruct Hl as [-> | Hl].
    - rewrite Hty. reflexivity.
    - destruct (ar_type x); [apply IH, Hl | reflexivity]. }
  unfold track_info.
  destruct (rec_title recording) as [title|]; [| contradiction]. simpl.
  rewrite Hr. destruct relations as [|r relations]; [contradiction |].
  unfold _get_related_artist_names. rewrite (Hloop _ _ Hin).
  destruct (rec_artist_credit recording) as [[|[p | artist name] credit]|] eqn:Ecred;
    try reflexivity.
  - exfalso. eapply Hc. reflexivity.
  - destruct (_flatten_artist_credit config _) as [[a s] c]. reflexivity.
Qed.

Lemma track_info_untyped_relation_witness :
  track_info default_config no_plugins
    (with_artist_relations (plain_recording "b1a9c0e9-d987-4042-ae91-78d6a3267d69" "Aria")
       [untyped_relation]) None None None None
  = Raise (KeyError "type").
Proof.
  apply (track_info_untyped_relation default_config no_plugins _ None None None None
           [untyped_relation] untyped_relation);
    [discriminate | discriminate | reflexivity | left; reflexivity | reflexivity].
Defined.

(** The names [track_info] collects: the lyricists and the composers of
    all the works the recording is a performance of, work after work, and
    the arrangers of the recording itself, each list joined by ", " and
    the attribute left unset when the list is empty; the sort names of the
    composers are set exactly when the composers are. *)
Theorem track_info_collected_names (config : Config) (plugins : Plugins)
    (recording : Recording) (index medium medium_index medium_total : option Z)
    (info : TrackInfo.t) :
  Forall (fun u => preserves TrackInfo.lyricist u /\ preserves TrackInfo.composer u
                   /\ preserves TrackInfo.composer_sort u
                   /\ preserves TrackInfo.arranger u)
    (mb_track_extract plugins recording) ->
  track_info config plugins recording index medium medium_index medium_total = Ok info ->
  let works := performance_works recording in
  TrackInfo.lyricist info
  = joined_if_any ", " (concat (map (work_related "lyricist") works))
  /\ TrackInfo.composer info
     = joined_if_any ", " (concat (map (work_related "composer") works))
  /\ TrackInfo.composer_sort info
     = match concat (map (work_related "composer") works) with
       | [] => None
       | _ => Some (join ", " (concat (map work_composer_sort_names works)))
       end
  /\ TrackInfo.arranger info
     = joined_if_any ", "
         (related_names "arranger" (default [] (rec_artist_relation_list recording))).
Proof.
  intros Hp H. apply track_info_Ok in H
    as (before & st & -> & Hst & _ & _ & _ & _ & _ & _ & _ & _ & _ & Hl & Hc & Hcs & Ha).
  apply work_relations_loop_Ok in Hst as (Hsl & Hsc & Hscs & _). simpl in Hsl, Hsc, Hscs.
  rewrite !apply_updates_preserves
    by (eapply List.Forall_impl; [| apply Hp]; simpl; tauto).
  rewrite Hl, Hc, Hcs, Ha, Hsl, Hsc, Hscs. repeat split.
Qed.

Lemma track_info_collected_names_witness :
  exists info,
    track_info default_config no_plugins (full_recording 0) None None None None = Ok info
    /\ TrackInfo.lyricist info = Some "Lyle Lyricist"
    /\ TrackInfo.composer info = Some "Cora Composer"
    /\ TrackInfo.composer_sort info = Some "Cora Composer"
    /\ TrackInfo.arranger info = Some "Ann Arranger".
Proof.
  eexists. split; [reflexivity |].
  exact (track_info_collected_names default_config no_plugins (full_recording 0)
           None None None None _ (List.Forall_nil _) eq_refl).
Defined.

(** The work of a track is the last work, in the order of the work
    relations, that the recording is a performance of, with its
    identifier; the disambiguation is that of the last such work that has
    one, which may be an earlier work. *)
Theorem track_info_last_work (config : Config) (plugins : Plugins)
    (recording : Recording) (index medium medium_index medium_total : option Z)
    (info : TrackInfo.t) :
  Forall (fun u => preserves TrackInfo.work u /\ preserves TrackInfo.mb_workid u
                   /\ preserves TrackInfo.work_disambig u)
    (mb_track_extract plugins recording) ->
  track_info config plugins recording index medium medium_index medium_total = Ok info ->
  let works := performance_works recording in
  TrackInfo.work info = work_title <$> last works
  /\ TrackInfo.mb_workid info = work_id <$> last works
  /\ TrackInfo.work_disambig info = last (omap work_disambiguation works).
Proof.
  intros Hp H. apply track_info_Ok in H
    as (before & st & -> & Hst & _ & _ & _ & _ & _ & _ & Hw & Hid & Hd & _).
  apply work_relations_loop_Ok in Hst as (_ & _ & _ & Hsw & Hsid & Hsd).
  simpl in Hsw, Hsid, Hsd.
  rewrite !apply_updates_preserves
    by (eapply List.Forall_impl; [| apply Hp]; simpl; tauto).
  rewrite Hw, Hid, Hd, Hsw, Hsid, Hsd. unfold last_or. fold (performance_works recording).
  rewrite !last_map.
  repeat split; destruct (last _); reflexivity.
Qed.

Lemma track_info_last_work_witness :
  exists info,
    track_info default_config no_plugins two_work_recording None None None None = Ok info
    /\ TrackInfo.work info = Some "Second"
    /\ TrackInfo.mb_workid info = Some "w-2"
    /\ TrackInfo.work_disambig info = Some "the early one".
Proof.
  eexists. split; [reflexivity |].
  exact (track_info_last_work default_config no_plugins two_work_recording
           None None None None _ (List.Forall_nil _) eq_refl).
Defined.

(** ** The tracks of an album *)

Lemma indices_from_S (start : Z) (n : nat) :
  indices_from start (S n) = start :: indices_from (start + 1) n.
Proof.
  unfold indices_from. simpl. rewrite Z.add_0_r. f_equal.
  rewrite <- seq_shift, map_map. apply map_ext. intros k. lia.
Qed.

Lemma indices_from_app (start : Z) (n m : nat) :
  indices_from start (n + m)
  = indices_from start n ++ indices_from (start + Z.of_nat n) m.
Proof.
  revert start. induction n as [|n IH]; intros start.
  - simpl. rewrite Z.add_0_r. reflexivity.
  - change (S n + m)%nat with (S (n + m)). rewrite !indices_from_S, IH. simpl.
    do 3 f_equal. lia.
Qed.

Lemma tracks_loop_kept (config : Config) (plugins : Plugins) (medium : Medium)
    (all_tracks : list Track) (track_infos track_infos' : list TrackInfo.t)
    (index index' : Z) :
  tracks_loop config plugins medium (med_title medium) (med_format medium)
    (track_count_of config medium) all_tracks track_infos index
  = Ok (track_infos', index') ->
  exists pairs,
    track_infos' = track_infos ++ map snd pairs
    /\ map fst pairs = indices_from (index + 1) (List.length pairs)
    /\ index' = index + Z.of_nat (List.length pairs)
    /\ Forall2 (mapped_as config plugins) (map (pair medium) (kept config all_tracks)) pairs.
Proof.
  revert track_infos index.
  induction all_tracks as [|track rest IH]; intros track_infos index H; simpl in H.
  - injection H as <- <-. exists []. simpl. rewrite app_nil_r, Z.add_0_r.
    repeat split. constructor.
  - unfold kept. simpl. destruct (skipped_title track); [apply IH, H |].
    destruct (skipped_video config track); [apply IH, H |]. simpl.
    inv_bind H. apply IH in H as (pairs & -> & Hi & -> & Hf).
    exists ((index + 1, a) :: pairs). simpl. rewrite <- app_assoc, indices_from_S, Hi.
    repeat split; [lia |]. constructor; [exact Ha | exact Hf].
Qed.

Lemma media_loop_kept (config : Config) (plugins : Plugins) (media media' : list Medium)
    (track_infos track_infos' : list TrackInfo.t) (index index' : Z) :
  media_loop config plugins media track_infos index = Ok (track_infos', index', media') ->
  exists pairs,
    track_infos' = track_infos ++ map snd pairs
    /\ map fst pairs = indices_from (index + 1) (List.length pairs)
    /\ index' = index + Z.of_nat (List.length pairs)
    /\ Forall2 (mapped_as config plugins) (tracks_read config media) pairs.
Proof.
  revert media' track_infos index.
  induction media as [|medium rest IH]; intros media' track_infos index H; simpl in H.
  - injection H as <- <- <-. exists []. simpl. rewrite app_nil_r, Z.add_0_r.
    repeat split. constructor.
  - simpl. destruct (ignored_medium config medium).
    + inv_bind H. destruct a as [[tis idx] rest']. injection H as <- <- <-.
      apply IH in Ha. exact Ha.
    + inv_bind H. destruct a as [tis idx]. inv_bind H. destruct a as [[tis' idx''] rest'].
      injection H as <- <- <-.
      apply tracks_loop_kept in Ha as (pairs1 & -> & Hi1 & -> & Hf1).
      apply IH in Ha0 as (pairs2 & -> & Hi2 & -> & Hf2).
      exists (pairs1 ++ pairs2).
      rewrite !map_app, length_app, indices_from_app, Hi1, Hi2, <- app_assoc.
      repeat split.
      * do 2 f_equal. lia.
      * rewrite Nat2Z.inj_add. lia.
      * apply Forall2_app; assumption.
Qed.

(** What [map_track] sets after the plugins have had their say. *)
Lemma map_track_own (config : Config) (plugins : Plugins) (medium : Medium)
    (disctitle format : option str) (track_count index : Z) (track : Track)
    (ti : TrackInfo.t) :
  map_track config plugins medium disctitle format track_count index track = Ok ti ->
  TrackInfo.release_track_id ti = Some (trk_id track)
  /\ TrackInfo.track_alt ti = Some (trk_number track)
  /\ TrackInfo.disctitle ti = disctitle
  /\ TrackInfo.media ti = format
  /\ (forall title, trk_title track = Some title -> nonempty title = true ->
                    TrackInfo.title ti = Some title)
  /\ exists medium_position track_position info,
       int (med_position medium) = Ok medium_position
       /\ int (trk_position track) = Ok track_position
       /\ track_info config plugins (trk_recording track) (Some index)
            (Some medium_position) (Some track_position) (Some track_count) = Ok info
       /\ TrackInfo.index ti = TrackInfo.index info
       /\ TrackInfo.medium ti = TrackInfo.medium info
       /\ TrackInfo.medium_index ti = TrackInfo.medium_index info
       /\ TrackInfo.medium_total ti = TrackInfo.medium_total info.
Proof.
  intros H. unfold map_track in H.
  inv_bind H. inv_bind H. inv_bind H.
  inv_bind H. destruct a2 as [[[artist artist_sort] artist_credit] artist_id'].
  inv_bind H. injection H as <-. simpl.
  repeat split.
  - intros title -> ->. reflexivity.
  - exists a, a0, a1. repeat split; assumption.
Qed.

Lemma track_info_numbers (config : Config) (plugins : Plugins) (recording : Recording)
    (index medium medium_index medium_total : option Z) (info : TrackInfo.t) :
  track_plugins_keep_numbers plugins ->
  track_info config plugins recording index medium medium_index medium_total = Ok info ->
  TrackInfo.index info = index /\ TrackInfo.medium info = medium
  /\ TrackInfo.medium_index info = medium_index
  /\ TrackInfo.medium_total info = medium_total.
Proof.
  intros Hp H. apply track_info_Ok in H
    as (before & st & -> & _ & _ & _ & Hi & Hm & Hmi & Hmt & _).
  rewrite !apply_updates_preserves
    by (eapply List.Forall_impl; [| apply Hp]; simpl; tauto).
  auto.
Qed.

(** The tracks of the album as [album_info] read them. *)
Lemma album_info_tracks (config : Config) (mbz : musicbrainzngs) (plugins : Plugins)
    (release : Release) (info : AlbumInfo.t) :
  (forall r, Forall (preserves AlbumInfo.tracks) (mb_album_extract plugins r)) ->
  album_info config mbz plugins release = Ok info ->
  exists media pairs,
    (media = rel_medium_list release
     \/ (BROWSE_MAXTRACKS < ntracks_of release)%nat)
    /\ AlbumInfo.tracks info = map snd pairs
    /\ map fst pairs = indices_from 1 (List.length pairs)
    /\ Forall2 (mapped_as config plugins) (tracks_read config media) pairs.
Proof.
  intros Hp H. unfold album_info in H. inv_bind H.
  apply album_info_body_Ok in H
    as (track_infos & index & media & artist_id & before & Hloop & _ & -> & Htracks & _).
  rewrite apply_updates_preserves by apply Hp. rewrite Htracks.
  apply media_loop_kept in Hloop as (pairs & -> & Hi & _ & Hf).
  exists (rel_medium_list a), pairs. repeat split; try assumption.
  destruct (Nat.ltb_spec BROWSE_MAXTRACKS (ntracks_of release)) as [Hbig | Hsmall].
  - right. exact Hbig.
  - left. injection Ha as <-. reflexivity.
Qed.

Lemma Forall2_map_snd {A B C} (P : A -> B * C -> Prop) (Q : A -> C -> Prop)
    (l : list A) (pairs : list (B * C)) :
  (forall a p, P a p -> Q a (snd p)) ->
  Forall2 P l pairs -> Forall2 Q l (map snd pairs).
Proof.
  intros HPQ H. induction H as [|a p l pairs Hp H IH]; simpl; constructor; auto.
Qed.

Lemma Forall2_right {A B} (P : A -> B -> Prop) (Q : B -> Prop) (l : list A) (k : list B) :
  (forall a b, P a b -> Q b) -> Forall2 P l k -> Forall Q k.
Proof.
  intros HPQ H. induction H as [|a b l k Hab H IH]; constructor; eauto.
Qed.

Lemma mapped_as_numbers (config : Config) (plugins : Plugins) (mt : Medium * Track)
    (p : Z * TrackInfo.t) :
  track_plugins_keep_numbers plugins ->
  mapped_as config plugins mt p ->
  TrackInfo.index (snd p) = Some (fst p)
  /\ TrackInfo.medium_total (snd p) = Some (track_count_of config (fst mt))
  /\ (exists n, TrackInfo.medium (snd p) = Some n /\ int (med_position (fst mt)) = Ok n)
  /\ (exists n, TrackInfo.medium_index (snd p) = Some n
                /\ int (trk_position (snd mt)) = Ok n).
Proof.
  intros Hp H. apply map_track_own in H
    as (_ & _ & _ & _ & _ & mp & tp & info & Hmp & Htp & Hinfo & -> & -> & -> & ->).
  apply (track_info_numbers _ _ _ _ _ _ _ _ Hp) in Hinfo as (-> & -> & -> & ->).
  repeat split; eauto.
Qed.

(** The overall index of the tracks of an album counts from 1 without a
    gap, across the media and past the tracks that are skipped and the
    media that are ignored. *)
Theorem album_info_indices (config : Config) (mbz : musicbrainzngs) (plugins : Plugins)
    (release : Release) (info : AlbumInfo.t) :
  track_plugins_keep_numbers plugins ->
  (forall r, Forall (preserves AlbumInfo.tracks) (mb_album_extract plugins r)) ->
  album_info config mbz plugins release = Ok info ->
  map TrackInfo.index (AlbumInfo.tracks info)
  = map Some (indices_from 1 (List.length (AlbumInfo.tracks info))).
Proof.
  intros Hpt Hpa H.
  apply (album_info_tracks _ _ _ _ _ Hpa) in H as (media & pairs & _ & -> & Hi & Hf).
  rewrite length_map, <- Hi. clear Hi.
  induction Hf as [|mt p l pairs Hp Hf IH]; [reflexivity |].
  simpl. rewrite IH. f_equal. apply (mapped_as_numbers _ _ _ _ Hpt Hp).
Qed.

Lemma no_plugins_keep_numbers : track_plugins_keep_numbers no_plugins.
Proof. intros recording. constructor. Qed.

Lemma album_info_indices_witness :
  exists info,
    album_info default_config (service_answering NetworkError) no_plugins two_media_release
    = Ok info
    /\ map TrackInfo.title (AlbumInfo.tracks info)
       = [Some "Intro"; Some "First"; Some "Second"]
    /\ map TrackInfo.index (AlbumInfo.tracks info) = [Some 1; Some 2; Some 3].
Proof.
  eexists. split; [reflexivity |]. split; [reflexivity |].
  exact (album_info_indices default_config (service_answering NetworkError) no_plugins
           two_media_release _ no_plugins_keep_numbers (fun _ => List.Forall_nil _) eq_refl).
Defined.

(** The four numbers that place a track on a release come together: every
    track of an album has its overall index, its medium, its index on the
    medium and the medium's total, and a track fetched on its own has none
    of them. *)
Theorem release_context_all_or_nothing (config : Config) (mbz : musicbrainzngs)
    (plugins : Plugins) :
  track_plugins_keep_numbers plugins ->
  (forall r, Forall (preserves AlbumInfo.tracks) (mb_album_extract plugins r)) ->
  (forall release info,
      album_info config mbz plugins release = Ok info ->
      Forall (fun ti => is_Some (TrackInfo.index ti) /\ is_Some (TrackInfo.medium ti)
                        /\ is_Some (TrackInfo.medium_index ti)
                        /\ is_Some (TrackInfo.medium_total ti))
        (AlbumInfo.tracks info))
  /\ (forall s info,
         track_for_id config mbz plugins s = Ok (Some info) ->
         TrackInfo.index info = None /\ TrackInfo.medium info = None
         /\ TrackInfo.medium_index info = None /\ TrackInfo.medium_total info = None).
Proof.
  intros Hpt Hpa. split.
  - intros release info H.
    apply (album_info_tracks _ _ _ _ _ Hpa) in H as (media & pairs & _ & -> & _ & Hf).
    apply List.Forall_map. eapply Forall2_right; [| exact Hf].
    intros mt p Hp. simpl.
    destruct (mapped_as_numbers _ _ _ _ Hpt Hp) as (-> & -> & (n & -> & _) & (n' & -> & _)).
    repeat split; eexists; reflexivity.
  - intros s info H. unfold track_for_id in H.
    destruct (_parse_id s) as [trackid|]; [| discriminate].
    destruct (negb (nonempty trackid)); [discriminate |].
    destruct (get_recording_by_id mbz trackid (TRACK_INCLUDES mbz)) as [recording | e].
    + inv_bind H. injection H as <-.
      apply (track_info_numbers _ _ _ _ _ _ _ _ Hpt Ha).
    + destruct e; try discriminate. destruct (isinstance_ResponseError e); discriminate.
Qed.

Lemma release_context_all_or_nothing_witness :
  (exists info,
      album_info default_config (service_with_recording arranged_recording) no_plugins
        two_media_release = Ok info
      /\ Forall (fun ti => is_Some (TrackInfo.index ti) /\ is_Some (TrackInfo.medium ti)
                           /\ is_Some (TrackInfo.medium_index ti)
                           /\ is_Some (TrackInfo.medium_total ti))
           (AlbumInfo.tracks info))
  /\ (exists info,
         track_for_id default_config (service_with_recording arranged_recording) no_plugins
           "b1a9c0e9-d987-4042-ae91-78d6a3267d69" = Ok (Some info)
         /\ TrackInfo.index info = None /\ TrackInfo.medium info = None
         /\ TrackInfo.medium_index info = None /\ TrackInfo.medium_total info = None).
Proof.
  pose proof (release_context_all_or_nothing default_config
                (service_with_recording arranged_recording) no_plugins
                no_plugins_keep_numbers (fun _ => List.Forall_nil _)) as [Halbum Htrack].
  split.
  - eexists. split; [reflexivity |]. apply (Halbum two_media_release). reflexivity.
  - eexists. split; [reflexivity |].
    apply (Htrack "b1a9c0e9-d987-4042-ae91-78d6a3267d69"). reflexivity.
Defined.

(** On a release of at most 500 tracks the track infos are, one for one
    and in this order, the tracks the mapper reads: medium after medium
    but for the ignored media, and on each medium the pregap track, the
    tracks and, unless data tracks are ignored, the data tracks, but for
    those with the placeholder title and the videos that are ignored.
    Each carries the identifier and the number of its track and the title
    and format of its medium, and the title of the track when the track
    has one, whatever the recording and the plugins say. *)
Theorem album_info_tracks_in_order (config : Config) (mbz : musicbrainzngs)
    (plugins : Plugins) (release : Release) (info : AlbumInfo.t) :
  (ntracks_of release <= BROWSE_MAXTRACKS)%nat ->
  (forall r, Forall (preserves AlbumInfo.tracks) (mb_album_extract plugins r)) ->
  album_info config mbz plugins release = Ok info ->
  Forall2 from_track (tracks_read config (rel_medium_list release)) (AlbumInfo.tracks info).
Proof.
  intros Hsmall Hpa H.
  apply (album_info_tracks _ _ _ _ _ Hpa) in H as (media & pairs & Hm & -> & _ & Hf).
  destruct Hm as [-> | Hbig]; [| lia].
  eapply Forall2_map_snd; [| exact Hf].
  intros mt p Hp. apply map_track_own in Hp as (H1 & H2 & H3 & H4 & H5 & _).
  repeat split; assumption.
Qed.

Lemma album_info_tracks_in_order_witness :
  exists info,
    album_info default_config (service_answering NetworkError) no_plugins pregap_release
    = Ok info
    /\ Forall2 from_track (tracks_read default_config (rel_medium_list pregap_release))
         (AlbumInfo.tracks info)
    /\ map (fun mt => trk_number (snd mt))
         (tracks_read default_config (rel_medium_list pregap_release)) = ["0"; "A1"; "A2"].
Proof.
  eexists. split; [reflexivity |]. split; [| reflexivity].
  apply (album_info_tracks_in_order default_config (service_answering NetworkError)
           no_plugins pregap_release);
    [apply Nat.leb_le; reflexivity | intros r; constructor | reflexivity].
Defined.

(** A release whose artist credit is empty, or starts with a join phrase,
    is never mapped: the identifier of the album artist is read from the
    first element of the credit, as an artist. *)
Theorem album_info_needs_first_artist (config : Config) (mbz : musicbrainzngs)
    (plugins : Plugins) (release : Release) :
  (rel_artist_credit release = []
   \/ exists p rest, rel_artist_credit release = JoinPhrase p :: rest) ->
  forall info, album_info config mbz plugins release <> Ok info.
Proof.
  intros Hcredit info H. apply album_info_Ok in H as (release' & H & Hrel).
  assert (rel_artist_credit release' = rel_artist_credit release) as Hc
      by (destruct Hrel as [-> | (recording_list & media & _ & ->)]; reflexivity).
  apply album_info_body_Ok in H
    as (track_infos & index & media & artist_id & before & _ & Hid & _).
  rewrite Hc in Hid. destruct Hcredit as [E | (p & rest & E)]; rewrite E in Hid; discriminate.
Qed.

Lemma album_info_needs_first_artist_witness :
  album_info default_config (service_answering NetworkError) no_plugins
    (plain_release [] [plain_medium "1" two_tracks] None None)
  = Raise IndexError
  /\ forall info,
       album_info default_config (service_answering NetworkError) no_plugins
         (plain_release [JoinPhrase "feat. "] [plain_medium "1" two_tracks] None None)
       <> Ok info.
Proof.
  split; [reflexivity |].
  apply album_info_needs_first_artist. right. eexists _, _. reflexivity.
Defined.

(** ** The attributes of an album *)

Lemma set_date_str_option_slot (info : AlbumInfo.t) (date_str : option str)
    (original : bool) (k : date_slot) :
  slot_value original k (_set_date_str info date_str original)
  = match parsed date_str k with
    | Some v => Some v
    | None => slot_value original k info
    end
  /\ slot_value (negb original) k (_set_date_str info date_str original)
     = slot_value (negb original) k info.
Proof.
  unfold _set_date_str, parsed. destruct date_str as [s|]; [| split; reflexivity].
  destruct (nonempty s) eqn:E.
  - apply date_keys_loop_slot.
  - destruct s; [| discriminate]. destruct k; split; reflexivity.
Qed.

Lemma preferred_release_event_media (config : Config) (release : Release)
    (media : list Medium) :
  _preferred_release_event config (with_medium_list release media)
  = _preferred_release_event config release.
Proof.
  unfold _preferred_release_event.
  induction (match_preferred_countries config) as [|c cs IH]; simpl; [reflexivity |].
  rewrite IH. reflexivity.
Qed.

Lemma lower_char_idempotent (a : ascii) : lower_char (lower_char a) = lower_char a.
Proof. destruct a as [[] [] [] [] [] [] [] []]; reflexivity. Qed.

Lemma lower_idempotent (s : str) : lower (lower s) = lower s.
Proof.
  induction s as [|a s IH]; simpl; [reflexivity |].
  rewrite lower_char_idempotent, IH. reflexivity.
Qed.

(** The album before the updates of the plugins: the record the mapper
    builds, with its dates still to be set. *)
Lemma album_info_before_plugins (config : Config) (mbz : musicbrainzngs)
    (plugins : Plugins) (release : Release) (info : AlbumInfo.t) :
  album_info config mbz plugins release = Ok info ->
  exists blank r,
    info = apply_updates
             (_set_date_str
                (_set_date_str blank (release_date_of config release) false)
                (rg_first_release_date (rel_release_group release)) true)
             (mb_album_extract plugins r)
    /\ (forall original k, slot_value original k blank = None)
    /\ AlbumInfo.country blank = fst (_preferred_release_event config release)
    /\ AlbumInfo.label blank
       = match first_label_name release with
         | Some name => if str_eqb name "[no label]" then None else Some name
         | None => None
         end
    /\ AlbumInfo.catalognum blank
       = match first_label_info release with
         | Some label_info => li_catalog_number label_info
         | None => None
         end
    /\ AlbumInfo.albumtype blank
       = match nonempty_or_none (rg_type (rel_release_group release)) with
         | Some t => Some (lower t)
         | None => None
         end
    /\ AlbumInfo.albumtypes blank = Some (map lower (group_types release)).
Proof.
  intros H. apply album_info_Ok in H as (release' & H & Hrel).
  assert (exists media', release' = with_medium_list release media') as [media' ->].
  { destruct Hrel as [-> | (recording_list & media & _ & ->)].
    - exists (rel_medium_list release). destruct release; reflexivity.
    - exists media. reflexivity. }
  unfold album_info_body in H.
  destruct (_flatten_artist_credit config (rel_artist_credit release))
    as [[artist_name' artist_sort_name] artist_credit_name].
  inv_bind H. destruct a as [[track_infos index] media].
  inv_bind H. simpl in H.
  rewrite !preferred_release_event_media in H.
  unfold release_date_of, first_label_name, first_label_info, group_types, nonempty_or_none.
  destruct (_preferred_release_event config release) as [country release_date].
  match type of H with
  | context [let '(label, catalognum) := ?e in _] =>
      destruct e as [label catalognum] eqn:Elabel
  end.
  match type of H with
  | context [let '(script, language) := ?e in _] => destruct e as [script language]
  end.
  inv_bind H. injection H as <-. unfold decode.
  eexists _, _. split; [reflexivity |].
  split; [intros [] []; reflexivity |]. simpl.
  split; [reflexivity |].
  destruct (rel_label_info_list release) as [[|label_info label_infos]|];
    injection Elabel as <- <-;
    repeat split;
    try (destruct (li_label label_info) as [l|]; [| reflexivity];
         destruct (str_eqb (label_name l) "[no label]"); reflexivity);
    try (destruct (rg_type (rel_release_group release)) as [t|]; [| reflexivity];
         destruct (nonempty t); reflexivity);
    try (destruct (rg_primary_type (rel_release_group release)) as [t|];
         [destruct (nonempty t) |]; rewrite ?map_app; reflexivity).
Qed.

(** The release date of an album is parsed from the date of the preferred
    release event or of the release, and from the first release date of
    the release group when that date is missing or empty; the original
    date is always parsed from the first release date of the group.  A
    slot is unset when its part of the date is missing or is no integer. *)
Theorem album_info_dates (config : Config) (mbz : musicbrainzngs) (plugins : Plugins)
    (release : Release) (info : AlbumInfo.t) :
  (forall original k, album_plugins_keep (slot_value original k) plugins) ->
  album_info config mbz plugins release = Ok info ->
  forall k,
    slot_value false k info = parsed (release_date_of config release) k
    /\ slot_value true k info
       = parsed (rg_first_release_date (rel_release_group release)) k.
Proof.
  intros Hp H k. apply album_info_before_plugins in H as (blank & r & -> & Hblank & _).
  rewrite (apply_updates_preserves (slot_value false k)) by apply Hp.
  rewrite (apply_updates_preserves (slot_value true k)) by apply Hp.
  destruct (set_date_str_option_slot
              (_set_date_str blank (release_date_of config release) false)
              (rg_first_release_date (rel_release_group release)) true k) as [Ht Ef].
  change (negb true) with false in Ef.
  destruct (set_date_str_option_slot blank (release_date_of config release) false k)
    as [Hf Et].
  change (negb false) with true in Et.
  rewrite Ht, Ef, Hf, Et, !Hblank. split.
  - destruct (parsed (release_date_of config release) k); reflexivity.
  - destruct (parsed (rg_first_release_date (rel_release_group release)) k); reflexivity.
Qed.

Lemma no_plugins_keep {B} (attribute : AlbumInfo.t -> B) : album_plugins_keep attribute no_plugins.
Proof. intros r. constructor. Qed.

Lemma album_info_dates_witness :
  exists info,
    album_info default_config (service_answering NetworkError) no_plugins labelled_release
    = Ok info
    /\ date_slots false info = [Some 2004; None; None]
    /\ date_slots true info = [Some 1999; Some 7; None].
Proof.
  eexists. split; [reflexivity |].
  pose proof (album_info_dates default_config (service_answering NetworkError) no_plugins
                labelled_release _ (fun _ _ => no_plugins_keep _) eq_refl) as H.
  split.
  - exact (f_equal3 (fun y m d => [y; m; d])
             (proj1 (H Year)) (proj1 (H Month)) (proj1 (H Day))).
  - exact (f_equal3 (fun y m d => [y; m; d])
             (proj2 (H Year)) (proj2 (H Month)) (proj2 (H Day))).
Defined.

(** The label of an album is the name of the label of the first label
    info of the release, and is left unset when this name is the
    placeholder "[no label]": the placeholder is never the label, and a
    later label info is never read.  The catalogue number is that of the
    first label info. *)
Theorem album_info_label (config : Config) (mbz : musicbrainzngs) (plugins : Plugins)
    (release : Release) (info : AlbumInfo.t) :
  album_plugins_keep AlbumInfo.label plugins ->
  album_plugins_keep AlbumInfo.catalognum plugins ->
  album_info config mbz plugins release = Ok info ->
  AlbumInfo.label info <> Some "[no label]"
  /\ (forall name, AlbumInfo.label info = Some name -> first_label_name release = Some name)
  /\ (forall name, first_label_name release = Some name -> name <> "[no label]" ->
                   AlbumInfo.label info = Some name)
  /\ AlbumInfo.catalognum info
     = match first_label_info release with
       | Some label_info => li_catalog_number label_info
       | None => None
       end.
Proof.
  intros Hl Hc H. apply album_info_before_plugins in H
    as (blank & r & -> & _ & _ & Hlabel & Hcat & _).
  rewrite (apply_updates_preserves AlbumInfo.label) by apply Hl.
  rewrite (apply_updates_preserves AlbumInfo.catalognum) by apply Hc.
  destruct (set_date_str_with_dates blank (release_date_of config release) false)
    as (y & m & d & oy & om & od & ->).
  destruct (set_date_str_with_dates (AlbumInfo.with_dates blank y m d oy om od)
              (rg_first_release_date (rel_release_group release)) true)
    as (y' & m' & d' & oy' & om' & od' & ->).
  simpl. rewrite Hlabel, Hcat.
  destruct (first_label_name release) as [name|].
  - destruct (String.eqb_spec name "[no label]") as [-> | Hne].
    + unfold str_eqb. rewrite String.eqb_refl.
      split; [discriminate |]. split; [discriminate |]. split; [| reflexivity].
      intros name [= <-] Hne. contradiction.
    + apply str_eqb_neq in Hne as Hb. rewrite Hb.
      split; [congruence |]. split; [intros n [= <-]; reflexivity |].
      split; [intros n [= <-] _; reflexivity | reflexivity].
  - split; [discriminate |]. split; [discriminate |]. split; [discriminate | reflexivity].
Qed.

Lemma album_info_label_witness :
  exists info,
    album_info default_config (service_answering NetworkError) no_plugins labelled_release
    = Ok info
    /\ AlbumInfo.label info = None
    /\ AlbumInfo.catalognum info = Some "CAT 1".
Proof.
  eexists. split; [reflexivity |].
  destruct (album_info_label default_config (service_answering NetworkError) no_plugins
              labelled_release _ (no_plugins_keep _) (no_plugins_keep _) eq_refl)
    as (_ & _ & _ & Hcat).
  split; [reflexivity | exact Hcat].
Defined.

(** The album type and the album types are in lower case: lower-casing
    them again changes nothing; the types are the primary type of the
    release group, when it has one, followed by its secondary types in
    their order. *)
Theorem album_info_types_lower_case (config : Config) (mbz : musicbrainzngs)
    (plugins : Plugins) (release : Release) (info : AlbumInfo.t) :
  album_plugins_keep AlbumInfo.albumtype plugins ->
  album_plugins_keep AlbumInfo.albumtypes plugins ->
  album_info config mbz plugins release = Ok info ->
  (forall t, AlbumInfo.albumtype info = Some t -> lower t = t)
  /\ exists types,
       AlbumInfo.albumtypes info = Some types
       /\ types = map lower (group_types release)
       /\ Forall (fun t => lower t = t) types.
Proof.
  intros Ht Hts H. apply album_info_before_plugins in H
    as (blank & r & -> & _ & _ & _ & _ & Htype & Htypes).
  rewrite (apply_updates_preserves AlbumInfo.albumtype) by apply Ht.
  rewrite (apply_updates_preserves AlbumInfo.albumtypes) by apply Hts.
  destruct (set_date_str_with_dates blank (release_date_of config release) false)
    as (y & m & d & oy & om & od & ->).
  destruct (set_date_str_with_dates (AlbumInfo.with_dates blank y m d oy om od)
              (rg_first_release_date (rel_release_group release)) true)
    as (y' & m' & d' & oy' & om' & od' & ->).
  simpl. rewrite Htype, Htypes. split.
  - intros t. destruct (nonempty_or_none _) as [t0|]; [| discriminate].
    intros [= <-]. apply lower_idempotent.
  - eexists. split; [reflexivity |]. split; [reflexivity |].
    apply List.Forall_map. apply List.Forall_forall. intros t _. apply lower_idempotent.
Qed.

Lemma album_info_types_lower_case_witness :
  exists info,
    album_info default_config (service_answering NetworkError) no_plugins labelled_release
    = Ok info
    /\ AlbumInfo.albumtype info = Some "live"
    /\ AlbumInfo.albumtypes info = Some ["album"; "compilation"; "live"].
Proof.
  eexists. split; [reflexivity |].
  destruct (album_info_types_lower_case default_config (service_answering NetworkError)
              no_plugins labelled_release _ (no_plugins_keep _) (no_plugins_keep _) eq_refl)
    as (_ & types & Hts & -> & _).
  split; [reflexivity | exact Hts].
Defined.

(** ** The identifier found in a string *)

Lemma append_nil_r (s : str) : s +:+ EmptyString = s.
Proof.
  induction s as [|a s IH]; [reflexivity |].
  change (String a s +:+ EmptyString) with (String a (s +:+ EmptyString)).
  f_equal. exact IH.
Qed.

Lemma shaped_length (re : list char_class) (m : str) :
  shaped re m -> String.length m = List.length re.
Proof.
  revert m. induction re as [|c re IH]; intros m; destruct m as [|a m]; simpl;
    try tauto.
  intros [_ H]. f_equal. apply IH, H.
Qed.

Lemma re_search_leftmost (re : list char_class) (s m : str) :
  re_search re s = Some m ->
  exists before after,
    s = before +:+ m +:+ after
    /\ shaped re m
    /\ forall before' m' after',
         s = before' +:+ m' +:+ after' -> shaped re m' ->
         (String.length before <= String.length before')%nat.
Proof.
  induction s as [|a s IH]; rewrite re_search_unfold.
  - destruct (match_here re EmptyString) as [m0|] eqn:E; [| discriminate].
    intros [= <-]. destruct (match_here_shaped _ _ _ E) as (Hm & after & Hs).
    exists EmptyString, after. repeat split; [exact Hs | exact Hm | simpl; lia].
  - destruct (match_here re (String a s)) as [m0|] eqn:E.
    + intros [= <-]. destruct (match_here_shaped _ _ _ E) as (Hm & after & Hs).
      exists EmptyString, after. repeat split; [exact Hs | exact Hm | simpl; lia].
    + intros H. destruct (IH H) as (before & after & -> & Hm & Hleft).
      exists (String a before), after. repeat split; [exact Hm |].
      intros before' m' after' Hs Hm'. destruct before' as [|b before'].
      * change (EmptyString +:+ m' +:+ after') with (m' +:+ after') in Hs.
        rewrite Hs, (match_here_complete re m' after' Hm') in E. discriminate.
      * change (String a before +:+ m +:+ after)
          with (String a (before +:+ m +:+ after)) in Hs.
        change (String b before' +:+ m' +:+ after')
          with (String b (before' +:+ m' +:+ after')) in Hs.
        injection Hs as _ Hs. simpl. apply le_n_S. eapply Hleft; eassumption.
Qed.

(** The identifier found in a string is a piece of the string, of 36
    characters, with no piece of the shape of an identifier starting
    before it; and it is found again in itself. *)
Theorem parse_id_leftmost (s id : str) :
  _parse_id s = Some id ->
  (exists before after,
      s = before +:+ id +:+ after
      /\ forall before' m' after',
           s = before' +:+ m' +:+ after' -> shaped (uuid_shape Hex_lower) m' ->
           (String.length before <= String.length before')%nat)
  /\ String.length id = 36%nat
  /\ _parse_id id = Some id.
Proof.
  intros H. apply re_search_leftmost in H as (before & after & Hs & Hm & Hleft).
  split; [exists before, after; split; assumption |].
  split; [apply (shaped_length _ _ Hm) |].
  unfold _parse_id. rewrite re_search_unfold.
  rewrite <- (append_nil_r id) at 1. rewrite (match_here_complete _ id EmptyString Hm).
  reflexivity.
Qed.

Lemma parse_id_leftmost_witness :
  _parse_id two_ids = Some VARIOUS_ARTISTS_ID
  /\ String.length VARIOUS_ARTISTS_ID = 36%nat
  /\ _parse_id VARIOUS_ARTISTS_ID = Some VARIOUS_ARTISTS_ID.
Proof.
  split; [reflexivity |].
  exact (proj2 (parse_id_leftmost two_ids VARIOUS_ARTISTS_ID eq_refl)).
Defined.

(** ** Errors of the overflow step *)

Lemma range_first (stop step : nat) :
  (0 < stop)%nat -> exists rest, range 0 stop step = 0%nat :: rest.
Proof.
  intros H. unfold range. destruct stop as [|stop]; [lia |]. simpl. eexists. reflexivity.
Qed.

(** An error of the service while the recordings of a release of more
    than 500 tracks are browsed comes out of [album_info] and of
    [album_for_id] as it is: it is raised after the lookup that
    [album_for_id] guards, and is not turned into a
    [MusicBrainzAPIError]. *)
Theorem album_for_id_browse_error (config : Config) (mbz : musicbrainzngs)
    (plugins : Plugins) (s id : str) (release : Release) (e : exn) :
  _parse_id s = Some id ->
  get_release_by_id mbz id (RELEASE_INCLUDES mbz) = Ok release ->
  (BROWSE_MAXTRACKS < ntracks_of release)%nat ->
  browse_recordings mbz (rel_id release) BROWSE_CHUNKSIZE (BROWSE_INCLUDES mbz) 0 = Raise e ->
  album_info config mbz plugins release = Raise e
  /\ album_for_id config mbz plugins s = Raise e.
Proof.
  intros Hid Hget Hbig Hbrowse.
  assert (album_info config mbz plugins release = Raise e) as Hinfo.
  { unfold album_info. apply Nat.ltb_lt in Hbig as Hb. rewrite Hb.
    unfold recover_relations.
    destruct (range_first (ntracks_of release) BROWSE_CHUNKSIZE) as [rest ->];
      [unfold BROWSE_MAXTRACKS in Hbig; lia |].
    simpl. rewrite Hbrowse. reflexivity. }
  split; [exact Hinfo |].
  unfold album_for_id. rewrite Hid, (parse_id_nonempty _ _ Hid). simpl.
  rewrite Hget, Hinfo. reflexivity.
Qed.

Lemma album_for_id_browse_error_witness :
  album_for_id default_config
    (service_with_release (release_of_501 bare_recording) NetworkError) no_plugins
    va_release_url
  = Raise (MBError NetworkError).
Proof.
  apply (album_for_id_browse_error default_config
           (service_with_release (release_of_501 bare_recording) NetworkError) no_plugins
           va_release_url VARIOUS_ARTISTS_ID (release_of_501 bare_recording)
           (MBError NetworkError));
    [reflexivity | reflexivity | apply Nat.ltb_lt; vm_compute; reflexivity | reflexivity].
Defined.

Lemma track_map_of_None (db : list Recording) (id : str) :
  ~ In id (map rec_id db) -> track_map_of db !! id = None.
Proof.
  induction db as [|x db IH] using rev_ind; intros H; [reflexivity |].
  rewrite track_map_of_snoc. rewrite map_app, in_app_iff in H. simpl in H.
  rewrite lookup_insert_ne by tauto. apply IH. tauto.
Qed.

Lemma substitute_tracks_Raise (track_map : gmap str Recording) (tracks : list Track)
    (e : exn) :
  substitute_tracks track_map tracks = Raise e ->
  exists id, e = KeyError id /\ track_map !! id = None.
Proof.
  induction tracks as [|t tracks IH]; simpl; [discriminate |].
  destruct (track_map !! rec_id (trk_recording t)) as [r|] eqn:E; simpl.
  - destruct (substitute_tracks track_map tracks) as [tracks' | e']; simpl;
      [discriminate |].
    intros [= <-]. apply IH. reflexivity.
  - intros [= <-]. exists (rec_id (trk_recording t)). split; [reflexivity | exact E].
Qed.

Lemma substitute_media_Raise (track_map : gmap str Recording) (media : list Medium)
    (e : exn) :
  substitute_media track_map media = Raise e ->
  exists id, e = KeyError id /\ track_map !! id = None.
Proof.
  induction media as [|m media IH]; simpl; [discriminate |].
  destruct (substitute_tracks track_map (med_track_list m)) as [tracks | e'] eqn:E; simpl.
  - destruct (substitute_media track_map media) as [media' | e'']; simpl;
      [discriminate |].
    intros [= <-]. apply IH. reflexivity.
  - intros [= <-]. apply (substitute_tracks_Raise _ _ _ E).
Qed.

Lemma substituted_all_found (track_map : gmap str Recording) (media media' : list Medium) :
  Forall2 (substituted_medium track_map) media media' ->
  forall m t, In m media -> In t (med_track_list m) ->
              track_map !! rec_id (trk_recording t) <> None.
Proof.
  induction 1 as [|m0 m0' media media' (tracks & Ht & _) _ IH]; intros m t Hm Hin;
    [contradiction |].
  destruct Hm as [<- | Hm]; [| apply (IH m t Hm Hin)].
  clear IH. induction Ht as [|t0 t0' l l' (r & Hr & _) _ IHt]; [contradiction |].
  destruct Hin as [<- | Hin]; [congruence | apply IHt, Hin].
Qed.

(** When the service holds no recording under the identifier of the
    recording of a track, a release of more than 500 tracks is not mapped:
    [album_info] raises [KeyError] with an identifier the service did not
    give. *)
Theorem album_info_missing_recording (config : Config) (mbz : musicbrainzngs)
    (plugins : Plugins) (release : Release) (db : list Recording) :
  (BROWSE_MAXTRACKS < ntracks_of release)%nat ->
  pages_through mbz (rel_id release) db ->
  (List.length db <= ntracks_of release)%nat ->
  (exists m t, In m (rel_medium_list release) /\ In t (med_track_list m)
               /\ ~ In (rec_id (trk_recording t)) (map rec_id db)) ->
  exists id,
    album_info config mbz plugins release = Raise (KeyError id)
    /\ ~ In id (map rec_id db).
Proof.
  intros Hbig Hsvc Hlen (m & t & Hm & Ht & Hmissing).
  unfold album_info. apply Nat.ltb_lt in Hbig as Hb. rewrite Hb.
  unfold recover_relations. rewrite (browse_loop_all _ _ _ _ Hsvc Hlen). simpl.
  destruct (substitute_media (track_map_of db) (rel_medium_list release))
    as [media | e] eqn:E.
  - exfalso. apply substitute_media_Ok in E.
    apply (substituted_all_found _ _ _ E m t Hm Ht).
    apply track_map_of_None, Hmissing.
  - apply substitute_media_Raise in E as (id & -> & Hnone).
    exists id. split; [reflexivity |].
    intros Hin. apply in_map_iff in Hin as (r & <- & Hr).
    clear - Hnone Hr. revert Hnone.
    induction db as [|x db IH] using rev_ind; [contradiction |].
    rewrite track_map_of_snoc. apply in_app_iff in Hr as [Hr | [-> | []]].
    + destruct (String.string_dec (rec_id x) (rec_id r)) as [E | E].
      * rewrite E, lookup_insert_eq. discriminate.
      * rewrite lookup_insert_ne by exact E. apply IH, Hr.
    + rewrite lookup_insert_eq. discriminate.
Qed.

Lemma album_info_missing_recording_witness :
  exists id,
    album_info default_config (paging_service (removelast recordings_of_501)) no_plugins
      (release_of_501 bare_recording) = Raise (KeyError id)
    /\ ~ In id (map rec_id (removelast recordings_of_501)).
Proof.
  apply (album_info_missing_recording default_config
           (paging_service (removelast recordings_of_501)) no_plugins
           (release_of_501 bare_recording) (removelast recordings_of_501)).
  - apply Nat.ltb_lt. vm_compute. reflexivity.
  - intros offset. reflexivity.
  - apply Nat.leb_le. vm_compute. reflexivity.
  - exists (plain_medium "1" (map (numbered_track bare_recording) (seq 0 501))),
      (numbered_track bare_recording 500).
    split; [left; reflexivity |].
    split; [apply in_map, in_seq; lia |].
    intros Hin. apply str_in_In in Hin. vm_compute in Hin. discriminate.
Defined.

(** ** A target that cannot be opened *)

Lemma embed_loop_app (data : str) (kind : embedart.imagekind)
    (l1 l2 : list embedart.Item) (w : embedart.World) :
  embedart.embed_loop data kind (l1 ++ l2) w
  = match embedart.embed_loop data kind l1 w with
    | (w1, None) => embedart.embed_loop data kind l2 w1
    | (w1, Some e) => (w1, Some e)
    end.
Proof.
  revert w. induction l1 as [|item l1 IH]; intros w; simpl; [reflexivity |].
  destruct (embedart.audio w !! embedart.path item); [apply IH | reflexivity].
Qed.

(** Embedding is not all or nothing: when the file of a target cannot be
    opened, the exception that says so comes out of the call, the targets
    before it have the image as their art already, and no other file is
    changed, the targets after it among them. *)
Theorem embed_stops_at_unopened (imghdr_what : str -> option str) (path : str)
    (before after : list embedart.Item) (bad : embedart.Item)
    (w : embedart.World) (data : str) (kind : embedart.imagekind) :
  embedart.images w !! path = Some data ->
  (imghdr_what data = Some "jpeg" /\ kind = embedart.JPEG)
  \/ (imghdr_what data = Some "png" /\ kind = embedart.PNG) ->
  (forall item, In item before -> is_Some (embedart.audio w !! embedart.path item)) ->
  embedart.audio w !! embedart.path bad = None ->
  exists w',
    embedart._embed imghdr_what path (before ++ bad :: after) w
    = (w', Some (IOError (embedart.path bad)))
    /\ (forall item f,
           In item before ->
           embedart.audio w !! embedart.path item = Some f ->
           embedart.audio w' !! embedart.path item
           = Some {| embedart.art := Some (data, kind);
                     embedart.tags := embedart.tags f |})
    /\ (forall p,
           ~ In p (map embedart.path before) ->
           embedart.audio w' !! p = embedart.audio w !! p).
Proof.
  intros Himg Hkind Hopen Hbad.
  set (w0 := embedart.log_add embedart.DEBUG "Embedding album art." w).
  destruct (embed_loop_spec data kind before w0 Hopen)
    as (w' & Hloop & _ & _ & Hset & Hkeep).
  assert (~ In (embedart.path bad) (map embedart.path before)) as Hnot.
  { intros Hin. apply in_map_iff in Hin as (item & E & Hin).
    destruct (Hopen item Hin) as [f Hf]. rewrite E in Hf. congruence. }
  exists w'. split.
  - unfold embedart._embed. rewrite Himg.
    assert (embedart.embed_loop data kind (before ++ bad :: after) w0
            = (w', Some (IOError (embedart.path bad)))) as Hall.
    { rewrite embed_loop_app, Hloop. simpl.
      rewrite (Hkeep _ Hnot). unfold w0. simpl. rewrite Hbad. reflexivity. }
    destruct Hkind as [[-> ->] | [-> ->]]; exact Hall.
  - split.
    + intros item f Hin Hf. apply Hset; [apply in_map, Hin | exact Hf].
    + exact Hkeep.
Qed.

Lemma embed_stops_at_unopened_witness :
  exists w',
    embedart._embed sniff_first_byte "cover.png"
      ([{| embedart.path := "01.mp3" |}] ++ {| embedart.path := "gone.mp3" |}
         :: [{| embedart.path := "02.mp3" |}]) music_world
    = (w', Some (IOError "gone.mp3"))
    /\ embedart.audio w' !! "01.mp3" = Some (tagged "One" (Some (png_bytes, embedart.PNG)))
    /\ embedart.audio w' !! "02.mp3" = Some (tagged "Two" None).
Proof.
  destruct (embed_stops_at_unopened sniff_first_byte "cover.png"
              [{| embedart.path := "01.mp3" |}] [{| embedart.path := "02.mp3" |}]
              {| embedart.path := "gone.mp3" |} music_world png_bytes embedart.PNG
              eq_refl (or_intror (conj eq_refl eq_refl)))
    as (w' & H & Hset & Hkeep).
  - intros item [<- | []]. eexists. reflexivity.
  - reflexivity.
  - exists w'. split; [exact H |]. split.
    + exact (Hset {| embedart.path := "01.mp3" |}
               (tagged "One" (Some ("old art", embedart.JPEG)))
               (or_introl eq_refl) eq_refl).
    + etransitivity; [apply Hkeep | reflexivity].
      intros [H' | []]. discriminate H'.
Defined.

(** ** The searches *)

Lemma fields_keys (tag key : str) :
  FIELDS_TO_MB_KEYS !! tag = Some key -> In key extra_keys.
Proof.
  unfold FIELDS_TO_MB_KEYS. intros H. apply elem_of_list_to_map_2 in H.
  apply list_elem_of_In in H. simpl in H.
  destruct H as [H | [H | [H | [H | [H | []]]]]]; injection H as _ <-; simpl; tauto.
Qed.

Lemma dict_set_In (criteria : list (str * str)) (key value k v : str) :
  In (k, v) (dict_set criteria key value) ->
  (k = key /\ v = value) \/ In (k, v) criteria.
Proof.
  induction criteria as [|[k0 v0] rest IH]; simpl.
  - intros [[= <- <-] | []]. left. split; reflexivity.
  - unfold str_eqb; destruct (String.eqb_spec k0 key) as [-> | Hne]; simpl.
    + intros [[= <- <-] | H]; [left; split; reflexivity | right; right; exact H].
    + intros [H | H]; [right; left; exact H |].
      destruct (IH H) as [H' | H']; [left; exact H' | right; right; exact H'].
Qed.

Lemma dict_set_other (criteria : list (str * str)) (key value k v : str) :
  k <> key -> In (k, v) criteria -> In (k, v) (dict_set criteria key value).
Proof.
  intros Hne. induction criteria as [|[k0 v0] rest IH]; simpl; [intros [] |].
  unfold str_eqb; destruct (String.eqb_spec k0 key) as [-> | Hk]; simpl.
  - intros [[= <- <-] | H]; [contradiction | right; exact H].
  - intros [H | H]; [left; exact H | right; apply IH, H].
Qed.

Lemma dict_set_key_In (criteria : list (str * str)) (key value k : str) :
  In k (map fst (dict_set criteria key value)) ->
  k = key \/ In k (map fst criteria).
Proof.
  induction criteria as [|[k0 v0] rest IH]; simpl.
  - intros [<- | []]. left. reflexivity.
  - unfold str_eqb; destruct (String.eqb_spec k0 key) as [-> | Hne]; simpl.
    + intros H. right. exact H.
    + intros [H | H]; [right; left; exact H |].
      destruct (IH H) as [H' | H']; [left; exact H' | right; right; exact H'].
Qed.

Lemma dict_set_NoDup (criteria : list (str * str)) (key value : str) :
  List.NoDup (map fst criteria) -> List.NoDup (map fst (dict_set criteria key value)).
Proof.
  induction criteria as [|[k0 v0] rest IH]; simpl; intros Hnd.
  - constructor; [intros [] | constructor].
  - unfold str_eqb; destruct (String.eqb_spec k0 key) as [-> | Hne]; simpl; [exact Hnd |].
    inversion Hnd as [|? ? Hnot Hrest]; subst. constructor.
    + intros Hin. apply dict_set_key_In in Hin as [E | Hin]; [congruence | contradiction].
    + apply IH, Hrest.
Qed.

Lemma lower_lstrip (s : str) : lower s = s -> lower (lstrip s) = lstrip s.
Proof.
  induction s as [|a s IH]; simpl; [reflexivity |].
  intros H. destruct (is_space a); [| exact H].
  injection H as _ Hs. apply IH, Hs.
Qed.

Lemma lower_rstrip (s : str) : lower s = s -> lower (rstrip s) = rstrip s.
Proof.
  induction s as [|a s IH]; simpl; [reflexivity |].
  intros H. injection H as Ha Hs. specialize (IH Hs).
  destruct (rstrip s) as [|b r].
  - destruct (is_space a); simpl; [reflexivity | rewrite Ha; reflexivity].
  - simpl in *. rewrite Ha, IH. reflexivity.
Qed.

Lemma lower_strip_lower (s : str) : lower (strip (lower s)) = strip (lower s).
Proof. apply lower_rstrip, lower_lstrip, lower_idempotent. Qed.

Lemma lower_remove_spaces (s : str) :
  lower s = s -> lower (remove_spaces s) = remove_spaces s.
Proof.
  induction s as [|a s IH]; simpl; [reflexivity |].
  intros H. injection H as Ha Hs. destruct (Ascii.eqb a " "); simpl.
  - apply IH, Hs.
  - rewrite Ha, (IH Hs). reflexivity.
Qed.

Lemma remove_spaces_no_space (s : str) :
  ~ In " "%char (list_ascii_of_string (remove_spaces s)).
Proof.
  induction s as [|a s IH]; simpl; [tauto |].
  destruct (Ascii.eqb_spec a " ") as [-> | Hne]; simpl; [exact IH |].
  intros [E | H]; [contradiction | exact (IH H)].
Qed.

Lemma lower_string_of_uint (d : Decimal.uint) :
  lower (NilEmpty.string_of_uint d) = NilEmpty.string_of_uint d.
Proof. induction d; simpl; [reflexivity | rewrite IHd; reflexivity ..]. Qed.

Lemma lower_str_of_int (n : Z) : lower (str_of_int n) = str_of_int n.
Proof.
  unfold str_of_int, NilZero.string_of_int, NilZero.string_of_uint.
  destruct (Z.to_int n) as [d | d]; destruct d; simpl;
    rewrite ?lower_string_of_uint; reflexivity.
Qed.

Lemma str_of_int_nonempty (n : Z) : str_of_int n <> "".
Proof.
  unfold str_of_int, NilZero.string_of_int, NilZero.string_of_uint.
  destruct (Z.to_int n) as [d | d]; destruct d; simpl; discriminate.
Qed.

Lemma nonempty_true (s : str) : nonempty s = true <-> s <> "".
Proof. destruct s; simpl; split; congruence. Qed.

(** What holds of the criteria before the loop over the extra tags and
    is kept by every entry the loop sets, holds after it. *)
Lemma extra_tags_loop_invariant (I : list (str * str) -> Prop) :
  (forall criteria key v,
      I criteria -> In key extra_keys -> v <> "" -> lower v = v ->
      (key = "catno" -> ~ In " "%char (list_ascii_of_string v)) ->
      I (dict_set criteria key v)) ->
  forall extra_tags criteria criteria',
    I criteria -> extra_tags_loop extra_tags criteria = Ok criteria' -> I criteria'.
Proof.
  intros Hstep. induction extra_tags as [|[tag value] rest IH]; intros c c' Hc H.
  - injection H as <-. exact Hc.
  - simpl in H. destruct (FIELDS_TO_MB_KEYS !! tag) as [key|] eqn:Ek; [| discriminate].
    simpl in H. apply fields_keys in Ek.
    set (v := if str_eqb key "catno"
              then remove_spaces (strip (lower (str_of_value value)))
              else strip (lower (str_of_value value))) in *.
    destruct (nonempty v) eqn:Ev; [| exact (IH _ _ Hc H)].
    refine (IH _ _ _ H). apply Hstep; [exact Hc | exact Ek | | |].
    + apply nonempty_true, Ev.
    + unfold v. destruct (str_eqb key "catno").
      * apply lower_remove_spaces, lower_strip_lower.
      * apply lower_strip_lower.
    + intros ->. unfold v. simpl. apply remove_spaces_no_space.
Qed.

Lemma extra_tags_loop_blank (extra_tags : list (str * tag_value))
    (criteria : list (str * str)) :
  Forall blank_tag extra_tags -> extra_tags_loop extra_tags criteria = Ok criteria.
Proof.
  induction 1 as [|[tag value] rest [[key Hk] Hv] _ IH]; simpl; [reflexivity |].
  simpl in Hk, Hv. rewrite Hk. simpl. rewrite Hv.
  destruct (str_eqb key "catno"); simpl; exact IH.
Qed.

Lemma any_value_In (criteria : list (str * str)) (k v : str) :
  In (k, v) criteria -> v <> "" -> any_value criteria = true.
Proof.
  intros Hin Hne. unfold any_value. apply existsb_exists. exists v. split.
  - apply in_map_iff. exists (k, v). split; [reflexivity | exact Hin].
  - apply nonempty_true, Hne.
Qed.

Lemma match_album_loop_app (config : Config) (mbz : musicbrainzngs) (plugins : Plugins)
    (l1 l2 : list str) (yielded : list AlbumInfo.t) :
  match_album_loop config mbz plugins (l1 ++ l2) yielded
  = match match_album_loop config mbz plugins l1 yielded with
    | (y1, None) => match_album_loop config mbz plugins l2 y1
    | (y1, Some e) => (y1, Some e)
    end.
Proof.
  revert yielded. induction l1 as [|id l1 IH]; intros yielded; simpl; [reflexivity |].
  destruct (album_for_id config mbz plugins id) as [[info|]|e]; [apply IH | apply IH | reflexivity].
Qed.

Lemma match_album_loop_all (config : Config) (mbz : musicbrainzngs) (plugins : Plugins)
    (ids : list str) (yielded : list AlbumInfo.t) :
  Forall (looked_up config mbz plugins) ids ->
  match_album_loop config mbz plugins ids yielded
  = (yielded ++ omap (found config mbz plugins) ids, None).
Proof.
  intros H. revert yielded. induction H as [|id ids [r Hr] _ IH]; intros yielded; simpl.
  - rewrite app_nil_r. reflexivity.
  - unfold found at 1. rewrite Hr. destruct r as [info|].
    + rewrite IH, <- app_assoc. reflexivity.
    + apply IH.
Qed.

(** A search whose every criterion is blank is not made: with an artist
    and an album title that are empty or white space, no number of tracks
    and no extra tag with a value, the generator ends at once, whatever
    the service would answer. *)
Theorem match_album_blank_query (config : Config) (mbz : musicbrainzngs)
    (plugins : Plugins) (search : musicbrainzngs_search) (searchlimit : Z)
    (artist album : str) (extra_tags : list (str * tag_value)) :
  strip (lower artist) = "" ->
  strip (lower album) = "" ->
  Forall blank_tag extra_tags ->
  match_album config mbz plugins search searchlimit (Some artist) album None extra_tags
  = ([], None).
Proof.
  intros Ha Hb Hx. unfold match_album, album_criteria.
  rewrite extra_tags_loop_blank by exact Hx.
  rewrite Ha, Hb. reflexivity.
Qed.

Lemma match_album_blank_query_witness :
  match_album default_config (service_answering NetworkError) no_plugins failing_search 5
    (Some "  ") "" None [("label", TagStr " "); ("year", TagStr "")]
  = ([], None).
Proof.
  apply match_album_blank_query; [reflexivity | reflexivity |].
  repeat constructor; simpl; eexists; reflexivity.
Defined.

Lemma extra_tags_loop_keeps (extra_tags : list (str * tag_value))
    (criteria criteria' : list (str * str)) (k v : str) :
  ~ In k extra_keys ->
  In (k, v) criteria ->
  extra_tags_loop extra_tags criteria = Ok criteria' ->
  In (k, v) criteria'.
Proof.
  intros Hk Hin.
  intros H.
  refine (extra_tags_loop_invariant (fun c => In (k, v) c) _ extra_tags criteria
            criteria' Hin H).
  intros c key v' Hc Hkey _ _ _. apply dict_set_other; [| exact Hc].
  intros ->. contradiction.
Qed.

(** The criteria of an album search are a dictionary whose keys differ;
    the title and the artist given, or the identifier of Various Artists
    when no artist is given, are in it whatever the extra tags; every
    value is in lower case; a catalogue number holds no space; and an
    extra tag is in it only with a value that is not empty. *)
Theorem album_criteria_shape (artist : option str) (album : str) (tracks : option Z)
    (extra_tags : list (str * tag_value)) (criteria : list (str * str)) :
  album_criteria artist album tracks extra_tags = Ok criteria ->
  List.NoDup (map fst criteria)
  /\ In ("release", strip (lower album)) criteria
  /\ In (match artist with
         | Some a => ("artist", strip (lower a))
         | None => ("arid", VARIOUS_ARTISTS_ID)
         end) criteria
  /\ (forall k v,
         In (k, v) criteria ->
         lower v = v
         /\ (k = "catno" -> ~ In " "%char (list_ascii_of_string v))
         /\ (In k extra_keys -> v <> "")).
Proof.
  unfold album_criteria. intros H.
  set (c0 := match tracks with
             | Some n =>
                 dict_set
                   match artist with
                   | Some a => dict_set [("release", strip (lower album))] "artist"
                                 (strip (lower a))
                   | None => dict_set [("release", strip (lower album))] "arid"
                               VARIOUS_ARTISTS_ID
                   end "tracks" (str_of_int n)
             | None =>
                 match artist with
                 | Some a => dict_set [("release", strip (lower album))] "artist"
                               (strip (lower a))
                 | None => dict_set [("release", strip (lower album))] "arid"
                             VARIOUS_ARTISTS_ID
                 end
             end) in H.
  assert (In ("release", strip (lower album)) c0) as Hrel.
  { unfold c0. destruct tracks, artist; simpl; tauto. }
  assert (In (match artist with
              | Some a => ("artist", strip (lower a))
              | None => ("arid", VARIOUS_ARTISTS_ID)
              end) c0) as Hart.
  { unfold c0. destruct tracks, artist; simpl; tauto. }
  assert (List.NoDup (map fst c0)) as Hnd.
  { unfold c0. destruct tracks, artist; simpl;
      repeat (constructor; [simpl; intros Hin; intuition discriminate |]); constructor. }
  assert (forall k v, In (k, v) c0 ->
            lower v = v
            /\ (k = "catno" -> ~ In " "%char (list_ascii_of_string v))
            /\ (In k extra_keys -> v <> "")) as Hval.
  { intros k v Hin.
    assert (In (k, v) [("release", strip (lower album));
                       match artist with
                       | Some a => ("artist", strip (lower a))
                       | None => ("arid", VARIOUS_ARTISTS_ID)
                       end;
                       ("tracks", match tracks with Some n => str_of_int n | None => "0" end)])
      as Hin'.
    { unfold c0 in Hin. destruct tracks, artist; simpl in Hin |- *; tauto. }
    simpl in Hin'. destruct Hin' as [E | [E | [E | []]]].
    - injection E as <- <-. split; [apply lower_strip_lower |].
      split; [discriminate | simpl; intuition discriminate].
    - destruct artist; injection E as <- <-.
      + split; [apply lower_strip_lower |].
        split; [discriminate | simpl; intuition discriminate].
      + split; [reflexivity |].
        split; [discriminate | simpl; intuition discriminate].
    - injection E as <- <-. split.
      + destruct tracks; [apply lower_str_of_int | reflexivity].
      + split; [discriminate | simpl; intuition discriminate]. }
  split; [| split; [| split]].
  - refine (extra_tags_loop_invariant (fun c => List.NoDup (map fst c)) _
              extra_tags c0 criteria Hnd H).
    intros c key v Hc _ _ _ _. apply dict_set_NoDup, Hc.
  - apply (extra_tags_loop_keeps extra_tags c0); [| exact Hrel | exact H].
    simpl. intuition discriminate.
  - destruct artist.
    + apply (extra_tags_loop_keeps extra_tags c0); [| exact Hart | exact H].
      simpl. intuition discriminate.
    + apply (extra_tags_loop_keeps extra_tags c0); [| exact Hart | exact H].
      simpl. intuition discriminate.
  - refine (extra_tags_loop_invariant
              (fun c => forall k v, In (k, v) c ->
                 lower v = v
                 /\ (k = "catno" -> ~ In " "%char (list_ascii_of_string v))
                 /\ (In k extra_keys -> v <> "")) _ extra_tags c0 criteria Hval H).
    intros c key v' Hc Hkey Hne Hlow Hcat k v Hin.
    apply dict_set_In in Hin as [[-> ->] | Hin]; [| apply Hc, Hin].
    split; [exact Hlow |]. split; [exact Hcat | intros _; exact Hne].
Qed.

Lemma album_criteria_shape_witness :
  exists criteria,
    album_criteria (Some " The Artist ") "An Album" (Some 12)
      [("catalognum", TagStr "ABC 123 "); ("label", TagStr ""); ("year", TagInt 1999)]
    = Ok criteria
    /\ criteria = [("release", "an album"); ("artist", "the artist"); ("tracks", "12");
                   ("catno", "abc123"); ("date", "1999")]
    /\ List.NoDup (map fst criteria).
Proof.
  eexists. split; [reflexivity |]. split; [reflexivity |].
  exact (proj1 (album_criteria_shape (Some " The Artist ") "An Album" (Some 12)
                  [("catalognum", TagStr "ABC 123 "); ("label", TagStr "");
                   ("year", TagInt 1999)] _ eq_refl)).
Defined.

(** A search for a Various Artists album is always made, blank title or
    not, and an error of the service in it comes out as the error of the
    API, which names the release search and holds the criteria sent. *)
Theorem match_album_various_artists (config : Config) (mbz : musicbrainzngs)
    (plugins : Plugins) (search : musicbrainzngs_search) (searchlimit : Z)
    (album : str) (tracks : option Z) (extra_tags : list (str * tag_value))
    (criteria : list (str * str)) (exc : MusicBrainzError) :
  album_criteria None album tracks extra_tags = Ok criteria ->
  search_releases search searchlimit criteria = Raise (MBError exc) ->
  In ("arid", VARIOUS_ARTISTS_ID) criteria
  /\ match_album config mbz plugins search searchlimit None album tracks extra_tags
     = ([], Some (SearchAPIError
                    (if isinstance_WebServiceError exc
                     then ReasonStr "MusicBrainz not reachable"
                     else ReasonExc exc)
                    "release search" criteria)).
Proof.
  intros Hc Hs.
  assert (In ("arid", VARIOUS_ARTISTS_ID) criteria) as Hin.
  { unfold album_criteria in Hc.
    apply (extra_tags_loop_keeps extra_tags _ criteria "arid" VARIOUS_ARTISTS_ID)
      in Hc; [exact Hc | simpl; intuition discriminate |].
    destruct tracks; simpl; tauto. }
  split; [exact Hin |].
  unfold match_album. rewrite Hc.
  rewrite (any_value_In criteria _ _ Hin) by discriminate.
  simpl. rewrite Hs. reflexivity.
Qed.

Lemma match_album_various_artists_witness :
  match_album default_config (service_answering NetworkError) no_plugins failing_search 5
    None "" None []
  = ([], Some (SearchAPIError (ReasonStr "MusicBrainz not reachable") "release search"
                 [("release", ""); ("arid", VARIOUS_ARTISTS_ID)])).
Proof.
  exact (proj2 (match_album_various_artists default_config
                  (service_answering NetworkError) no_plugins failing_search 5
                  "" None [] _ NetworkError eq_refl eq_refl)).
Defined.

(** The albums of a search are those of the identifiers found, in the
    order of the result: an identifier that gives no album is passed
    over, and an exception in the lookup of one ends the generator after
    the albums of the identifiers before it. *)
Theorem match_album_results (config : Config) (mbz : musicbrainzngs)
    (plugins : Plugins) (search : musicbrainzngs_search) (searchlimit : Z)
    (artist : option str) (album : str) (tracks : option Z)
    (extra_tags : list (str * tag_value)) (criteria : list (str * str))
    (release_list : list str) :
  album_criteria artist album tracks extra_tags = Ok criteria ->
  any_value criteria = true ->
  search_releases search searchlimit criteria = Ok release_list ->
  (Forall (looked_up config mbz plugins) release_list ->
   match_album config mbz plugins search searchlimit artist album tracks extra_tags
   = (omap (found config mbz plugins) release_list, None))
  /\ (forall before bad after e,
         release_list = before ++ bad :: after ->
         Forall (looked_up config mbz plugins) before ->
         album_for_id config mbz plugins bad = Raise e ->
         match_album config mbz plugins search searchlimit artist album tracks extra_tags
         = (omap (found config mbz plugins) before, Some (Propagated e))).
Proof.
  intros Hc Hany Hs. unfold match_album. rewrite Hc, Hany, Hs. simpl. split.
  - intros Hall. rewrite (match_album_loop_all _ _ _ _ _ Hall). reflexivity.
  - intros before bad after e -> Hall Hbad.
    rewrite match_album_loop_app, (match_album_loop_all _ _ _ _ _ Hall).
    simpl. rewrite Hbad. reflexivity.
Qed.

Lemma match_album_results_witness :
  match_album default_config (service_with_release va_release NetworkError) no_plugins
    (search_finding ["unknown"; VARIOUS_ARTISTS_ID] []) 5
    (Some "Diverse") "Collected" None []
  = (omap (found default_config (service_with_release va_release NetworkError) no_plugins)
       ["unknown"; VARIOUS_ARTISTS_ID], None)
  /\ List.length
       (omap (found default_config (service_with_release va_release NetworkError)
                no_plugins) ["unknown"; VARIOUS_ARTISTS_ID]) = 1%nat.
Proof.
  split; [| vm_compute; reflexivity].
  apply (proj1 (match_album_results default_config
                  (service_with_release va_release NetworkError) no_plugins
                  (search_finding ["unknown"; VARIOUS_ARTISTS_ID] []) 5
                  (Some "Diverse") "Collected" None [] _ _ eq_refl eq_refl eq_refl)).
  repeat constructor; eexists; vm_compute; reflexivity.
Defined.

Lemma extra_tags_loop_app (l1 l2 : list (str * tag_value)) (criteria : list (str * str)) :
  extra_tags_loop (l1 ++ l2) criteria
  = match extra_tags_loop l1 criteria with
    | Ok c1 => extra_tags_loop l2 c1
    | Raise e => Raise e
    end.
Proof.
  revert criteria. induction l1 as [|[tag value] l1 IH]; intros criteria; simpl;
    [reflexivity |].
  destruct (FIELDS_TO_MB_KEYS !! tag); simpl; [apply IH | reflexivity].
Qed.

Lemma extra_tags_loop_known (extra_tags : list (str * tag_value))
    (criteria : list (str * str)) :
  Forall (fun tv => is_Some (FIELDS_TO_MB_KEYS !! fst tv)) extra_tags ->
  exists criteria', extra_tags_loop extra_tags criteria = Ok criteria'.
Proof.
  intros H. revert criteria.
  induction H as [|[tag value] rest [key Hk] _ IH]; intros criteria; simpl.
  - eexists. reflexivity.
  - simpl in Hk. rewrite Hk. simpl. apply IH.
Qed.

(** An extra tag that is none of the five the mapper knows ends the
    search before it is made: the lookup of its key raises, whatever the
    tags after it and whatever the service would answer; and when every
    tag is one of the five, the criteria are built. *)
Theorem match_album_unknown_tag (config : Config) (mbz : musicbrainzngs)
    (plugins : Plugins) (search : musicbrainzngs_search) (searchlimit : Z)
    (artist : option str) (album : str) (tracks : option Z)
    (before after : list (str * tag_value)) (tag : str) (value : tag_value) :
  Forall (fun tv => In (fst tv) ["catalognum"; "country"; "label"; "media"; "year"])
    before ->
  ~ In tag ["catalognum"; "country"; "label"; "media"; "year"] ->
  match_album config mbz plugins search searchlimit artist album tracks
    (before ++ (tag, value) :: after)
  = ([], Some (Propagated (KeyError tag)))
  /\ exists criteria, album_criteria artist album tracks before = Ok criteria.
Proof.
  intros Hbefore Htag.
  assert (Forall (fun tv => is_Some (FIELDS_TO_MB_KEYS !! fst tv)) before) as Hknown.
  { eapply List.Forall_impl; [| exact Hbefore]. intros [t v] Hin. simpl in *.
    destruct Hin as [<- | [<- | [<- | [<- | [<- | []]]]]]; eexists; reflexivity. }
  assert (FIELDS_TO_MB_KEYS !! tag = None) as Hnone.
  { unfold FIELDS_TO_MB_KEYS. apply not_elem_of_list_to_map_1.
    rewrite list_elem_of_In. simpl. exact Htag. }
  split.
  - unfold match_album, album_criteria. rewrite extra_tags_loop_app.
    destruct (extra_tags_loop_known before
                match tracks with
                | Some n =>
                    dict_set
                      match artist with
                      | Some a => dict_set [("release", strip (lower album))] "artist"
                                    (strip (lower a))
                      | None => dict_set [("release", strip (lower album))] "arid"
                                  VARIOUS_ARTISTS_ID
                      end "tracks" (str_of_int n)
                | None =>
                    match artist with
                    | Some a => dict_set [("release", strip (lower album))] "artist"
                                  (strip (lower a))
                    | None => dict_set [("release", strip (lower album))] "arid"
                                VARIOUS_ARTISTS_ID
                    end
                end Hknown) as [c1 Hc1].
    rewrite Hc1. simpl. rewrite Hnone. reflexivity.
  - unfold album_criteria. apply extra_tags_loop_known, Hknown.
Qed.

Lemma match_album_unknown_tag_witness :
  match_album default_config (service_answering NetworkError) no_plugins failing_search 5
    (Some "Artist") "Album" None
    ([("year", TagInt 1999)] ++ ("genre", TagStr "Rock") :: [("label", TagStr "L")])
  = ([], Some (Propagated (KeyError "genre"))).
Proof.
  refine (proj1 (match_album_unknown_tag default_config (service_answering NetworkError)
                   no_plugins failing_search 5 (Some "Artist") "Album" None
                   [("year", TagInt 1999)] [("label", TagStr "L")] "genre"
                   (TagStr "Rock") _ _)).
  - constructor; [simpl; tauto | constructor].
  - simpl. intuition discriminate.
Defined.

Lemma match_track_loop_all (config : Config) (plugins : Plugins)
    (recording_list : list Recording) (infos yielded : list TrackInfo.t) :
  Forall2 (fun recording info =>
             track_info config plugins recording None None None None = Ok info)
    recording_list infos ->
  match_track_loop config plugins recording_list yielded = (yielded ++ infos, None).
Proof.
  intros H. revert yielded. induction H as [|r i rs infos Hr _ IH]; intros yielded; simpl.
  - rewrite app_nil_r. reflexivity.
  - rewrite Hr, IH, <- app_assoc. reflexivity.
Qed.

Lemma match_track_loop_app (config : Config) (plugins : Plugins)
    (l1 l2 : list Recording) (yielded : list TrackInfo.t) :
  match_track_loop config plugins (l1 ++ l2) yielded
  = match match_track_loop config plugins l1 yielded with
    | (y1, None) => match_track_loop config plugins l2 y1
    | (y1, Some e) => (y1, Some e)
    end.
Proof.
  revert yielded. induction l1 as [|r l1 IH]; intros yielded; simpl; [reflexivity |].
  destruct (track_info config plugins r None None None None); [apply IH | reflexivity].
Qed.

(** A track search with a blank artist and a blank title is not made.
    One that is made and answered yields the track of every recording
    found, one for one and in the order of the result, each mapped with
    no position on a release; a recording that cannot be mapped ends the
    generator with its exception, after the tracks of those before it. *)
Theorem match_track_results (config : Config) (plugins : Plugins)
    (search : musicbrainzngs_search) (searchlimit : Z) (artist title : str) :
  (strip (lower artist) = "" -> strip (lower title) = "" ->
   match_track config plugins search searchlimit artist title = ([], None))
  /\ (forall recording_list,
         strip (lower artist) <> "" \/ strip (lower title) <> "" ->
         search_recordings search searchlimit
           [("artist", strip (lower artist)); ("recording", strip (lower title))]
         = Ok recording_list ->
         (forall infos,
             Forall2 (fun recording info =>
                        track_info config plugins recording None None None None = Ok info)
               recording_list infos ->
             match_track config plugins search searchlimit artist title = (infos, None))
         /\ (forall before bad after infos e,
                recording_list = before ++ bad :: after ->
                Forall2 (fun recording info =>
                           track_info config plugins recording None None None None
                           = Ok info) before infos ->
                track_info config plugins bad None None None None = Raise e ->
                match_track config plugins search searchlimit artist title
                = (infos, Some (Propagated e)))).
Proof.
  split.
  - intros Ha Ht. unfold match_track. rewrite Ha, Ht. reflexivity.
  - intros recording_list Hsome Hs. unfold match_track.
    assert (any_value [("artist", strip (lower artist));
                       ("recording", strip (lower title))] = true) as Hany.
    { destruct Hsome as [H | H].
      - apply (any_value_In _ "artist" (strip (lower artist))); [left; reflexivity | exact H].
      - apply (any_value_In _ "recording" (strip (lower title)));
          [right; left; reflexivity | exact H]. }
    rewrite Hany, Hs. simpl. split.
    + intros infos Hall. rewrite (match_track_loop_all _ _ _ _ _ Hall). reflexivity.
    + intros before bad after infos e -> Hall Hbad.
      rewrite match_track_loop_app, (match_track_loop_all _ _ _ _ _ Hall).
      simpl. rewrite Hbad. reflexivity.
Qed.

Lemma match_track_results_witness :
  exists info,
    track_info default_config no_plugins arranged_recording None None None None = Ok info
    /\ match_track default_config no_plugins (search_finding [] [arranged_recording]) 5
         "An Artist" " A Title" = ([info], None).
Proof.
  eexists. split; [reflexivity |].
  refine (proj1 (proj2 (match_track_results default_config no_plugins
                          (search_finding [] [arranged_recording]) 5
                          "An Artist" " A Title")
                   [arranged_recording] (or_introl _) eq_refl) _ _).
  - discriminate.
  - constructor; [reflexivity | constructor].
Defined.

(** ** The commands on cover art *)


Lemma embed_loop_frame (data : str) (kind : embedart.imagekind)
    (items : list embedart.Item) (w w' : embedart.World) (e : option exn) :
  embedart.embed_loop data kind items w = (w', e) ->
  embedart.images w' = embedart.images w
  /\ (forall p, ~ In p (map embedart.path items) ->
                embedart.audio w' !! p = embedart.audio w !! p)
  /\ (forall p f, embedart.audio w !! p = Some f ->
                  exists f', embedart.audio w' !! p = Some f'
                             /\ embedart.tags f' = embedart.tags f)
  /\ (forall p, embedart.audio w !! p = None -> embedart.audio w' !! p = None).
Proof.
  revert w. induction items as [|item rest IH]; intros w H; simpl in H.
  - injection H as <- _. repeat split; try reflexivity.
    + intros p f Hf. exists f. split; [exact Hf | reflexivity].
    + intros p Hp. exact Hp.
  - destruct (embedart.audio w !! embedart.path item) as [f0|] eqn:Hf0.
    + destruct (IH _ H) as (Himg & Hkeep & Htags & Hnone).
      assert (forall p, embedart.audio
                          (embedart.save_art (embedart.path item) f0 data kind w) !! p
                        = if decide (embedart.path item = p)
                          then Some {| embedart.art := Some (data, kind);
                                       embedart.tags := embedart.tags f0 |}
                          else embedart.audio w !! p) as Hw1.
      { intros p. unfold embedart.save_art. simpl. apply lookup_insert. }
      split; [exact Himg |]. split; [| split].
      * intros p Hp. simpl in Hp. rewrite (Hkeep p) by tauto.
        rewrite Hw1. destruct (decide _) as [E | E]; [| reflexivity].
        exfalso. apply Hp. left. exact E.
      * intros p f Hf. specialize (Hw1 p).
        destruct (decide (embedart.path item = p)) as [E | E].
        -- destruct (Htags p _ Hw1) as (f' & Hf' & Ht). exists f'. split; [exact Hf' |].
           rewrite Ht. simpl. subst p. rewrite Hf0 in Hf. injection Hf as <-. reflexivity.
        -- rewrite Hf in Hw1. exact (Htags p f Hw1).
      * intros p Hp. apply Hnone. rewrite Hw1.
        destruct (decide _) as [E | E]; [| exact Hp].
        subst p. congruence.
    + injection H as <- _. repeat split; try reflexivity.
      * intros p f Hf. exists f. split; [exact Hf | reflexivity].
      * intros p Hp. exact Hp.
Qed.

Lemma embed_frame (imghdr_what : str -> option str) (path : str)
    (items : list embedart.Item) (w w' : embedart.World) (e : option exn) :
  embedart._embed imghdr_what path items w = (w', e) ->
  embedart.images w' = embedart.images w
  /\ (forall p, ~ In p (map embedart.path items) ->
                embedart.audio w' !! p = embedart.audio w !! p)
  /\ (forall p f, embedart.audio w !! p = Some f ->
                  exists f', embedart.audio w' !! p = Some f'
                             /\ embedart.tags f' = embedart.tags f)
  /\ (forall p, embedart.audio w !! p = None -> embedart.audio w' !! p = None).
Proof.
  assert (embedart.images w' = embedart.images w
          /\ embedart.audio w' = embedart.audio w ->
          embedart.images w' = embedart.images w
          /\ (forall p, ~ In p (map embedart.path items) ->
                        embedart.audio w' !! p = embedart.audio w !! p)
          /\ (forall p f, embedart.audio w !! p = Some f ->
                          exists f', embedart.audio w' !! p = Some f'
                                     /\ embedart.tags f' = embedart.tags f)
          /\ (forall p, embedart.audio w !! p = None -> embedart.audio w' !! p = None))
    as Hsame.
  { intros [Hi Ha]. rewrite Ha. repeat split; try assumption; try reflexivity.
    - intros p f Hf. exists f. split; [exact Hf | reflexivity].
    - intros p Hp. exact Hp. }
  unfold embedart._embed.
  destruct (embedart.images w !! path) as [data|].
  - destruct (imghdr_what data) as [k|].
    + destruct (str_eqb k "jpeg"); [intros H; exact (embed_loop_frame _ _ _ _ _ _ H) |].
      destruct (str_eqb k "png"); [intros H; exact (embed_loop_frame _ _ _ _ _ _ H) |].
      intros [= <- _]. apply Hsame. split; reflexivity.
    + intros [= <- _]. apply Hsame. split; reflexivity.
  - intros [= <- _]. apply Hsame. split; reflexivity.
Qed.




(** The embed command changes the files of the items of the first album
    the query matches and nothing else: every other audio file and every
    image file is as it was, a file that was there keeps its other tags,
    no file appears, and this holds for every outcome of the command, an
    image of a kind that is refused or a file that cannot be opened among
    them. *)
Theorem embed_command_frame (imghdr_what : str -> option str) (query : Type)
    (lib : embedart_commands.Library query) (imagepath : str) (q : query)
    (w : embedart.World) :
  let embedded := embedart_commands.embed imghdr_what query lib imagepath q w in
  let targets :=
    match embedart_commands.lib_albums lib q with
    | album0 :: _ => map embedart_commands.item (embedart_commands.items album0)
    | [] => []
    end in
  embedart.images (embedart_commands.world embedded) = embedart.images w
  /\ (forall p, ~ In p (map embedart.path targets) ->
                embedart.audio (embedart_commands.world embedded) !! p
                = embedart.audio w !! p)
  /\ (forall p f, embedart.audio w !! p = Some f ->
                  exists f', embedart.audio (embedart_commands.world embedded) !! p
                             = Some f'
                             /\ embedart.tags f' = embedart.tags f)
  /\ (forall p, embedart.audio w !! p = None ->
                embedart.audio (embedart_commands.world embedded) !! p = None).
Proof.
  unfold embedart_commands.embed.
  destruct (embedart_commands.lib_albums lib q) as [|album0 rest]; simpl.
  - repeat split; try reflexivity.
    + intros p f Hf. exists f. split; [exact Hf | reflexivity].
    + intros p Hp. exact Hp.
  - destruct (embedart._embed imghdr_what imagepath
                (map embedart_commands.item (embedart_commands.items album0)) w)
      as [w' e] eqn:He.
    simpl. exact (embed_frame _ _ _ _ _ _ He).
Qed.

(** The listener of an import embeds only when the option is on and the
    album has a path to its art that is not empty: otherwise it leaves
    the files and the log as they are.  When it embeds, it changes the
    files of the items of the album imported and no other. *)
Theorem album_imported_frame (imghdr_what : str -> option str) (autoembed : bool)
    (album0 : embedart_commands.Album) (w : embedart.World) :
  (autoembed = false \/ embedart_commands.artpath album0 = None
   \/ embedart_commands.artpath album0 = Some "" ->
   embedart_commands.album_imported imghdr_what autoembed album0 w = (w, None))
  /\ (forall p,
         autoembed = true ->
         embedart_commands.artpath album0 = Some p -> p <> "" ->
         embedart_commands.album_imported imghdr_what autoembed album0 w
         = embedart._embed imghdr_what p
             (map embedart_commands.item (embedart_commands.items album0)) w)
  /\ (forall p,
         ~ In p (map embedart.path
                   (map embedart_commands.item (embedart_commands.items album0))) ->
         embedart.audio (fst (embedart_commands.album_imported imghdr_what autoembed
                                album0 w)) !! p
         = embedart.audio w !! p).
Proof.
  unfold embedart_commands.album_imported. split; [| split].
  - intros [-> | [-> | ->]]; [| reflexivity | reflexivity].
    destruct (embedart_commands.artpath album0) as [p|]; [| reflexivity].
    rewrite andb_false_r. reflexivity.
  - intros p -> -> Hp. apply nonempty_true in Hp. rewrite Hp. reflexivity.
  - intros p Hp. destruct (embedart_commands.artpath album0) as [art|]; [| reflexivity].
    destruct (nonempty art && autoembed); [| reflexivity].
    destruct (embedart._embed imghdr_what art
                (map embedart_commands.item (embedart_commands.items album0)) w)
      as [w' e] eqn:He.
    simpl. exact (proj1 (proj2 (embed_frame _ _ _ _ _ _ He)) p Hp).
Qed.


Lemma embed_command_frame_witness :
  embedart.audio
    (embedart_commands.world
       (embedart_commands.embed sniff_first_byte unit library_of_one "cover.png" tt
          music_world))
    !! "other.mp3"
  = embedart.audio music_world !! "other.mp3".
Proof.
  apply (proj1 (proj2 (embed_command_frame sniff_first_byte unit library_of_one
                         "cover.png" tt music_world))).
  simpl. intuition discriminate.
Defined.

Lemma album_imported_frame_witness :
  embedart_commands.album_imported sniff_first_byte false album_of_two music_world
  = (music_world, None)
  /\ embedart_commands.album_imported sniff_first_byte true album_of_two music_world
     = embedart._embed sniff_first_byte "cover.png" album_items music_world.
Proof.
  split.
  - apply (proj1 (album_imported_frame sniff_first_byte false album_of_two music_world)).
    left. reflexivity.
  - apply (proj1 (proj2 (album_imported_frame sniff_first_byte true album_of_two
                           music_world)) "cover.png");
      [reflexivity | reflexivity | discriminate].
Defined.

(** ** The addresses of releases and recordings *)

Lemma parse_id_shaped (id : str) :
  shaped (uuid_shape Hex_lower) id -> _parse_id id = Some id.
Proof.
  intros Hm. unfold _parse_id. rewrite re_search_unfold.
  rewrite <- (append_nil_r id) at 1.
  rewrite (match_here_complete _ id EmptyString Hm). reflexivity.
Qed.

Lemma re_search_album_url (id : str) :
  re_search (uuid_shape Hex_lower) (album_url id) = re_search (uuid_shape Hex_lower) id.
Proof. vm_compute. reflexivity. Qed.

Lemma re_search_track_url (id : str) :
  re_search (uuid_shape Hex_lower) (track_url id) = re_search (uuid_shape Hex_lower) id.
Proof. vm_compute. reflexivity. Qed.

(** The address the mapper records for a release or a recording leads
    back to it: the identifier found in the address made from an
    identifier is that identifier, so a lookup by the address is the
    lookup by the identifier. *)
Theorem parse_id_of_url (config : Config) (mbz : musicbrainzngs) (plugins : Plugins)
    (id : str) :
  shaped (uuid_shape Hex_lower) id ->
  _parse_id (album_url id) = Some id
  /\ _parse_id (track_url id) = Some id
  /\ album_for_id config mbz plugins (album_url id) = album_for_id config mbz plugins id
  /\ track_for_id config mbz plugins (track_url id) = track_for_id config mbz plugins id.
Proof.
  intros Hm. pose proof (parse_id_shaped id Hm) as Hid.
  assert (_parse_id (album_url id) = Some id) as Ha.
  { unfold _parse_id. rewrite re_search_album_url. exact Hid. }
  assert (_parse_id (track_url id) = Some id) as Ht.
  { unfold _parse_id. rewrite re_search_track_url. exact Hid. }
  split; [exact Ha |]. split; [exact Ht |]. split.
  - unfold album_for_id. rewrite Ha, Hid. reflexivity.
  - unfold track_for_id. rewrite Ht, Hid. reflexivity.
Qed.

Lemma parse_id_of_url_witness :
  _parse_id "https://musicbrainz.org/release/89ad4ac3-39f7-470e-963a-56509c546377"
  = Some VARIOUS_ARTISTS_ID.
Proof.
  refine (proj1 (parse_id_of_url default_config (service_answering NetworkError)
                   no_plugins VARIOUS_ARTISTS_ID _)).
  vm_compute. repeat split.
Defined.
